(** * Kiwistand storage and sync core: a shallow embedding of [src/store.mjs]
    and of the story aggregation [count] of the web views.

    Layout of the development:
    - [Js]      : the few JavaScript values and the exception monad the code needs;
    - [Keccak]  : keccak256 of [ethereum-cryptography];
    - [Rlp]     : the encoder and decoder of [@ethereumjs/rlp];
    - [EthTrie] : the read side of [@ethereumjs/trie] (nodes, serialisation,
                  [lookupNode], [findPath]);
    - [Store]   : [src/store.mjs];
    - [Stories], [PlainStories] : [count] of the two web views;
    - the vocabulary of the properties and the sample data;
    - the properties, function by function.

    The libraries are modelled as far as the code calls them. What the code
    gets from outside and cannot be computed here (signature recovery, the
    allow list, the URL normaliser, CBOR, the clock, [trie.put]) is a
    parameter of the function that uses it. *)

From Stdlib Require Import ZArith List Lia Bool QArith Sorted Permutation.
From stdpp Require Import gmap strings list pretty.
Import ListNotations.

Set Warnings "-register-all".
Local Open Scope Z_scope.

(** A Node.js [Buffer]: a sequence of bytes, each an integer in [0, 256). *)
Abbreviation Buffer := (list Z) (only parsing).

(** A nibble path, as @ethereumjs/trie keeps it: an array of numbers in [0, 16). *)
Abbreviation Nibbles := (list Z) (only parsing).

Module Js.

(** A thrown JavaScript [Error], identified by its message. *)
Record Error := mkError { message : string }.

(** The outcome of a call that may throw. *)
Inductive result (A : Type) : Type :=
| Ok (a : A)
| Throw (e : Error).
Arguments Ok {A} a.
Arguments Throw {A} e.

Definition bind {A B} (r : result A) (k : A -> result B) : result B :=
  match r with
  | Ok a => k a
  | Throw e => Throw e
  end.

Definition throw {A} (msg : string) : result A := Throw (mkError msg).

(** [s.includes(sub)]: [sub] occurs somewhere in [s]. *)
Fixpoint includes (s sub : string) : bool :=
  if String.prefix sub s then true
  else match s with
       | EmptyString => false
       | String _ s' => includes s' sub
       end.

(** [err.toString()] for an [Error] object. *)
Definition toString (e : Error) : string := String.append "Error: " (message e).

(** The values that reach [isEqual]: a [Buffer], an array (the raw form of
    an embedded node is an array of buffers), or anything else. *)
Inductive Value : Type :=
| VUndefined
| VNull
| VBuffer (b : Buffer)
| VArray (items : list Value)
| VString (s : string)
| VNumber (n : Z).

Definition Array_isArray (v : Value) : bool :=
  match v with VArray _ => true | _ => false end.

Definition Buffer_isBuffer (v : Value) : bool :=
  match v with VBuffer _ => true | _ => false end.

(** A number-valued argument that callers also leave [undefined] or set to
    [null] ([from], [amount], [startDatetime] of [leaves]). *)
Inductive Num : Type :=
| NUndefined
| NNull
| NInt (n : Z).

Definition Number_isInteger (n : Num) : bool :=
  match n with NInt _ => true | _ => false end.

End Js.

Import Js.

(** [let! x := c in k]: run [c]; if it throws, so does the whole; else go on
    with its value (JavaScript's sequencing of calls that may throw). *)
Notation "'let!' x ':=' c 'in' k" := (Js.bind c (fun x => k))
  (at level 10, x pattern, c at level 100, k at level 200).

(** [Buffer.compare(a, b) === 0]: the same bytes in the same order. *)
Fixpoint buffer_eqb (a b : Buffer) : bool :=
  match a, b with
  | [], [] => true
  | x :: a', y :: b' => (x =? y) && buffer_eqb a' b'
  | _, _ => false
  end.

(** * keccak256 ([ethereum-cryptography/keccak.js]) *)
Module Keccak.

Definition mask64 : Z := 0xFFFFFFFFFFFFFFFF.

Definition rotl64 (x : Z) (n : Z) : Z :=
  Z.land (Z.lor (Z.shiftl x n) (Z.shiftr x (64 - n))) mask64.

Definition RC : list Z :=
  [ 0x0000000000000001; 0x0000000000008082; 0x800000000000808A;
    0x8000000080008000; 0x000000000000808B; 0x0000000080000001;
    0x8000000080008081; 0x8000000000008009; 0x000000000000008A;
    0x0000000000000088; 0x0000000080008009; 0x000000008000000A;
    0x000000008000808B; 0x800000000000008B; 0x8000000000008089;
    0x8000000000008003; 0x8000000000008002; 0x8000000000000080;
    0x000000000000800A; 0x800000008000000A; 0x8000000080008081;
    0x8000000000008080; 0x0000000080000001; 0x8000000080008008 ].

(** Rotation offsets, lane [x + 5 * y] at position [x + 5 * y]. *)
Definition RHO : list Z :=
  [  0;  1; 62; 28; 27;
    36; 44;  6; 55; 20;
     3; 10; 43; 25; 39;
    41; 45; 15; 21;  8;
    18;  2; 61; 56; 14 ].

(** The state: 25 lanes of 64 bits, lane [(x, y)] at index [x + 5 * y]. *)
Definition lane (st : list Z) (x y : nat) : Z :=
  nth ((x mod 5) + 5 * (y mod 5))%nat st 0.

Definition theta (st : list Z) : list Z :=
  let C x := Z.lxor (lane st x 0) (Z.lxor (lane st x 1)
               (Z.lxor (lane st x 2) (Z.lxor (lane st x 3) (lane st x 4)))) in
  let D x := Z.lxor (C (x + 4)%nat) (rotl64 (C (x + 1)%nat) 1) in
  map (fun i => Z.lxor (nth i st 0) (D (i mod 5)%nat)) (seq 0 25).

(** rho and pi together: the lane that lands at [(X, Y)] comes from
    [(x, y)] with [y = X] and [2x + 3y = Y (mod 5)]. *)
Definition rho_pi (st : list Z) : list Z :=
  map (fun j =>
         let X := (j mod 5)%nat in
         let Y := (j / 5)%nat in
         let x := ((X + 3 * Y) mod 5)%nat in
         let y := X in
         rotl64 (lane st x y) (nth (x + 5 * y)%nat RHO 0))
      (seq 0 25).

Definition chi (st : list Z) : list Z :=
  map (fun i =>
         let x := (i mod 5)%nat in
         let y := (i / 5)%nat in
         Z.lxor (lane st x y)
                (Z.land (Z.lxor (lane st (x + 1) y) mask64) (lane st (x + 2) y)))
      (seq 0 25).

Definition iota (rc : Z) (st : list Z) : list Z :=
  match st with
  | [] => []
  | l0 :: rest => Z.lxor l0 rc :: rest
  end.

Definition round (st : list Z) (rc : Z) : list Z :=
  iota rc (chi (rho_pi (theta st))).

Definition keccak_f (st : list Z) : list Z := fold_left round RC st.

(** Little-endian lane from at most eight bytes. *)
Fixpoint bytes_to_lane (bs : list Z) : Z :=
  match bs with
  | [] => 0
  | b :: bs' => Z.lor b (Z.shiftl (bytes_to_lane bs') 8)
  end.

Definition lane_to_bytes (l : Z) : list Z :=
  [ Z.land l 255;
    Z.land (Z.shiftr l 8) 255;
    Z.land (Z.shiftr l 16) 255;
    Z.land (Z.shiftr l 24) 255;
    Z.land (Z.shiftr l 32) 255;
    Z.land (Z.shiftr l 40) 255;
    Z.land (Z.shiftr l 48) 255;
    Z.land (Z.shiftr l 56) 255 ].

(** The rate of Keccak-256 in bytes. *)
Definition rate : nat := 136.

(** Keccak's original padding: 0x01, zeros, 0x80 (0x81 when one byte is free). *)
Definition pad (m : list Z) : list Z :=
  let free := (rate - (length m mod rate))%nat in
  if (free =? 1)%nat then m ++ [0x81]
  else m ++ [0x01] ++ repeat 0 (free - 2) ++ [0x80].

Fixpoint lanes_of (n : nat) (bs : list Z) : list Z :=
  match n with
  | O => []
  | S n' => bytes_to_lane (firstn 8 bs) :: lanes_of n' (skipn 8 bs)
  end.

Definition absorb_block (st : list Z) (block : list Z) : list Z :=
  let ls := lanes_of 17 block in
  keccak_f (map (fun i => Z.lxor (nth i st 0) (nth i ls 0)) (seq 0 25)).

Fixpoint absorb (fuel : nat) (st : list Z) (bs : list Z) : list Z :=
  match fuel with
  | O => st
  | S fuel' =>
      match bs with
      | [] => st
      | _ => absorb fuel' (absorb_block st (firstn rate bs)) (skipn rate bs)
      end
  end.

Definition keccak256 (m : Buffer) : Buffer :=
  let p := pad m in
  let st := absorb (S (length p / rate)) (repeat 0 25%nat) p in
  lane_to_bytes (nth 0 st 0) ++ lane_to_bytes (nth 1 st 0) ++
  lane_to_bytes (nth 2 st 0) ++ lane_to_bytes (nth 3 st 0).

End Keccak.

Definition keccak256 := Keccak.keccak256.

Definition of_hex_digit (c : Ascii.ascii) : Z :=
  let n := Z.of_nat (Ascii.nat_of_ascii c) in
  if (48 <=? n) && (n <=? 57) then n - 48
  else if (97 <=? n) && (n <=? 102) then n - 87
  else if (65 <=? n) && (n <=? 70) then n - 55
  else 0.

(** [Buffer.from(s, "hex")] for a string of hexadecimal digit pairs. *)
Fixpoint Buffer_from_hex (s : string) : Buffer :=
  match s with
  | String a (String b rest) => (16 * of_hex_digit a + of_hex_digit b) :: Buffer_from_hex rest
  | _ => []
  end.

(** * RLP ([@ethereumjs/rlp]) *)
Module Rlp.

(** What [encode] takes and [decode] gives back: a byte string or a list of
    items (the library's [NestedUint8Array]). A raw trie node is a [List];
    a reference to a stored node is the [Bytes] of its hash. *)
Inductive Item : Type :=
| Bytes (b : Buffer)
| List (items : list Item).

(** Big-endian bytes of a length, without leading zeros. A length is below
    2^53 in JavaScript, so seven bytes are enough. *)
Fixpoint be_bytes (fuel : nat) (n : Z) : Buffer :=
  match fuel with
  | O => []
  | S fuel' => if n =? 0 then [] else be_bytes fuel' (n / 256) ++ [n mod 256]
  end.

Definition encodeLength (len : Z) (offset : Z) : Buffer :=
  if len <? 56 then [len + offset]
  else
    let hexLength := be_bytes 8 len in
    (offset + 55 + Z.of_nat (length hexLength)) :: hexLength.

Fixpoint encode (input : Item) : Buffer :=
  match input with
  | List items =>
      let output := concat (map encode items) in
      encodeLength (Z.of_nat (length output)) 192 ++ output
  | Bytes inputBuf =>
      match inputBuf with
      | [b] => if b <? 128 then inputBuf
               else encodeLength (Z.of_nat (length inputBuf)) 128 ++ inputBuf
      | _ => encodeLength (Z.of_nat (length inputBuf)) 128 ++ inputBuf
      end
  end.

(** [safeSlice(input, start, end)]: throws when [end] is past the input. *)
Definition safeSlice (input : Buffer) (start stop : Z) : result Buffer :=
  if Z.of_nat (length input) <? stop
  then throw "invalid RLP (safeSlice): end slice of Uint8Array out-of-bounds"
  else Ok (skipn (Z.to_nat start) (firstn (Z.to_nat stop) input)).

Definition decodeLength (v : Buffer) : result Z :=
  match v with
  | [] => throw "Invalid byte sequence"
  | b :: _ =>
      if b =? 0 then throw "invalid RLP: extra zeros"
      else Ok (fold_left (fun acc x => acc * 256 + x) v 0)
  end.

(** [_decode]: the first item of the input and what is left after it. The
    library recurses on ever shorter inputs; here the recursion is bounded
    by [fuel], and [decode] gives it more than any input can use. *)
Fixpoint _decode (fuel : nat) (input : Buffer) : result (Item * Buffer) :=
  match fuel with
  | O => throw "out of fuel"
  | S fuel' =>
      match input with
      | [] => throw "Invalid byte sequence"
      | firstByte :: _ =>
          if firstByte <=? 0x7f then Ok (Bytes [firstByte], skipn 1 input)
          else if firstByte <=? 0xb7 then
            let length := firstByte - 0x7f in
            let! data := (if firstByte =? 0x80 then Ok [] else safeSlice input 1 length) in
            match data with
            | d0 :: _ =>
                if (length =? 2) && (d0 <? 0x80)
                then throw "invalid RLP encoding: invalid prefix, single byte < 0x80 are not prefixed"
                else Ok (Bytes data, skipn (Z.to_nat length) input)
            | [] => Ok (Bytes data, skipn (Z.to_nat length) input)
            end
          else if firstByte <=? 0xbf then
            let llength := firstByte - 0xb6 in
            if Z.of_nat (List.length input) - 1 <? llength
            then throw "invalid RLP: not enough bytes for string length"
            else
              let! lenBytes := safeSlice input 1 llength in
              let! length := decodeLength lenBytes in
              if length <=? 55
              then throw "invalid RLP: expected string length to be greater than 55"
              else
                let! data := safeSlice input llength (length + llength) in
                Ok (Bytes data, skipn (Z.to_nat (length + llength)) input)
          else if firstByte <=? 0xf7 then
            let length := firstByte - 0xbf in
            let! innerRemainder := safeSlice input 1 length in
            let! decoded := _decode_all fuel' innerRemainder in
            Ok (List decoded, skipn (Z.to_nat length) input)
          else
            let llength := firstByte - 0xf6 in
            let! lenBytes := safeSlice input 1 llength in
            let! length := decodeLength lenBytes in
            if length <? 56
            then throw "invalid RLP: expected list length to be greater than 55"
            else
              let totalLength := llength + length in
              if Z.of_nat (List.length input) <? totalLength
              then throw "invalid RLP: total length is larger than the data"
              else
                let! innerRemainder := safeSlice input llength totalLength in
                let! decoded := _decode_all fuel' innerRemainder in
                Ok (List decoded, skipn (Z.to_nat totalLength) input)
      end
  end
(** The loop [while (innerRemainder.length) { d = _decode(innerRemainder); ... }]. *)
with _decode_all (fuel : nat) (innerRemainder : Buffer) : result (list Item) :=
  match fuel with
  | O => throw "out of fuel"
  | S fuel' =>
      match innerRemainder with
      | [] => Ok []
      | _ =>
          let! d := _decode fuel' innerRemainder in
          let! ds := _decode_all fuel' (snd d) in
          Ok (fst d :: ds)
      end
  end.

(** [decode(input)] (not streaming): the single item the input encodes. *)
Definition decode (input : Buffer) : result Item :=
  match input with
  | [] => Ok (Bytes [])
  | _ =>
      let! decoded := _decode (2 * length input + 2) input in
      match snd decoded with
      | [] => Ok (fst decoded)
      | _ => throw "invalid RLP: remainder must be zero"
      end
  end.

End Rlp.

(** [nibblesToBuffer] of [src/store.mjs] (the same function is in
    @ethereumjs/trie): two nibbles per byte; [Buffer.alloc(arr.length / 2)]
    rounds the size down, so the last nibble of an odd-length array is
    dropped; a byte store wraps modulo 256. *)
Fixpoint nibblesToBuffer (arr : Nibbles) : Buffer :=
  match arr with
  | hi :: lo :: rest => ((Z.shiftl hi 4 + lo) mod 256) :: nibblesToBuffer rest
  | _ => []
  end.

(** * The read side of @ethereumjs/trie *)
Module EthTrie.

Import Rlp.

(** [bufferToNibbles]: high nibble, then low nibble of every byte. *)
Definition bufferToNibbles (key : Buffer) : Nibbles :=
  flat_map (fun b => [Z.shiftr b 4; b mod 16]) key.

(** [addHexPrefix(key, terminator)]. *)
Definition addHexPrefix (key : Nibbles) (terminator : bool) : Nibbles :=
  let flag := if terminator then 2 else 0 in
  if Nat.odd (length key) then (1 + flag) :: key
  else flag :: 0 :: key.

(** [removeHexPrefix(val)]. *)
Definition removeHexPrefix (val : Nibbles) : Nibbles :=
  match val with
  | [] => skipn 2 val
  | v0 :: _ => if v0 mod 2 =? 0 then skipn 2 val else skipn 1 val
  end.

(** [isTerminator(key)]: [key[0] > 1]. *)
Definition isTerminator (key : Nibbles) : bool :=
  match key with
  | [] => false
  | k0 :: _ => 1 <? k0
  end.

(** The three node classes. A reference to a child ([Buffer | Buffer[]] in
    the library) is an [Item]: the [Bytes] of a hash, or the [List] of an
    embedded raw node. An unset branch or value ([null]) and the empty
    buffer have the same encoding and the same [getBranch], and are both
    [Bytes []] here. *)
Inductive TrieNode : Type :=
| BranchNode (branches : list Item) (value : Item)
| ExtensionNode (nibbles : Nibbles) (value : Item)
| LeafNode (nibbles : Nibbles) (value : Item).

(** [node.raw()]. *)
Definition raw (node : TrieNode) : list Item :=
  match node with
  | BranchNode branches value => branches ++ [value]
  | ExtensionNode nibbles value =>
      [Bytes (nibblesToBuffer (addHexPrefix nibbles false)); value]
  | LeafNode nibbles value =>
      [Bytes (nibblesToBuffer (addHexPrefix nibbles true)); value]
  end.

(** [node.serialize()]: the RLP encoding of [node.raw()]. *)
Definition serialize (node : TrieNode) : Buffer := encode (List (raw node)).

(** [node.key()] of a leaf or extension node. *)
Definition key (node : TrieNode) : Nibbles :=
  match node with
  | BranchNode _ _ => []
  | ExtensionNode nibbles _ => nibbles
  | LeafNode nibbles _ => nibbles
  end.

(** [branch.getBranch(i)]: [null] for an unset (empty) slot. *)
Definition getBranch (branches : list Item) (i : nat) : option Item :=
  match nth_error branches i with
  | Some (Bytes []) => None
  | Some (List []) => None
  | Some b => Some b
  | None => None
  end.

(** [decodeRawNode(raw)]. The first item of a two-item node is its
    hex-prefixed key, a byte string in every node that the trie writes.
    The library does not check this: handed a list in that place, it turns
    the list into bytes item by item, by JavaScript's conversion of a
    value to a number, and goes on with the node that these bytes give.
    That conversion is not modelled, and such an input is refused here;
    on a hash that decodes to a list of this shape, [decodeNode], and what
    is built on it, answers otherwise than the library. *)
Definition decodeRawNode (items : list Item) : result TrieNode :=
  if (length items =? 17)%nat then
    Ok (BranchNode (firstn 16 items) (nth 16 items (Bytes [])))
  else
    match items with
    | [Bytes k; value] =>
        let nibbles := bufferToNibbles k in
        if isTerminator nibbles
        then Ok (LeafNode (removeHexPrefix nibbles) value)
        else Ok (ExtensionNode (removeHexPrefix nibbles) value)
    | _ => throw "Invalid node"
    end.

(** [decodeNode(raw)]. *)
Definition decodeNode (bytes : Buffer) : result TrieNode :=
  let! des := decode bytes in
  match des with
  | List items => decodeRawNode items
  | Bytes _ => throw "Invalid node"
  end.

(** A [Trie]: the current root and the key-value store of serialised
    nodes, keyed by hash. *)
Record Trie := mkTrie {
  root : Buffer;
  db : gmap (list Z) (list Z)
}.

(** [trie.EMPTY_TRIE_ROOT], the keccak256 of the RLP of the empty string. *)
Definition EMPTY_TRIE_ROOT : Buffer :=
  Buffer_from_hex "56e81f171bcc55a6ff8345e692c0f86e5b48e01b996cadc001622fb5e363b421".

Definition missingNode : string := "Missing node in DB".

(** [trie.lookupNode(node)]: an embedded raw node is decoded in place, a
    hash is looked up in the store. *)
Definition lookupNode (trie : Trie) (node : Item) : result TrieNode :=
  match node with
  | List items => decodeRawNode items
  | Bytes h =>
      match db trie !! h with
      | Some value => decodeNode value
      | None => throw missingNode
      end
  end.

Fixpoint matchingNibbleLength (nib1 nib2 : Nibbles) : nat :=
  match nib1, nib2 with
  | a :: nib1', b :: nib2' => if a =? b then S (matchingNibbleLength nib1' nib2') else O
  | _, _ => O
  end.

Definition doKeysMatch (keyA keyB : Nibbles) : bool :=
  let len := matchingNibbleLength keyA keyB in
  (len =? length keyA)%nat && (len =? length keyB)%nat.

(** The walk of [findPath]: one call of its [onFound] per node on the way
    down, [fuel] bounding the number of nodes visited. The result is the
    [node] field of the path. *)
Fixpoint findPath_walk (fuel : nat) (trie : Trie) (targetKey : Nibbles)
         (ref : Item) (keyProgress : Nibbles) : result (option TrieNode) :=
  match fuel with
  | O => throw "out of fuel"
  | S fuel' =>
      let! node := lookupNode trie ref in
      let keyRemainder := skipn (matchingNibbleLength keyProgress targetKey) targetKey in
      match node with
      | BranchNode branches _ =>
          match keyRemainder with
          | [] => Ok (Some node)
          | branchIndex :: _ =>
              if (branchIndex <? 0) then Ok None else
              match getBranch branches (Z.to_nat branchIndex) with
              | None => Ok None
              | Some childRef =>
                  findPath_walk fuel' trie targetKey childRef (keyProgress ++ [branchIndex])
              end
          end
      | LeafNode nibbles _ =>
          if doKeysMatch keyRemainder nibbles then Ok (Some node) else Ok None
      | ExtensionNode nibbles value =>
          if (matchingNibbleLength keyRemainder nibbles =? length nibbles)%nat
          then findPath_walk fuel' trie targetKey value (keyProgress ++ nibbles)
          else Ok None
      end
  end.

(** [(await trie.findPath(key)).node], with [throwIfMissing] left false: a
    node missing from the store ends the search with no node. Every node on
    the way down uses up at least one nibble of the key (an extension in a
    trie has a key of one nibble or more), so the fuel given here is never
    used up on a trie that [put] built. *)
Definition findPath (trie : Trie) (key : Buffer) : result (option TrieNode) :=
  let targetKey := bufferToNibbles key in
  match findPath_walk (2 * length targetKey + 2) trie targetKey (Bytes (root trie)) [] with
  | Ok node => Ok node
  | Throw e => if String.eqb (message e) missingNode then Ok None else Throw e
  end.

End EthTrie.

Export EthTrie.

(** A node descriptor of the sync protocol: [{ level, key, hash, node }]. A
    descriptor received from a peer may come without its node. *)
Module Descriptor.
Record t := mk {
  level : Z;
  key : Buffer;
  hash : Buffer;
  node : option TrieNode
}.
End Descriptor.

(** A signed message, as the admission pipeline receives it. *)
Module Message.
Record t := mk {
  href : string;
  title : string;
  type : string;
  timestamp : Z;
  signature : string
}.
End Message.

(** The double quote, for the messages that quote a value. *)
Definition dq : string := String (Ascii.ascii_of_nat 34) EmptyString.

(** * [src/store.mjs] *)
Module Store.

(** [hash(node)]. The argument is [None] for a value that is none of the
    three node classes (the [node: null] of a sentinel descriptor, say). *)
Definition hash (node : option TrieNode) : result Buffer :=
  match node with
  | Some n =>
      let encoded := Rlp.encode (Rlp.List (raw n)) in
      if (length encoded <? 32)%nat then Ok (serialize n)
      else Ok (keccak256 encoded)
  | None => throw "Must be BranchNode, LeafNode or ExtensionNode"
  end.

(** [isEqual(buf1, buf2)]. *)
Definition isEqual (buf1 buf2 : Value) : result bool :=
  if Array_isArray buf1 || Array_isArray buf2 then throw "Can only compare buffers"
  else
    match buf1, buf2 with
    | VBuffer b1, VBuffer b2 => Ok (buffer_eqb b1 b2)
    | _, _ => Ok false
    end.

(** The result of [lookup]: [{ node, type }]. *)
Record LookupResult := mkLookup {
  node : option TrieNode;
  type : string
}.

(** [lookup(trie, hash, key)]. *)
Definition lookup (trie : Trie) (hash : Buffer) (key : Buffer) : result LookupResult :=
  match decodeNode hash with
  | Ok n => Ok (mkLookup (Some n) "missing")
  | Throw _ =>
      match lookupNode trie (Rlp.Bytes hash) with
      | Ok n => Ok (mkLookup (Some n) "match")
      | Throw err =>
          if includes (toString err) "Missing node in DB" then
            let! path := findPath trie key in
            Ok (mkLookup path "mismatch")
          else Throw err
      end
  end.

(** The three lists [compare] returns. *)
Record Comparison := mkComparison {
  missing : list Descriptor.t;
  mismatch : list Descriptor.t;
  match_ : list Descriptor.t
}.

Definition truthy {A} (o : option A) : bool :=
  match o with Some _ => true | None => false end.

(** The loop of [compare] over the remaining [remotes], the three arrays
    built so far in [acc]. *)
Fixpoint compare_loop (localTrie : Trie) (remotes : list Descriptor.t)
         (acc : Comparison) : result Comparison :=
  match remotes with
  | [] => Ok acc
  | remoteNode :: rest =>
      let! isRoot :=
        (if Descriptor.level remoteNode =? 0
         then isEqual (VBuffer (root localTrie)) (VBuffer (Descriptor.hash remoteNode))
         else Ok false) in
      if isRoot then
        (* match.push(remoteNode); break; *)
        Ok (mkComparison (missing acc) (mismatch acc) (match_ acc ++ [remoteNode]))
      else
        let! r := lookup localTrie (Descriptor.hash remoteNode) (Descriptor.key remoteNode) in
        if String.eqb (type r) "match" && truthy (node r) then
          compare_loop localTrie rest
            (mkComparison (missing acc) (mismatch acc) (match_ acc ++ [remoteNode]))
        else if String.eqb (type r) "mismatch" && truthy (node r) then
          compare_loop localTrie rest
            (mkComparison (missing acc) (mismatch acc ++ [remoteNode]) (match_ acc))
        else
          compare_loop localTrie rest
            (mkComparison (missing acc ++ [remoteNode]) (mismatch acc) (match_ acc))
  end.

(** [compare(localTrie, remotes)]. *)
Definition compare (localTrie : Trie) (remotes : list Descriptor.t) : result Comparison :=
  compare_loop localTrie remotes (mkComparison [] [] []).

(** ** [descend] *)

Definition emptyRoot : Buffer :=
  Buffer_from_hex "56e81f171bcc55a6ff8345e692c0f86e5b48e01b996cadc001622fb5e363b421".

(** [exclude.find((markedNode) => isEqual(markedNode, nodeHash))]. *)
Fixpoint find_marked (exclude : list Value) (nodeHash : Buffer) : result (option Value) :=
  match exclude with
  | [] => Ok None
  | markedNode :: rest =>
      let! eq := isEqual markedNode (VBuffer nodeHash) in
      if eq then Ok (Some markedNode) else find_marked rest nodeHash
  end.

Definition isLeafNode (n : TrieNode) : bool :=
  match n with LeafNode _ _ => true | _ => false end.

Definition isBranchNode (n : TrieNode) : bool :=
  match n with BranchNode _ _ => true | _ => false end.

Definition isExtensionNode (n : TrieNode) : bool :=
  match n with ExtensionNode _ _ => true | _ => false end.

(** The callback [onFound] of [descend], for the [level] and [exclude] of
    the call. It works on the array [nodes] and may call
    [walkController.allChildren(node, key, currentLevel)]: the result is the
    array afterwards and, when that call was made, the level it was made with. *)
Definition onFound (level : Z) (exclude : list Value) (nodes : list Descriptor.t)
           (node : TrieNode) (key : Nibbles) (currentLevel : Z)
  : result (list Descriptor.t * option Z) :=
  let! nodeHash := hash (Some node) in
  let! marked := find_marked exclude nodeHash in
  if truthy marked then Ok (nodes, None)
  else if currentLevel =? 0 then
    let key' :=
      if negb (level =? 0) && isLeafNode node
      then concat (map nibblesToBuffer [key; EthTrie.key node])
      else nibblesToBuffer key in
    Ok (nodes ++ [Descriptor.mk level key' nodeHash (Some node)], None)
  else if isBranchNode node || isExtensionNode node then
    Ok (nodes, Some (currentLevel - 1))
  else Ok (nodes, None).

(** Modelled from the spec: [WalkController.mjs] ([newWalk] and the
    [allChildren] of its controller) is not among the sources. Section 4.4:
    the traversal starts at the root with the empty path and the full
    remaining depth, hands every node it reaches to the callback, and
    recurses through Branch and Extension nodes (never past a Leaf) into
    every child, the child's path being the parent's path followed by the
    branch index or the extension's key fragment. The children of a node: *)
Definition children (node : TrieNode) : list (Nibbles * Rlp.Item) :=
  match node with
  | LeafNode _ _ => []
  | ExtensionNode nibbles value => [(nibbles, value)]
  | BranchNode branches _ =>
      flat_map (fun i => match getBranch branches i with
                         | Some b => [([Z.of_nat i], b)]
                         | None => []
                         end) (seq 0 16)
  end.

(** Modelled from the spec: the walk itself, for the nodes that are
    handed to the callback and the paths they are handed with, as section
    4.4 gives them. That a node which cannot be loaded ends the walk with
    the error of [lookupNode] is what the [catch] of [descend] is written
    for. Two things are given neither by section 4.4 nor by the sources,
    and are choices made here: the children of a node are visited one
    after the other in ascending order, and an error thrown by the
    callback ends the walk as an error of [lookupNode] does. The result
    is the array [nodes] as the walk left it and the error, if any;
    [fuel] bounds the depth. *)
Fixpoint walk (fuel : nat) (level : Z) (exclude : list Value) (trie : Trie)
         (ref : Rlp.Item) (key : Nibbles) (currentLevel : Z)
         (nodes : list Descriptor.t) : list Descriptor.t * option Error :=
  match fuel with
  | O => (nodes, Some (mkError "out of fuel"))
  | S fuel' =>
      match lookupNode trie ref with
      | Throw e => (nodes, Some e)
      | Ok node =>
          match onFound level exclude nodes node key currentLevel with
          | Throw e => (nodes, Some e)
          | Ok (nodes', None) => (nodes', None)
          | Ok (nodes', Some childLevel) =>
              (fix each (cs : list (Nibbles * Rlp.Item)) (acc : list Descriptor.t) :=
                 match cs with
                 | [] => (acc, None)
                 | (keyExtension, childRef) :: cs' =>
                     match walk fuel' level exclude trie childRef
                                (key ++ keyExtension) childLevel acc with
                     | (acc', None) => each cs' acc'
                     | failed => failed
                     end
                 end) (children node) nodes'
          end
      end
  end.

(** Modelled from the spec: [newWalk(onFound, trie, root, level)]. *)
Definition newWalk (fuel : nat) (level : Z) (exclude : list Value) (trie : Trie)
           (root : Buffer) : list Descriptor.t * option Error :=
  walk fuel level exclude trie (Rlp.Bytes root) [] level [].

(** [descend(trie, level, exclude)]; [fuel] bounds the depth of the walk. *)
Definition descend (fuel : nat) (trie : Trie) (level : Z) (exclude : list Value)
  : result (list Descriptor.t) :=
  let! isEmpty :=
    (if level =? 0 then isEqual (VBuffer emptyRoot) (VBuffer (root trie)) else Ok false) in
  if isEmpty then Ok [Descriptor.mk 0 [] (root trie) None]
  else
    match newWalk fuel level exclude trie (root trie) with
    | (nodes, None) => Ok nodes
    | (nodes, Some err) =>
        if includes (toString err) "Missing node in DB" then Ok nodes else Throw err
    end.

(** ** The dedup store and [add] *)

(** The dedup store is the LMDB database [constraints] that [metadata()]
    opens. The code reaches it through three calls, [db.get], [db.put] and
    [db.remove]; they are parameters here, as the store is not part of the
    sources. Each of them may throw (lmdb-js refuses a key that is too
    long for it, say), and a call that writes gives the store as it left
    it, whether it returned or threw. *)
Section DedupStore.

Context {Metadb : Type}.

(** [await db.get(key)]: the entry, [None] for [undefined]. *)
Variable db_get : Metadb -> string -> result (option bool).
(** [await db.put(key, value)]. *)
Variable db_put : Metadb -> string -> bool -> result unit * Metadb.

(** [passes(db, key, identity)]: the answer, or the error of the store,
    and the store afterwards. *)
Definition passes (db : Metadb) (key : string) (identity_ : string)
  : result bool * Metadb :=
  match db_get db key with
  | Throw e => (Throw e, db)
  | Ok found =>
      let notFound := match found with None => true | Some _ => false end in
      match db_put db key true with
      | (Throw e, db') => (Throw e, db')
      | (Ok _, db') => (Ok notFound, db')
      end
  end.

End DedupStore.

(** What [add] reads from [process.env], after [parseInt(_, 10)]: [None]
    stands for [NaN] (variable unset or not a number). *)
Record Env := mkEnv {
  MIN_TIMESTAMP_SECS : option Z;
  MAX_TIMESTAMP_DELTA_SECS : option Z
}.

(** What [add] works on: the trie, the dedup store, and what was handed to
    [libp2p.pubsub.publish]. *)
Record State {Metadb : Type} := mkState {
  trie : Trie;
  metadb : Metadb;
  published : list (string * Buffer)
}.
Arguments mkState {Metadb} trie metadb published.

(** [message.timestamp < minTimestampSecs]; a comparison with [NaN] is false. *)
Definition lt_nan (x : Z) (y : option Z) : bool :=
  match y with Some y' => x <? y' | None => false end.

(** [message.timestamp >= nowSecs + toleranceSecs] with
    [nowSecs = Date.now() / 1000], [Date.now()] in milliseconds. The
    comparison is made here on the exact values. JavaScript rounds the
    quotient and then the sum to doubles before it compares, so the code
    can answer otherwise than this definition when the operands are so
    large that this rounding reaches a thousandth of a second. *)
Definition ge_max (timestamp : Z) (nowMs : Z) (toleranceSecs : option Z) : bool :=
  match toleranceSecs with
  | Some tol => Qle_bool ((nowMs # 1000) + inject_Z tol)%Q (inject_Z timestamp)
  | None => false
  end.

Section Admission.

Context {Allowlist Delegations Metadb : Type}.

(** [verify] of [id.mjs]: the address that signed the message. *)
Variable verify : Message.t -> result string.
(** [eligible] of [@attestate/delegator2]: the identity behind an
    address, if any. *)
Variable eligible : Allowlist -> Delegations -> string -> option string.
(** [utils.getAddress] of [ethers]. *)
Variable getAddress : string -> result string.
Variable normalizeUrl : string -> result string.
(** [toDigest] of [id.mjs]: [{ canonical, index }]. *)
Variable toDigest : Message.t -> result (Buffer * string).
(** [await trie.put(key, value)]: whether it returned or threw, and the
    trie as it left it (a write of several nodes may throw half-way). *)
Variable put : Trie -> Buffer -> Buffer -> result unit * Trie.
(** The three calls on the dedup store; [await metadb.remove(key)] tells
    whether it removed an entry. *)
Variable db_get : Metadb -> string -> result (option bool).
Variable db_put : Metadb -> string -> bool -> result unit * Metadb.
Variable db_remove : Metadb -> string -> result bool * Metadb.
Variable JSON_stringify : Message.t -> string.
(** [messages.name], the pubsub topic. *)
Variable messages_name : string.

(** [upvoteID(identity, link, type)]. *)
Definition upvoteID (identity_ link type : string) : result string :=
  let! address := getAddress identity_ in
  let! url := normalizeUrl link in
  Ok (address +:+ "|" +:+ url +:+ "|" +:+ type).

(** [add(trie, message, libp2p, allowlist, delegations, synching, metadb)],
    on the state [st]; [libp2p] tells whether a libp2p instance was
    passed, [nowMs] is what [Date.now()] returns. Logging is left out. *)
Definition add (env : Env) (nowMs : Z) (st : State) (message : Message.t)
           (libp2p : bool) (allowlist : Allowlist) (delegations : Delegations)
           (synching : bool) : result unit * State :=
  match verify message with
  | Throw e => (Throw e, st)
  | Ok address =>
  match eligible allowlist delegations address with
  | None => (throw "You must mint the Kiwi NFT to upvote and submit!", st)
  | Some identity_ =>
  if String.eqb identity_ "" then
    (throw "You must mint the Kiwi NFT to upvote and submit!", st)
  else
  let minTimestampSecs := MIN_TIMESTAMP_SECS env in
  if lt_nan (Message.timestamp message) minTimestampSecs then
    (throw ("Message timestamp is from before the year 2023 and so message is dropped: "
            +:+ dq +:+ pretty (Message.timestamp message) +:+ dq), st)
  else
  let toleranceSecs := MAX_TIMESTAMP_DELTA_SECS env in
  if negb synching && ge_max (Message.timestamp message) nowMs toleranceSecs then
    (throw ("Message timestamp is more than " +:+ dq
            +:+ match toleranceSecs with Some t => pretty t | None => "NaN" end
            +:+ dq +:+ " seconds in the future and so message is dropped: "
            +:+ dq +:+ pretty (Message.timestamp message) +:+ dq), st)
  else
  match upvoteID identity_ (Message.href message) (Message.type message) with
  | Throw e => (Throw e, st)
  | Ok key =>
  match passes db_get db_put (metadb st) key identity_ with
  | (Throw e, metadb1) => (Throw e, mkState (trie st) metadb1 (published st))
  | (Ok legit, metadb1) =>
  let st1 := mkState (trie st) metadb1 (published st) in
  if negb legit then
    (throw ("Message " +:+ dq +:+ JSON_stringify message +:+ dq +:+ " with address "
            +:+ dq +:+ identity_ +:+ dq
            +:+ " doesn't pass legitimacy criteria (duplicate). It was probably submitted and accepted before."),
     st1)
  else
  match toDigest message with
  | Throw e => (Throw e, st1)
  | Ok (canonical, index) =>
  match put (trie st1) (Buffer_from_hex index) canonical with
  | (Throw err, trie') =>
      (* const result = await metadb.remove(key); *)
      match db_remove metadb1 key with
      | (Throw e, metadb2) => (Throw e, mkState trie' metadb2 (published st1))
      | (Ok result, metadb2) =>
          (throw ("trie.put failed with " +:+ dq +:+ toString err +:+ dq +:+
                  (if result then ". Successfully rolled back constraint"
                   else ". Tried to roll back constraint but failed")),
           mkState trie' metadb2 (published st1))
      end
  | (Ok _, trie') =>
      let st2 := mkState trie' metadb1 (published st1) in
      if negb libp2p then (Ok tt, st2)
      else (Ok tt, mkState trie' metadb1 (published st1 ++ [(messages_name, canonical)]))
  end end end end end end.

End Admission.

(** ** [leaves] and the walk under it *)

(** What an async generator does when it is drained: it yields a value
    and goes on, returns, or throws. *)
Inductive Gen (A : Type) : Type :=
| GReturn
| GYield (a : A) (rest : Gen A)
| GThrow (e : Error).
Arguments GReturn {A}.
Arguments GYield {A} a rest.
Arguments GThrow {A} e.

(** [yield* g] followed by [k]. *)
Fixpoint gen_then {A} (g k : Gen A) : Gen A :=
  match g with
  | GReturn => k
  | GYield a rest => GYield a (gen_then rest k)
  | GThrow e => GThrow e
  end.

(** [walkTrieDfs(trie, nodeRef, key)]; [fuel] bounds the depth. *)
Fixpoint walkTrieDfs (fuel : nat) (trie : Trie) (nodeRef : Rlp.Item) (key : Nibbles)
  : Gen (TrieNode * Nibbles) :=
  match fuel with
  | O => GThrow (mkError "out of fuel")
  | S fuel' =>
      if match nodeRef with
         | Rlp.Bytes b => buffer_eqb b EMPTY_TRIE_ROOT
         | Rlp.List _ => false
         end
      then GReturn
      else
        match lookupNode trie nodeRef with
        | Throw e => GThrow e
        | Ok node =>
            match node with
            | LeafNode _ _ => GYield (node, key) GReturn
            | ExtensionNode keyExtension childRef =>
                walkTrieDfs fuel' trie childRef (key ++ keyExtension)
            | BranchNode branches _ =>
                (fix loop (idxs : list nat) : Gen (TrieNode * Nibbles) :=
                   match idxs with
                   | [] => GReturn
                   | i :: is' =>
                       match getBranch branches i with
                       | Some childRef =>
                           gen_then (walkTrieDfs fuel' trie childRef (key ++ [Z.of_nat i]))
                                    (loop is')
                       | None => loop is'
                       end
                   end) (seq 0 16)
            end
        end
  end.

(** [node.value()]. *)
Definition value (node : TrieNode) : Rlp.Item :=
  match node with
  | BranchNode _ v => v
  | ExtensionNode _ v => v
  | LeafNode _ v => v
  end.

(** [x < startDatetime]: [undefined] converts to [NaN], [null] to 0. *)
Definition lt_num (x : Z) (y : Num) : bool :=
  match y with
  | NUndefined => false
  | NNull => x <? 0
  | NInt y' => x <? y'
  end.

Section Leaves.

(** What [decode] of [cbor-x] gives for a stored value. *)
Context {Decoded : Type}.
Variable decode : Rlp.Item -> result Decoded.
Variable normalizeUrl : string -> result string.

(** An element of the array [leaves] returns: the decoded value, or what
    the parser made of it. *)
Inductive LeafItem : Type :=
| Raw (value : Decoded)
| Parsed (parsed : Message.t).

(** The body of the [for await] loop of [leaves], over what is left of
    the generator. *)
Fixpoint leaves_loop (from amount : Num) (parser : option (Decoded -> result Message.t))
         (startDatetime : Num) (href : option string)
         (g : Gen (TrieNode * Nibbles)) (pointer : Z) (nodes : list LeafItem)
  : result (list LeafItem) :=
  match g with
  | GReturn => Ok nodes
  | GThrow e => Throw e
  | GYield (node, _) rest =>
      if Number_isInteger amount &&
         match amount with NInt a => a <=? Z.of_nat (length nodes) | _ => false end
      then Ok nodes
      else
        let pointer := pointer + 1 in
        if Number_isInteger from &&
           match from with NInt f => pointer <=? f | _ => false end
        then leaves_loop from amount parser startDatetime href rest pointer nodes
        else
          let! value := decode (value node) in
          match parser with
          | Some parse =>
              let! parsed := parse value in
              if lt_num (Message.timestamp parsed) startDatetime
              then leaves_loop from amount parser startDatetime href rest pointer nodes
              else
                match href with
                | Some h =>
                    if String.eqb h "" then
                      leaves_loop from amount parser startDatetime href rest pointer
                                  (nodes ++ [Parsed parsed])
                    else
                      let! a := normalizeUrl (Message.href parsed) in
                      let! b := normalizeUrl h in
                      if negb (String.eqb a b)
                      then leaves_loop from amount parser startDatetime href rest pointer nodes
                      else leaves_loop from amount parser startDatetime href rest pointer
                                       (nodes ++ [Parsed parsed])
                | None =>
                    leaves_loop from amount parser startDatetime href rest pointer
                                (nodes ++ [Parsed parsed])
                end
          | None =>
              leaves_loop from amount parser startDatetime href rest pointer
                          (nodes ++ [Raw value])
          end
  end.

(** [leaves(trie, from, amount, parser, startDatetime, href, root)];
    [root] is [None] when the caller leaves it to its default,
    [trie.root()]. *)
Definition leaves (fuel : nat) (trie : Trie) (from amount : Num)
           (parser : option (Decoded -> result Message.t))
           (startDatetime : Num) (href : option string) (root : option Buffer)
  : result (list LeafItem) :=
  let root := match root with Some r => r | None => EthTrie.root trie end in
  leaves_loop from amount parser startDatetime href
              (walkTrieDfs fuel trie (Rlp.Bytes root) []) 0 [].

End Leaves.

(** ** [posts] *)

Section Posts.

Context {Decoded Allowlist Delegations : Type}.
Variable decode : Rlp.Item -> result Decoded.
Variable normalizeUrl : string -> result string.
(** [ecrecover] of [id.mjs], with the message type and the cache flag it
    is called with here. *)
Variable ecrecover : LeafItem (Decoded := Decoded) -> result string.
(** [eligible] of [@attestate/delegator2]. *)
Variable eligible : Allowlist -> Delegations -> string -> option string.
(** [toDigest] of [id.mjs]. *)
Variable toDigest : LeafItem (Decoded := Decoded) -> result (Buffer * string).

(** An element of the array [posts] returns,
    [{ index, ...node, signer, identity }]: the fields of the node, with
    the index before them and the signer and identity after them (a
    parsed message has no field of these names). *)
Record PostEntry := mkPostEntry {
  post_index : string;
  post_node : LeafItem (Decoded := Decoded);
  post_signer : string;
  post_identity : string
}.

(** The callback of [nodes.map]; [None] is its [null]. *)
Definition posts_entry (allowlist : Allowlist) (delegations : Delegations)
           (node : LeafItem (Decoded := Decoded)) : result (option PostEntry) :=
  let! signer := ecrecover node in
  match eligible allowlist delegations signer with
  | None => Ok None
  | Some identity_ =>
      if String.eqb identity_ "" then Ok None
      else
        let! digest := toDigest node in
        Ok (Some (mkPostEntry (snd digest) node signer identity_))
  end.

(** [nodes.map(...)]: the callback on every node in turn. *)
Fixpoint posts_map (allowlist : Allowlist) (delegations : Delegations)
         (nodes : list (LeafItem (Decoded := Decoded))) : result (list (option PostEntry)) :=
  match nodes with
  | [] => Ok []
  | node :: rest =>
      let! entry := posts_entry allowlist delegations node in
      let! entries := posts_map allowlist delegations rest in
      Ok (entry :: entries)
  end.

(** [posts(trie, from, amount, parser, startDatetime, allowlist,
    delegations, href)]; [fuel] bounds the depth of the walk. *)
Definition posts (fuel : nat) (trie : Trie) (from amount : Num)
           (parser : option (Decoded -> result Message.t)) (startDatetime : Num)
           (allowlist : Allowlist) (delegations : Delegations) (href : option string)
  : result (list PostEntry) :=
  let! nodes := leaves decode normalizeUrl fuel trie from amount parser startDatetime
                       href None in
  let! entries := posts_map allowlist delegations nodes in
  Ok (flat_map (fun entry => match entry with Some post => [post] | None => [] end) entries).

End Posts.

End Store.

(** * [count] of the web views *)

(** A leaf as the views hold it: a parsed message, with the index, signer
    and identity that [posts] adds (read by the view of
    [src/unnamed/part_001]) and the address that the editor's picks add
    (read by the view of [src/unnamed/part_000]). [displayName] is set by
    none of the callers in the sources; a field a caller does not set is
    [undefined], here [None] where a view reads it. *)
Module Post.
Record t := mk {
  index : string;
  href : string;
  title : string;
  type : string;
  timestamp : Z;
  signer : string;
  identity : string;
  displayName : option string;
  address : option string
}.
End Post.

(** A story, as [count] of [src/unnamed/part_001] builds it. *)
Module Story.
Record t := mk {
  title : string;
  timestamp : Z;
  href : string;
  identity : string;
  displayName : option string;
  upvotes : Z;
  upvoters : list string;
  index : string
}.
End Story.

(** A story, as [count] of [src/unnamed/part_000] builds it. *)
Module PlainStory.
Record t := mk {
  title : string;
  timestamp : Z;
  href : string;
  address : option string;
  upvotes : Z
}.
End PlainStory.

(** What the two views share: the sort and the object used as a map. *)
Module StoryMap.

(** [leaves.sort((a, b) => a.timestamp - b.timestamp)]: ascending by
    timestamp, and stable (equal timestamps keep their order). *)
Fixpoint insert_sorted (leaf : Post.t) (sorted : list Post.t) : list Post.t :=
  match sorted with
  | [] => [leaf]
  | x :: rest =>
      if Post.timestamp leaf <=? Post.timestamp x then leaf :: x :: rest
      else x :: insert_sorted leaf rest
  end.

Fixpoint sort (leaves : list Post.t) : list Post.t :=
  match leaves with
  | [] => []
  | leaf :: rest => insert_sorted leaf (sort rest)
  end.

(** The object [stories], used as a map from normalised href to story.
    The keys are URLs, so [Object.values] lists the stories in the order
    their keys were first set: an association list in that order. *)
Fixpoint get {S : Type} (stories : list (string * S)) (key : string) : option S :=
  match stories with
  | [] => None
  | (k, story) :: rest => if String.eqb k key then Some story else get rest key
  end.

(** [stories[key] = story], or a write through the reference [story] that
    [stories[key]] holds. *)
Fixpoint set {S : Type} (stories : list (string * S)) (key : string) (story : S)
  : list (string * S) :=
  match stories with
  | [] => [(key, story)]
  | (k, old) :: rest =>
      if String.eqb k key then (k, story) :: rest else (k, old) :: set rest key story
  end.

End StoryMap.

(** [count] of [src/unnamed/part_001]. *)
Module Stories.

Import StoryMap.

Section Count.

Variable normalizeUrl : string -> result string.

(** One round of the loop of [count]. *)
Definition count_step (stories : list (string * Story.t)) (leaf : Post.t)
  : result (list (string * Story.t)) :=
  let! key := normalizeUrl (Post.href leaf) in
  match get stories key with
  | None =>
      Ok (set stories key
              (Story.mk (Post.title leaf) (Post.timestamp leaf) (Post.href leaf)
                        (Post.identity leaf) (Post.displayName leaf) 1
                        [Post.identity leaf] (Post.index leaf)))
  | Some story =>
      if String.eqb (Post.type leaf) "amplify" then
        let title :=
          if String.eqb (Story.title story) "" && negb (String.eqb (Post.title leaf) "")
          then Post.title leaf else Story.title story in
        Ok (set stories key
                (Story.mk title (Story.timestamp story) (Story.href story)
                          (Story.identity story) (Story.displayName story)
                          (Story.upvotes story + 1)
                          (Story.upvoters story ++ [Post.identity leaf])
                          (Story.index story)))
      else Ok stories
  end.

Fixpoint count_loop (stories : list (string * Story.t)) (leaves : list Post.t)
  : result (list (string * Story.t)) :=
  match leaves with
  | [] => Ok stories
  | leaf :: rest =>
      let! stories' := count_step stories leaf in
      count_loop stories' rest
  end.

(** [count(leaves)]. *)
Definition count (leaves : list Post.t) : result (list Story.t) :=
  let! stories := count_loop [] (sort leaves) in
  Ok (map snd stories).

End Count.

(** [stories.sort((a, b) => b.upvotes - a.upvotes)]: descending by upvotes,
    and stable (stories with as many upvotes keep their order). *)
Fixpoint insert_by_upvotes (story : Story.t) (sorted : list Story.t) : list Story.t :=
  match sorted with
  | [] => [story]
  | x :: rest =>
      if Story.upvotes x <=? Story.upvotes story then story :: x :: rest
      else x :: insert_by_upvotes story rest
  end.

Fixpoint sort_by_upvotes (stories : list Story.t) : list Story.t :=
  match stories with
  | [] => []
  | story :: rest => insert_by_upvotes story (sort_by_upvotes rest)
  end.

(** [topstories(leaves, start, end)] of [src/unnamed/part_001]; [start]
    and [end] are not read. *)
Definition topstories (normalizeUrl : string -> result string)
           (leaves : list Post.t) (start end_ : Z) : result (list Story.t) :=
  let! stories := count normalizeUrl leaves in
  Ok (sort_by_upvotes stories).

End Stories.

(** [count] of [src/unnamed/part_000]: the same loop, on stories that keep
    the address of the first record and no list of upvoters. *)
Module PlainStories.

Import StoryMap.

Section Count.

Variable normalizeUrl : string -> result string.

Definition count_step (stories : list (string * PlainStory.t)) (leaf : Post.t)
  : result (list (string * PlainStory.t)) :=
  let! key := normalizeUrl (Post.href leaf) in
  match get stories key with
  | None =>
      Ok (set stories key
              (PlainStory.mk (Post.title leaf) (Post.timestamp leaf) (Post.href leaf)
                             (Post.address leaf) 1))
  | Some story =>
      if String.eqb (Post.type leaf) "amplify" then
        let title :=
          if String.eqb (PlainStory.title story) "" && negb (String.eqb (Post.title leaf) "")
          then Post.title leaf else PlainStory.title story in
        Ok (set stories key
                (PlainStory.mk title (PlainStory.timestamp story) (PlainStory.href story)
                               (PlainStory.address story) (PlainStory.upvotes story + 1)))
      else Ok stories
  end.

Fixpoint count_loop (stories : list (string * PlainStory.t)) (leaves : list Post.t)
  : result (list (string * PlainStory.t)) :=
  match leaves with
  | [] => Ok stories
  | leaf :: rest =>
      let! stories' := count_step stories leaf in
      count_loop stories' rest
  end.

(** [count(leaves)]. *)
Definition count (leaves : list Post.t) : result (list PlainStory.t) :=
  let! stories := count_loop [] (sort leaves) in
  Ok (map snd stories).

End Count.

End PlainStories.

(** * Vocabulary of the properties *)

Import Store.

(** ** The dedup store, call by call *)

Section StoreVocabulary.

Context {Metadb : Type}.
Variable db_get : Metadb -> string -> result (option bool).
Variable db_put : Metadb -> string -> bool -> result unit * Metadb.

(** Calls of [passes] one after the other on the same store: what each
    call gave in order, an answer or an error, and the store at the end.
    Each call is a key and an identity. *)
Fixpoint passes_calls (db : Metadb) (calls : list (string * string))
  : list (result bool) * Metadb :=
  match calls with
  | [] => ([], db)
  | (key, identity_) :: rest =>
      let (outcome, db') := passes db_get db_put db key identity_ in
      let (outcomes, db'') := passes_calls db' rest in
      (outcome :: outcomes, db'')
  end.

(** A store that takes [key]: a read of [key] answers; a write of [key]
    goes through, and [key] is read back after it; and a write of another
    key, whether it returns or throws, leaves the answer for [key] as it
    was. *)
Definition takes (key : string) : Prop :=
  (forall db, exists found, db_get db key = Ok found) /\
  (forall db, exists db',
      db_put db key true = (Ok tt, db') /\ exists v, db_get db' key = Ok (Some v)) /\
  (forall db k outcome db',
      k <> key -> db_put db k true = (outcome, db') -> db_get db' key = db_get db key).

(** [key] is not in the store. *)
Definition absent (db : Metadb) (key : string) : bool :=
  match db_get db key with Ok None => true | _ => false end.

End StoreVocabulary.

(** ** [compare], descriptor by descriptor *)

Section CompareVocabulary.

Variable localTrie : Trie.

(** A level-0 descriptor that carries the hash of the local root: the case
    that ends the loop of [compare]. *)
Definition is_root_match (d : Descriptor.t) : bool :=
  (Descriptor.level d =? 0) && buffer_eqb (root localTrie) (Descriptor.hash d).

(** The three arrays of [compare]. *)
Inductive Class : Type := IsMatch | IsMismatch | IsMissing.

(** The array that [compare] pushes a descriptor on after [lookup]. *)
Definition classify (d : Descriptor.t) : result Class :=
  let! r := lookup localTrie (Descriptor.hash d) (Descriptor.key d) in
  Ok (if String.eqb (type r) "match" && truthy (node r) then IsMatch
      else if String.eqb (type r) "mismatch" && truthy (node r) then IsMismatch
      else IsMissing).

(** [acc] after a push of [d] on the array [c]. *)
Definition file (c : Class) (d : Descriptor.t) (acc : Comparison) : Comparison :=
  match c with
  | IsMatch => mkComparison (missing acc) (mismatch acc) (match_ acc ++ [d])
  | IsMismatch => mkComparison (missing acc) (mismatch acc ++ [d]) (match_ acc)
  | IsMissing => mkComparison (missing acc ++ [d]) (mismatch acc) (match_ acc)
  end.

(** The array [c] of [acc]. *)
Definition filed (c : Class) (acc : Comparison) : list Descriptor.t :=
  match c with
  | IsMatch => match_ acc
  | IsMismatch => mismatch acc
  | IsMissing => missing acc
  end.

(** Where a descriptor goes when the loop gets to it. *)
Definition verdict (d : Descriptor.t) : result Class :=
  if is_root_match d then Ok IsMatch else classify d.

(** Every descriptor on an array has the verdict of that array. *)
Definition sound (acc : Comparison) : Prop :=
  forall (c : Class) (x : Descriptor.t), In x (filed c acc) -> verdict x = Ok c.

(** What the loop gets to: the input up to and including the first
    level-0 descriptor that carries the local root hash, all of it when
    there is none. *)
Fixpoint processed (remotes : list Descriptor.t) : list Descriptor.t :=
  match remotes with
  | [] => []
  | d :: rest => if is_root_match d then [d] else d :: processed rest
  end.

End CompareVocabulary.

(** ** The walks, one node at a time *)

(** The walk of [descend] over the children of a node, given the walk of
    one child. *)
Fixpoint each_child (visit : Rlp.Item -> Nibbles -> list Descriptor.t ->
                             list Descriptor.t * option Error)
         (key : Nibbles) (cs : list (Nibbles * Rlp.Item)) (acc : list Descriptor.t)
  : list Descriptor.t * option Error :=
  match cs with
  | [] => (acc, None)
  | (keyExtension, childRef) :: cs' =>
      match visit childRef (key ++ keyExtension) acc with
      | (acc', None) => each_child visit key cs' acc'
      | failed => failed
      end
  end.

(** The loop of [walkTrieDfs] over the slots of a branch, given the walk
    of one child. *)
Fixpoint each_slot (visit : Rlp.Item -> Nibbles -> Gen (TrieNode * Nibbles))
         (branches : list Rlp.Item) (key : Nibbles) (slots : list nat)
  : Gen (TrieNode * Nibbles) :=
  match slots with
  | [] => GReturn
  | i :: slots' =>
      match getBranch branches i with
      | Some childRef =>
          gen_then (visit childRef (key ++ [Z.of_nat i]))
                   (each_slot visit branches key slots')
      | None => each_slot visit branches key slots'
      end
  end.

(** A generator that ends because the model ran out of fuel. *)
Fixpoint out_of_fuel {A} (g : Gen A) : bool :=
  match g with
  | GReturn => false
  | GYield _ rest => out_of_fuel rest
  | GThrow e => String.eqb (message e) "out of fuel"
  end.

(** A generator that ends by returning. *)
Fixpoint returns {A} (g : Gen A) : bool :=
  match g with
  | GReturn => true
  | GYield _ rest => returns rest
  | GThrow _ => false
  end.

(** A generator without its first [n] values (all of it when it ends or
    throws before). *)
Fixpoint gen_drop {A} (n : nat) (g : Gen A) : Gen A :=
  match n with
  | O => g
  | S n' =>
      match g with
      | GYield _ rest => gen_drop n' rest
      | _ => g
      end
  end.

(** ** Stories, key by key *)

Section StoryVocabulary.

Import StoryMap.

Variable normalizeUrl : string -> result string.

(** The leaves whose href normalises to [h]. *)
Definition has_key (h : string) (leaf : Post.t) : bool :=
  match normalizeUrl (Post.href leaf) with
  | Ok k => String.eqb k h
  | Throw _ => false
  end.

Definition ascending : list Post.t -> Prop :=
  StronglySorted (fun x y => Post.timestamp x <= Post.timestamp y).

(** The loop of [count], whatever a story is made of: the story a first
    record makes, what an upvote does to a story, and the href a story
    keeps. *)
Section LoopVocabulary.

Context {S : Type}.
Variable fresh : Post.t -> S.
Variable bump : S -> Post.t -> S.
Variable href_of : S -> string.

Definition step (stories : list (string * S)) (leaf : Post.t) : result (list (string * S)) :=
  let! key := normalizeUrl (Post.href leaf) in
  match get stories key with
  | None => Ok (set stories key (fresh leaf))
  | Some story =>
      if String.eqb (Post.type leaf) "amplify" then Ok (set stories key (bump story leaf))
      else Ok stories
  end.

Fixpoint run (stories : list (string * S)) (leaves : list Post.t)
  : result (list (string * S)) :=
  match leaves with
  | [] => Ok stories
  | leaf :: rest => let! stories' := step stories leaf in run stories' rest
  end.

Definition story_has_key (h : string) (story : S) : bool :=
  match normalizeUrl (href_of story) with
  | Ok k => String.eqb k h
  | Throw _ => false
  end.

(** Keys are set once, and a story sits under the key of its href. *)
Definition well_keyed (stories : list (string * S)) : Prop :=
  List.NoDup (map fst stories) /\
  Forall (fun entry => normalizeUrl (href_of (snd entry)) = Ok (fst entry)) stories.

(** What a leaf does to the story under its key. *)
Definition apply_leaf (story : option S) (leaf : Post.t) : option S :=
  match story with
  | None => Some (fresh leaf)
  | Some s => if String.eqb (Post.type leaf) "amplify" then Some (bump s leaf) else Some s
  end.

End LoopVocabulary.

End StoryVocabulary.

(** The stories of [src/unnamed/part_001]. *)
Definition story_fresh (leaf : Post.t) : Story.t :=
  Story.mk (Post.title leaf) (Post.timestamp leaf) (Post.href leaf)
           (Post.identity leaf) (Post.displayName leaf) 1
           [Post.identity leaf] (Post.index leaf).

Definition story_bump (story : Story.t) (leaf : Post.t) : Story.t :=
  Story.mk (if String.eqb (Story.title story) "" && negb (String.eqb (Post.title leaf) "")
            then Post.title leaf else Story.title story)
           (Story.timestamp story) (Story.href story)
           (Story.identity story) (Story.displayName story)
           (Story.upvotes story + 1)
           (Story.upvoters story ++ [Post.identity leaf])
           (Story.index story).

(** The stories of [src/unnamed/part_000]. *)
Definition plain_fresh (leaf : Post.t) : PlainStory.t :=
  PlainStory.mk (Post.title leaf) (Post.timestamp leaf) (Post.href leaf)
                (Post.address leaf) 1.

Definition plain_bump (story : PlainStory.t) (leaf : Post.t) : PlainStory.t :=
  PlainStory.mk
    (if String.eqb (PlainStory.title story) "" && negb (String.eqb (Post.title leaf) "")
     then Post.title leaf else PlainStory.title story)
    (PlainStory.timestamp story) (PlainStory.href story)
    (PlainStory.address story) (PlainStory.upvotes story + 1).

(** * Sample data *)

(** A sample dedup store, as lmdb-js is on keys: the entries are a map,
    and a key of more than 1978 bytes, the largest key lmdb-js takes with
    its default settings, is refused by every call. *)
Module LmdbSample.
Definition maxKeySize : nat := 1978.
Definition fits (key : string) : bool := (String.length key <=? maxKeySize)%nat.
Definition refused : Error := mkError "key too long for the store".
Definition get (db : gmap string bool) (key : string) : result (option bool) :=
  if fits key then Ok (db !! key) else Throw refused.
Definition put (db : gmap string bool) (key : string) (value : bool)
  : result unit * gmap string bool :=
  if fits key then (Ok tt, <[key := value]> db) else (Throw refused, db).
Definition remove (db : gmap string bool) (key : string) : result bool * gmap string bool :=
  if fits key then (Ok (truthy (db !! key)), delete key db) else (Throw refused, db).
(** A key of [n] bytes. *)
Fixpoint key_of_size (n : nat) : string :=
  match n with
  | O => ""
  | S n' => "k" +:+ key_of_size n'
  end.
End LmdbSample.

(** Sample parties for [add]: every signature verifies to one address,
    every address is its own identity, the dedup store is the sample
    store, and [put] is a stand-in that keeps the last value as the whole
    trie. *)
Module AddSample.
Definition verify (_ : Message.t) : result string :=
  Ok "0xee324c588ceF1BF1c1360883E4318834af66366d".
Definition eligible (_ _ : unit) (address : string) : option string := Some address.
Definition getAddress (address : string) : result string := Ok address.
Definition normalizeUrl (url : string) : result string := Ok url.
Definition toDigest (m : Message.t) : result (Buffer * string) :=
  Ok ([0x61], "0012").
Definition put (t : Trie) (key value : Buffer) : result unit * Trie :=
  (Ok tt, mkTrie (keccak256 value) (<[keccak256 value := value]> (db t))).
Definition env : Env := mkEnv (Some 1672527600) (Some 60).
Definition old : Message.t :=
  Message.mk "https://x.example" "X" "submit" 1672527599 "0x00".
Definition start : State := mkState (mkTrie EMPTY_TRIE_ROOT ∅) (∅ : gmap string bool) [].
End AddSample.

(** Sample tries, each as [trie.put] leaves it: every node of 32 bytes or
    more is stored under its digest, smaller ones are embedded in their
    parent, and the root is always stored under its digest. *)
Module Samples.


Definition stored (node : TrieNode) : gmap (list Z) (list Z) :=
  {[ keccak256 (serialize node) := serialize node ]}.

(** One key, 0x1234, with the one-byte value "a": the root is a leaf whose
    encoding has six bytes. *)
Definition small_leaf : TrieNode := LeafNode [1; 2; 3; 4] (Rlp.Bytes [97]).
Definition small : Trie := mkTrie (keccak256 (serialize small_leaf)) (stored small_leaf).

(** One key, 0x1234, with a value of forty bytes. *)
Definition large_leaf : TrieNode := LeafNode [1; 2; 3; 4] (Rlp.Bytes (repeat 97 40)).
Definition large : Trie := mkTrie (keccak256 (serialize large_leaf)) (stored large_leaf).

(** Two keys, 0x1234 with value "a" and 0x5234 with value "b": a branch at
    the root, and under its slots 1 and 5 a leaf with the key rest 2, 3, 4. *)
Definition leaf_a : TrieNode := LeafNode [2; 3; 4] (Rlp.Bytes [97]).
Definition leaf_b : TrieNode := LeafNode [2; 3; 4] (Rlp.Bytes [98]).
Definition unset : Rlp.Item := Rlp.Bytes [].
Definition fork : TrieNode :=
  BranchNode
    [ unset; Rlp.List (raw leaf_a); unset; unset;
      unset; Rlp.List (raw leaf_b); unset; unset;
      unset; unset; unset; unset;
      unset; unset; unset; unset ]
    unset.
Definition two : Trie := mkTrie (keccak256 (serialize fork)) (stored fork).

End Samples.

(** A batch for [compare] against [large]: its root descriptor, then a
    descriptor for a node [large] does not have. *)
Definition root_descriptor : Descriptor.t :=
  Descriptor.mk 0 [] (root Samples.large) None.
Definition other_descriptor : Descriptor.t :=
  Descriptor.mk 1 [0x50] (keccak256 [1]) None.


(** A trie for [leaves]: the keys 0x10, 0x20 and 0x30, their values the
    one-byte CBOR encodings of the numbers 1, 10 and 20. *)
Module LeavesSample.

Definition leaf (v : Z) : TrieNode := LeafNode [0] (Rlp.Bytes [v]).
Definition unset : Rlp.Item := Rlp.Bytes [].
Definition fork : TrieNode :=
  BranchNode
    [ unset; Rlp.List (raw (leaf 1)); Rlp.List (raw (leaf 10)); Rlp.List (raw (leaf 20));
      unset; unset; unset; unset;
      unset; unset; unset; unset;
      unset; unset; unset; unset ]
    unset.
Definition three : Trie :=
  mkTrie (keccak256 (serialize fork)) {[ keccak256 (serialize fork) := serialize fork ]}.

(** [decode] of [cbor-x] on the one-byte encodings of the numbers 0 to 23;
    no other encoding is stored in [three]. *)
Definition decode (item : Rlp.Item) : result Z :=
  match item with
  | Rlp.Bytes [b] => if (0 <=? b) && (b <? 24) then Ok b else throw "unsupported encoding"
  | _ => throw "unsupported encoding"
  end.

Definition normalizeUrl (url : string) : result string := Ok url.

(** A parser that takes the stored number for the timestamp. *)
Definition at_time (t : Z) : Message.t := Message.mk "https://x.example" "" "submit" t "".
Definition parser (t : Z) : result Message.t := Ok (at_time t).

End LeavesSample.

(** Two records on one link and one on another, in the order a walk may
    give them: the later upvote first. *)
Module CountSample.
Definition normalizeUrl (url : string) : result string := Ok url.
Definition submit : Post.t :=
  Post.mk "aa01" "https://x.example" "X" "submit" 1700000000 "0xS1" "0xS1" None None.
Definition amplify : Post.t :=
  Post.mk "aa02" "https://x.example" "" "amplify" 1700000010 "0xS2" "0xS2" None None.
Definition elsewhere : Post.t :=
  Post.mk "aa03" "https://y.example" "Y" "submit" 1700000005 "0xS2" "0xS2" None None.
(** A [normalizeUrl] that throws on the empty link, as normalize-url does,
    and a record with that link. *)
Definition strict (url : string) : result string :=
  if String.eqb url "" then throw "Invalid URL" else Ok url.
Definition unlinked : Post.t :=
  Post.mk "aa04" "" "Z" "submit" 1700000020 "0xS3" "0xS3" None None.
End CountSample.

(** * More vocabulary *)

(** A byte, and a nibble, in range. *)
Definition is_byte (b : Z) : Prop := 0 <= b < 256.
Definition is_nibble (n : Z) : Prop := 0 <= n < 16.

(** A node as the trie builds it: sixteen slots in a branch, nibbles in
    range in the key of a leaf or an extension. *)
Definition well_formed (n : TrieNode) : Prop :=
  match n with
  | BranchNode branches _ => length branches = 16%nat
  | ExtensionNode nibbles _ => Forall is_nibble nibbles
  | LeafNode nibbles _ => Forall is_nibble nibbles
  end.

(** A descriptor as the callback of [descend] records it for the [level]
    and the [exclude] array of a call: it carries its node, the hash of
    that node, and the hash is not among the excluded buffers. *)
Definition recorded (level : Z) (exclude : list Value) (d : Descriptor.t) : Prop :=
  Descriptor.level d = level /\
  exists node, Descriptor.node d = Some node /\
               hash (Some node) = Ok (Descriptor.hash d) /\
               ~ In (VBuffer (Descriptor.hash d)) exclude.

(** A string without the separator of [upvoteID]. *)
Fixpoint no_bar (s : string) : bool :=
  match s with
  | EmptyString => true
  | String c s' => negb (Ascii.eqb c (Ascii.ascii_of_nat 124)) && no_bar s'
  end.

(** A message that the sample parties of [AddSample] accept at
    [AddSample.now]. *)
Module AddSample2.
Definition now : Z := 1700000000000.
Definition recent : Message.t :=
  Message.mk "https://x.example" "X" "submit" 1700000000 "0x00".
Definition add :=
  add AddSample.verify AddSample.eligible AddSample.getAddress AddSample.normalizeUrl
      AddSample.toDigest AddSample.put LmdbSample.get LmdbSample.put LmdbSample.remove
      (fun _ => "{}") "messages".
(** A trie that throws on every write, after it has stored the value. *)
Definition broken_put (t : Trie) (key value : Buffer) : result unit * Trie :=
  (throw "disk full", mkTrie (root t) (<[keccak256 value := value]> (db t))).
(** A dedup store that finds nothing to remove. *)
Definition broken_remove (db : gmap string bool) (key : string)
  : result bool * gmap string bool := (Ok false, db).
End AddSample2.

(** ** Generators and pages *)

(** What a generator yields before it ends or throws. *)
Fixpoint yields {A} (g : Gen A) : list A :=
  match g with
  | GYield a rest => a :: yields rest
  | _ => []
  end.

(** The number of leaves that [from] makes [leaves] pass over, and what
    [amount] lets through. *)
Definition skipped (from : Num) : nat :=
  match from with NInt n => Z.to_nat n | _ => O end.

Definition limited {A} (amount : Num) (l : list A) : list A :=
  match amount with NInt k => firstn (Z.to_nat k) l | _ => l end.

(** A parsed message that gets past the two filters of [leaves]: its
    timestamp is not below [startDatetime], and its link normalises to
    what [href] normalises to, when an [href] is given. *)
Definition passes_filters (normalizeUrl : string -> result string)
           (startDatetime : Num) (href : option string) (m : Message.t) : Prop :=
  lt_num (Message.timestamp m) startDatetime = false /\
  match href with
  | Some h =>
      h = "" \/ exists u, normalizeUrl (Message.href m) = Ok u /\ normalizeUrl h = Ok u
  | None => True
  end.

(** ** Stories, record by record *)

Definition is_amplify (leaf : Post.t) : bool := String.eqb (Post.type leaf) "amplify".

(** What a later record of the same link does to a story of
    [src/unnamed/part_001]. *)
Definition upvote (story : Story.t) (leaf : Post.t) : Story.t :=
  if is_amplify leaf then story_bump story leaf else story.

(** What the two views show of a story alike: title, timestamp, href and
    upvotes. *)
Definition headline (story : Story.t) : string * Z * string * Z :=
  (Story.title story, Story.timestamp story, Story.href story, Story.upvotes story).

Definition plain_headline (story : PlainStory.t) : string * Z * string * Z :=
  (PlainStory.title story, PlainStory.timestamp story, PlainStory.href story,
   PlainStory.upvotes story).

(** ** Posts *)

(** The identity behind the signer of a leaf, if it has one. *)
Definition identity_of {Decoded Allowlist Delegations : Type}
           (ecrecover : LeafItem (Decoded := Decoded) -> result string)
           (eligible : Allowlist -> Delegations -> string -> option string)
           (allowlist : Allowlist) (delegations : Delegations)
           (node : LeafItem (Decoded := Decoded)) : option string :=
  match ecrecover node with
  | Ok signer =>
      match eligible allowlist delegations signer with
      | Some identity_ => if String.eqb identity_ "" then None else Some identity_
      | None => None
      end
  | Throw _ => None
  end.

(** Sample parties for [posts] on the trie of [LeavesSample]: the leaf of
    10 is signed by an address without an identity, the others by one that
    is its own identity. *)
Module PostsSample.
Definition ecrecover (node : LeafItem (Decoded := Z)) : result string :=
  match node with
  | Raw v => if v =? 10 then Ok "0xB" else Ok "0xA"
  | Parsed _ => Ok "0xA"
  end.
Definition eligible (_ _ : unit) (signer : string) : option string :=
  if String.eqb signer "0xA" then Some signer else None.
Definition toDigest (node : LeafItem (Decoded := Z)) : result (Buffer * string) :=
  match node with
  | Raw v => Ok ([v], pretty v)
  | Parsed m => Ok ([Message.timestamp m], pretty (Message.timestamp m))
  end.
End PostsSample.

(** * Properties *)

(** ** The libraries, on known values *)

Example keccak256_empty :
  keccak256 [] =
  Buffer_from_hex "c5d2460186f7233c927e7db2dcc703c0e500b653ca82273b7bfad8045d85a470".
Proof. vm_compute. reflexivity. Qed.

Example keccak256_fox :
  keccak256 [84; 104; 101; 32; 113; 117; 105; 99; 107; 32; 98; 114; 111; 119; 110; 32;
             102; 111; 120; 32; 106; 117; 109; 112; 115; 32; 111; 118; 101; 114; 32;
             116; 104; 101; 32; 108; 97; 122; 121; 32; 100; 111; 103] =
  Buffer_from_hex "4d741b6f1eb29cb2a9b9911c82f56fa8d73b04959d3d9d222895df6c0b28aa15".
Proof. vm_compute. reflexivity. Qed.

Example keccak256_rlp_empty_string :
  keccak256 [0x80] =
  Buffer_from_hex "56e81f171bcc55a6ff8345e692c0f86e5b48e01b996cadc001622fb5e363b421".
Proof. vm_compute. reflexivity. Qed.

Example rlp_encode_dog :
  Rlp.encode (Rlp.Bytes [100; 111; 103]) = [0x83; 100; 111; 103].
Proof. reflexivity. Qed.

Example rlp_encode_cat_dog :
  Rlp.encode (Rlp.List [Rlp.Bytes [99; 97; 116]; Rlp.Bytes [100; 111; 103]])
  = [0xc8; 0x83; 99; 97; 116; 0x83; 100; 111; 103].
Proof. reflexivity. Qed.

Example rlp_encode_long :
  firstn 3 (Rlp.encode (Rlp.Bytes (repeat 7 300))) = [0xb9; 1; 44].
Proof. reflexivity. Qed.

Example rlp_decode_nested :
  Rlp.decode (Rlp.encode (Rlp.List [Rlp.List []; Rlp.Bytes (repeat 7 60); Rlp.Bytes [5]]))
  = Ok (Rlp.List [Rlp.List []; Rlp.Bytes (repeat 7 60); Rlp.Bytes [5]]).
Proof. vm_compute. reflexivity. Qed.

Example two_finds_a : findPath Samples.two [0x12; 0x34] = Ok (Some Samples.leaf_a).
Proof. vm_compute. reflexivity. Qed.

Example two_finds_b : findPath Samples.two [0x52; 0x34] = Ok (Some Samples.leaf_b).
Proof. vm_compute. reflexivity. Qed.

Example large_root_is_hash : hash (Some Samples.large_leaf) = Ok (root Samples.large).
Proof. vm_compute. reflexivity. Qed.

(** ** Buffers and digests *)

Lemma buffer_eqb_spec (a b : Buffer) : buffer_eqb a b = true <-> a = b.
Proof.
  revert b; induction a as [|x a IH]; intros [|y b]; simpl; try (split; congruence).
  rewrite andb_true_iff, Z.eqb_eq, IH. split.
  - intros [-> ->]; reflexivity.
  - intros [= -> ->]; split; reflexivity.
Qed.

Lemma buffer_eqb_refl (a : Buffer) : buffer_eqb a a = true.
Proof. apply buffer_eqb_spec; reflexivity. Qed.

Lemma buffer_eqb_false (a b : Buffer) : buffer_eqb a b = false <-> a <> b.
Proof.
  rewrite <- buffer_eqb_spec. destruct (buffer_eqb a b); split; congruence.
Qed.

Lemma lane_to_bytes_length (l : Z) : length (Keccak.lane_to_bytes l) = 8%nat.
Proof. reflexivity. Qed.

(** A keccak256 digest has 32 bytes, whatever the input. *)
Lemma keccak256_length (m : Buffer) : length (keccak256 m) = 32%nat.
Proof.
  unfold keccak256, Keccak.keccak256.
  rewrite !length_app, !lane_to_bytes_length. reflexivity.
Qed.

Lemma emptyRoot_is_EMPTY_TRIE_ROOT : emptyRoot = EMPTY_TRIE_ROOT.
Proof. reflexivity. Qed.

Lemma EMPTY_TRIE_ROOT_digest : EMPTY_TRIE_ROOT = keccak256 (Rlp.encode (Rlp.Bytes [])).
Proof. vm_compute. reflexivity. Qed.

(** ** [isEqual] *)

(** C9. [isEqual] throws as soon as one argument is an array; on two buffers
    it answers [true] exactly when they hold the same bytes; and whenever it
    answers [true], both arguments are buffers (with the same bytes). *)
Theorem isEqual_buffers_only (buf1 buf2 : Value) :
  (Array_isArray buf1 = true \/ Array_isArray buf2 = true ->
   isEqual buf1 buf2 = Throw (mkError "Can only compare buffers")) /\
  (forall b1 b2 : Buffer,
      buf1 = VBuffer b1 -> buf2 = VBuffer b2 ->
      exists r, isEqual buf1 buf2 = Ok r /\ (r = true <-> b1 = b2)) /\
  (isEqual buf1 buf2 = Ok true ->
   exists b1 b2 : Buffer, buf1 = VBuffer b1 /\ buf2 = VBuffer b2 /\ b1 = b2).
Proof.
  split; [|split].
  - intros [H|H]; unfold isEqual; rewrite H; simpl; [reflexivity|].
    rewrite orb_true_r. reflexivity.
  - intros b1 b2 -> ->. exists (buffer_eqb b1 b2). split; [reflexivity|].
    apply buffer_eqb_spec.
  - unfold isEqual.
    destruct buf1, buf2; simpl; try discriminate.
    intros [= H]. apply buffer_eqb_spec in H. eauto.
Qed.

Lemma isEqual_buffers_only_witness :
  isEqual (VArray [VBuffer [1]]) (VBuffer [1]) = Throw (mkError "Can only compare buffers").
Proof.
  apply (proj1 (isEqual_buffers_only (VArray [VBuffer [1]]) (VBuffer [1]))).
  left. reflexivity.
Defined.

Lemma isEqual_VBuffer (b1 b2 : Buffer) :
  isEqual (VBuffer b1) (VBuffer b2) = Ok (buffer_eqb b1 b2).
Proof. reflexivity. Qed.

(** ** [hash] *)

(** C4. For every Branch, Extension or Leaf node: when the RLP encoding of
    its raw fields has 32 bytes or more, [hash] is the keccak256 digest of
    that encoding, 32 bytes long; when it has fewer, [hash] is the encoding. *)
Theorem hash_digest_or_inline (node : TrieNode) :
  let encoded := Rlp.encode (Rlp.List (raw node)) in
  ((32 <= length encoded)%nat ->
   hash (Some node) = Ok (keccak256 encoded) /\ length (keccak256 encoded) = 32%nat) /\
  ((length encoded < 32)%nat -> hash (Some node) = Ok encoded).
Proof.
  intros encoded. unfold hash. fold encoded. split; intros H.
  - destruct (Nat.ltb_spec (length encoded) 32) as [Hlt|_]; [lia|].
    split; [reflexivity | apply keccak256_length].
  - destruct (Nat.ltb_spec (length encoded) 32) as [_|Hge]; [reflexivity | lia].
Qed.

Lemma hash_digest_or_inline_witness :
  hash (Some (LeafNode [1; 2; 3; 4] (Rlp.Bytes [97]))) = Ok [197; 131; 32; 18; 52; 97] /\
  length (keccak256 (serialize (LeafNode [1; 2; 3; 4] (Rlp.Bytes (repeat 97 40))))) = 32%nat.
Proof.
  split.
  - apply (proj2 (hash_digest_or_inline (LeafNode [1; 2; 3; 4] (Rlp.Bytes [97])))).
    vm_compute. lia.
  - apply (proj1 (hash_digest_or_inline (LeafNode [1; 2; 3; 4] (Rlp.Bytes (repeat 97 40))))).
    vm_compute. lia.
Defined.

(** ** [passes] *)

Section PassesProperties.

Context {Metadb : Type}.
Variable db_get : Metadb -> string -> result (option bool).
Variable db_put : Metadb -> string -> bool -> result unit * Metadb.
Variable key : string.

(** A call for a key that the store takes answers whether the key was
    absent, and the key is there afterwards. *)
Lemma passes_on_key (db : Metadb) (identity_ : string) :
  takes db_get db_put key ->
  exists db',
    passes db_get db_put db key identity_ = (Ok (absent db_get db key), db') /\
    absent db_get db' key = false.
Proof.
  intros (Hget & Hput & _). unfold passes, absent.
  destruct (Hget db) as [found ->]. destruct (Hput db) as (db' & -> & v & Hv).
  exists db'. rewrite Hv. split; [destruct found; reflexivity | reflexivity].
Qed.

(** A call for another key changes nothing for this one. *)
Lemma passes_on_other (db : Metadb) (k identity_ : string) :
  takes db_get db_put key -> k <> key ->
  absent db_get (snd (passes db_get db_put db k identity_)) key = absent db_get db key.
Proof.
  intros (_ & _ & Hother) Hne. unfold passes, absent.
  destruct (db_get db k) as [found|e]; [|reflexivity].
  destruct (db_put db k true) as [outcome db'] eqn:Hput.
  rewrite <- (Hother db k outcome db' Hne Hput).
  destruct outcome; reflexivity.
Qed.

(** What the [i]-th call gives when it is for a key the store takes:
    [true] exactly when the key was neither in the store at the start nor
    the key of an earlier call. *)
Lemma passes_calls_answer (calls : list (string * string)) :
  takes db_get db_put key ->
  forall (db : Metadb) (i : nat) (identity_ : string),
    calls !! i = Some (key, identity_) ->
    fst (passes_calls db_get db_put db calls) !! i
    = Some (Ok (absent db_get db key && bool_decide (key ∉ (take i calls).*1))).
Proof.
  intros Htakes.
  induction calls as [|[k0 id0] calls IH]; intros db i identity_ Hi; [discriminate|].
  cbn [passes_calls].
  destruct (passes db_get db_put db k0 id0) as [outcome db'] eqn:Hcall.
  destruct (passes_calls db_get db_put db' calls) as [outcomes db''] eqn:E.
  destruct i as [|i]; simpl in Hi |- *.
  - injection Hi as -> ->.
    destruct (passes_on_key db identity_ Htakes) as (db1 & H1 & _).
    rewrite H1 in Hcall. injection Hcall as <- <-.
    rewrite andb_true_r. reflexivity.
  - specialize (IH db' i identity_ Hi). rewrite E in IH. simpl in IH.
    rewrite IH. f_equal. f_equal.
    destruct (decide (k0 = key)) as [->|Hne].
    + destruct (passes_on_key db id0 Htakes) as (db1 & H1 & Habsent).
      rewrite H1 in Hcall. injection Hcall as _ <-. rewrite Habsent.
      cbn [andb]. symmetry. apply andb_false_iff. right.
      apply bool_decide_eq_false_2. intros H. apply H. left.
    + pose proof (passes_on_other db k0 id0 Htakes Hne) as Hsame.
      rewrite Hcall in Hsame. cbn [snd] in Hsame. rewrite Hsame. f_equal.
      apply bool_decide_ext. rewrite not_elem_of_cons. intuition congruence.
Qed.

(** Every call for a key that the store does not read throws. *)
Lemma passes_calls_refused (calls : list (string * string)) :
  (forall db, exists e, db_get db key = Throw e) ->
  forall (db : Metadb) (i : nat) (identity_ : string),
    calls !! i = Some (key, identity_) ->
    exists e, fst (passes_calls db_get db_put db calls) !! i = Some (Throw e).
Proof.
  intros Hrefused.
  induction calls as [|[k0 id0] calls IH]; intros db i identity_ Hi; [discriminate|].
  cbn [passes_calls].
  destruct (passes db_get db_put db k0 id0) as [outcome db'] eqn:Hcall.
  destruct (passes_calls db_get db_put db' calls) as [outcomes db''] eqn:E.
  destruct i as [|i]; simpl in Hi |- *.
  - injection Hi as -> ->. unfold passes in Hcall.
    destruct (Hrefused db) as [e He]. rewrite He in Hcall. injection Hcall as <- _. eauto.
  - specialize (IH db' i identity_ Hi). rewrite E in IH. simpl in IH. exact IH.
Qed.

End PassesProperties.

(** C3, as the code has it. Calls of [passes] made one after the other on
    a dedup store. For a key that the store takes and does not hold at the
    start, the first call for the key answers [true] and every later call
    for it answers [false], whatever calls for other keys come between.
    For a key that the store refuses to read, every call for the key
    throws. *)
Theorem passes_true_once {Metadb : Type}
        (db_get : Metadb -> string -> result (option bool))
        (db_put : Metadb -> string -> bool -> result unit * Metadb)
        (db : Metadb) (calls : list (string * string)) (key : string) :
  (takes db_get db_put key -> db_get db key = Ok None ->
   forall (i : nat) (identity_ : string),
     calls !! i = Some (key, identity_) ->
     fst (passes_calls db_get db_put db calls) !! i
     = Some (Ok (bool_decide (key ∉ (take i calls).*1)))) /\
  ((forall db', exists e, db_get db' key = Throw e) ->
   forall (i : nat) (identity_ : string),
     calls !! i = Some (key, identity_) ->
     exists e, fst (passes_calls db_get db_put db calls) !! i = Some (Throw e)).
Proof.
  split.
  - intros Htakes Hdb i identity_ Hi.
    rewrite (passes_calls_answer db_get db_put key calls Htakes db i identity_ Hi).
    unfold absent. rewrite Hdb. reflexivity.
  - intros Hrefused i identity_ Hi.
    exact (passes_calls_refused db_get db_put key calls Hrefused db i identity_ Hi).
Qed.

(** The sample store takes every key of at most 1978 bytes. *)
Lemma LmdbSample_takes (key : string) :
  LmdbSample.fits key = true -> takes LmdbSample.get LmdbSample.put key.
Proof.
  intros Hfits. unfold takes, LmdbSample.get, LmdbSample.put. rewrite Hfits.
  split; [eauto|]. split.
  - intros db. eexists. split; [reflexivity|]. rewrite lookup_insert_eq. eauto.
  - intros db k outcome db' Hne H.
    destruct (LmdbSample.fits k); injection H as <- <-; [|reflexivity].
    rewrite lookup_insert_ne by exact Hne. reflexivity.
Qed.

Lemma passes_true_once_witness :
  fst (passes_calls LmdbSample.get LmdbSample.put ∅ [("k", "a"); ("j", "a"); ("k", "b")])
  !! 2%nat
  = Some (Ok (bool_decide ("k" ∉ (take 2 [("k", "a"); ("j", "a"); ("k", "b")]).*1))).
Proof.
  apply (proj1 (passes_true_once LmdbSample.get LmdbSample.put ∅
                  [("k", "a"); ("j", "a"); ("k", "b")] "k")) with (identity_ := "b").
  - apply LmdbSample_takes. reflexivity.
  - vm_compute. reflexivity.
  - reflexivity.
Defined.

Example passes_answers :
  fst (passes_calls LmdbSample.get LmdbSample.put ∅
         [("k", "a"); ("j", "a"); ("k", "b"); ("j", "b"); ("k", "a")])
  = [Ok true; Ok true; Ok false; Ok false; Ok false].
Proof. vm_compute. reflexivity. Qed.

(** C3 as stated fails for a key that the store does not take. The sample
    store, like LMDB, refuses a key of 2000 bytes: the key is absent, and
    the first call for it throws, as does the second; no call answers
    [true] or [false], and the store stays empty. *)
Lemma passes_refused_key :
  let key := LmdbSample.key_of_size 2000 in
  (∅ : gmap string bool) !! key = None /\
  passes_calls LmdbSample.get LmdbSample.put ∅ [(key, "a"); (key, "b")]
  = ([Throw LmdbSample.refused; Throw LmdbSample.refused], ∅).
Proof.
  intros key. split; [apply lookup_empty|]. vm_compute. reflexivity.
Qed.

(** ** [add]: the timestamp bounds *)

Section AddProperties.

Context {Allowlist Delegations Metadb : Type}.
Variable verify : Message.t -> result string.
Variable eligible : Allowlist -> Delegations -> string -> option string.
Variable getAddress : string -> result string.
Variable normalizeUrl : string -> result string.
Variable toDigest : Message.t -> result (Buffer * string).
Variable put : Trie -> Buffer -> Buffer -> result unit * Trie.
Variable db_get : Metadb -> string -> result (option bool).
Variable db_put : Metadb -> string -> bool -> result unit * Metadb.
Variable db_remove : Metadb -> string -> result bool * Metadb.
Variable JSON_stringify : Message.t -> string.
Variable messages_name : string.

Let add' := add verify eligible getAddress normalizeUrl toDigest put
                db_get db_put db_remove JSON_stringify messages_name.

(** A message older than the floor gets past no caller that is eligible:
    the error names the timestamp. *)
Lemma add_too_old_error (env : Env) (nowMs : Z) (st : State) (message : Message.t)
      (libp2p synching : bool) (allowlist : Allowlist) (delegations : Delegations)
      (address identity_ : string) (minTimestampSecs : Z) :
  verify message = Ok address ->
  eligible allowlist delegations address = Some identity_ ->
  identity_ <> "" ->
  MIN_TIMESTAMP_SECS env = Some minTimestampSecs ->
  Message.timestamp message < minTimestampSecs ->
  add' env nowMs st message libp2p allowlist delegations synching
  = (Throw (mkError
              ("Message timestamp is from before the year 2023 and so message is dropped: "
               +:+ dq +:+ pretty (Message.timestamp message) +:+ dq)), st).
Proof.
  intros Hv He Hid Hmin Hlt. unfold add', add. rewrite Hv, He.
  destruct (String.eqb_spec identity_ "") as [|_]; [contradiction|].
  rewrite Hmin. simpl. destruct (Z.ltb_spec (Message.timestamp message) minTimestampSecs);
    [reflexivity | lia].
Qed.

(** C2. [add] throws for every message whose timestamp is below
    [minTimestampSecs] and, when [synching] is not set, for every message
    whose timestamp is at or above [now + toleranceSecs]; it throws before
    the dedup store or the trie is written: the state after the call, and
    so the trie and its root, is the state before it. *)
Theorem add_rejects_timestamp (env : Env) (nowMs : Z) (st : State) (message : Message.t)
        (libp2p synching : bool) (allowlist : Allowlist) (delegations : Delegations) :
  (exists minTimestampSecs,
      MIN_TIMESTAMP_SECS env = Some minTimestampSecs /\
      Message.timestamp message < minTimestampSecs) \/
  (synching = false /\
   exists toleranceSecs,
     MAX_TIMESTAMP_DELTA_SECS env = Some toleranceSecs /\
     ((nowMs # 1000) + inject_Z toleranceSecs <= inject_Z (Message.timestamp message))%Q) ->
  exists e, add' env nowMs st message libp2p allowlist delegations synching = (Throw e, st).
Proof.
  intros H. unfold add', add.
  destruct (verify message) as [address|e]; [|eauto].
  destruct (eligible allowlist delegations address) as [identity_|]; [|eexists; reflexivity].
  destruct (String.eqb identity_ ""); [eexists; reflexivity|].
  destruct (lt_nan (Message.timestamp message) (MIN_TIMESTAMP_SECS env)) eqn:Hmin;
    [eexists; reflexivity|].
  destruct H as [(m & Hm & Hlt) | (-> & tol & Htol & Hle)].
  - rewrite Hm in Hmin. simpl in Hmin. apply Z.ltb_ge in Hmin. lia.
  - rewrite Htol. simpl.
    apply Qle_bool_iff in Hle. rewrite Hle. eexists; reflexivity.
Qed.

End AddProperties.

Lemma add_rejects_timestamp_witness :
  exists e,
    add AddSample.verify AddSample.eligible AddSample.getAddress AddSample.normalizeUrl
        AddSample.toDigest AddSample.put LmdbSample.get LmdbSample.put LmdbSample.remove
        (fun _ => "{}") "messages"
        AddSample.env 1700000000000 AddSample.start AddSample.old true tt tt false
    = (Throw e, AddSample.start).
Proof.
  apply add_rejects_timestamp.
  left. exists 1672527600. split; [reflexivity | simpl; lia].
Defined.

(** ** [compare] *)

Section CompareProperties.

Variable localTrie : Trie.

Lemma compare_loop_cons (d : Descriptor.t) (rest : list Descriptor.t) (acc : Comparison) :
  compare_loop localTrie (d :: rest) acc
  = if is_root_match localTrie d then Ok (file IsMatch d acc)
    else let! c := classify localTrie d in compare_loop localTrie rest (file c d acc).
Proof.
  simpl. unfold is_root_match, classify.
  destruct (Descriptor.level d =? 0); simpl.
  - destruct (buffer_eqb (root localTrie) (Descriptor.hash d)); [reflexivity|].
    destruct (lookup localTrie (Descriptor.hash d) (Descriptor.key d)) as [r|e];
      [|reflexivity]; simpl.
    destruct (String.eqb (type r) "match" && truthy (node r)); [reflexivity|].
    destruct (String.eqb (type r) "mismatch" && truthy (node r)); reflexivity.
  - destruct (lookup localTrie (Descriptor.hash d) (Descriptor.key d)) as [r|e];
      [|reflexivity]; simpl.
    destruct (String.eqb (type r) "match" && truthy (node r)); [reflexivity|].
    destruct (String.eqb (type r) "mismatch" && truthy (node r)); reflexivity.
Qed.

Lemma filed_file (c c' : Class) (d x : Descriptor.t) (acc : Comparison) :
  In x (filed c (file c' d acc)) <-> In x (filed c acc) \/ (c = c' /\ x = d).
Proof.
  destruct c, c'; simpl; rewrite ?in_app_iff; simpl; intuition congruence.
Qed.

Lemma sound_file (c : Class) (d : Descriptor.t) (acc : Comparison) :
  sound localTrie acc -> verdict localTrie d = Ok c -> sound localTrie (file c d acc).
Proof.
  intros Hs Hv c' x Hin. apply filed_file in Hin as [Hin | [-> ->]]; auto.
Qed.

Lemma compare_loop_sound (remotes : list Descriptor.t) :
  forall acc c,
    sound localTrie acc -> compare_loop localTrie remotes acc = Ok c -> sound localTrie c.
Proof.
  induction remotes as [|d rest IH]; intros acc c Hs H.
  - simpl in H. injection H as <-. exact Hs.
  - rewrite compare_loop_cons in H.
    destruct (is_root_match localTrie d) eqn:Hr.
    + replace c with (file IsMatch d acc) by congruence. apply sound_file; [exact Hs|].
      unfold verdict. rewrite Hr. reflexivity.
    + destruct (classify localTrie d) as [cl|e] eqn:Hc; [|discriminate]. simpl in H.
      apply (IH _ _ (sound_file cl d acc Hs ltac:(unfold verdict; rewrite Hr; exact Hc)) H).
Qed.

(** The loop only ever pushes. *)
Lemma compare_loop_keeps (remotes : list Descriptor.t) :
  forall acc c cl x,
    compare_loop localTrie remotes acc = Ok c -> In x (filed cl acc) -> In x (filed cl c).
Proof.
  induction remotes as [|d rest IH]; intros acc c cl x H Hin.
  - simpl in H. injection H as <-. exact Hin.
  - rewrite compare_loop_cons in H.
    destruct (is_root_match localTrie d).
    + replace c with (file IsMatch d acc) by congruence. apply filed_file. left; exact Hin.
    + destruct (classify localTrie d) as [cl'|e]; [|discriminate]. simpl in H.
      apply (IH _ _ cl x H). apply filed_file. left; exact Hin.
Qed.

(** What the loop pushes comes from its input. *)
Lemma compare_loop_from_input (remotes : list Descriptor.t) :
  forall acc c cl x,
    compare_loop localTrie remotes acc = Ok c ->
    In x (filed cl c) -> In x (filed cl acc) \/ In x remotes.
Proof.
  induction remotes as [|d rest IH]; intros acc c cl x H Hin.
  - simpl in H. injection H as <-. left; exact Hin.
  - rewrite compare_loop_cons in H.
    destruct (is_root_match localTrie d).
    + replace c with (file IsMatch d acc) in Hin by congruence.
      apply filed_file in Hin as [Hin | [_ ->]]; [left|right; left]; auto.
    + destruct (classify localTrie d) as [cl'|e]; [|discriminate]. simpl in H.
      destruct (IH _ _ cl x H Hin) as [Hin' | Hin']; [|right; right; exact Hin'].
      apply filed_file in Hin' as [Hin' | [_ ->]]; [left|right; left]; auto.
Qed.

(** A descriptor the loop gets to is pushed on the array of its verdict. *)
Lemma compare_loop_reaches (pre : list Descriptor.t) :
  forall acc c d post,
    compare_loop localTrie (pre ++ d :: post) acc = Ok c ->
    (forall d', In d' pre -> is_root_match localTrie d' = false) ->
    exists cl, verdict localTrie d = Ok cl /\ In d (filed cl c).
Proof.
  induction pre as [|p pre IH]; intros acc c d post H Hpre.
  - simpl app in H. rewrite compare_loop_cons in H. unfold verdict.
    destruct (is_root_match localTrie d).
    + replace c with (file IsMatch d acc) by congruence.
      exists IsMatch. split; [reflexivity|].
      apply filed_file. right; auto.
    + destruct (classify localTrie d) as [cl|e]; [|discriminate]. simpl in H.
      exists cl. split; [reflexivity|].
      apply (compare_loop_keeps _ _ _ cl d H). apply filed_file. right; auto.
  - simpl app in H. rewrite compare_loop_cons in H.
    rewrite (Hpre p (or_introl eq_refl)) in H.
    destruct (classify localTrie p) as [cl|e]; [|discriminate]. simpl in H.
    apply (IH _ _ _ _ H). intros d' Hd'. apply Hpre. right; exact Hd'.
Qed.

Lemma sound_empty : sound localTrie (mkComparison [] [] []).
Proof. intros [] x []. Qed.

Lemma is_root_match_false (d : Descriptor.t) :
  ~ (Descriptor.level d = 0 /\ Descriptor.hash d = root localTrie) ->
  is_root_match localTrie d = false.
Proof.
  intros H. unfold is_root_match.
  destruct (Z.eqb_spec (Descriptor.level d) 0) as [Hl|]; [|reflexivity]. simpl.
  apply buffer_eqb_false. intros Heq. apply H. split; [exact Hl | symmetry; exact Heq].
Qed.

End CompareProperties.

(** The loop does not look past the first root match. *)
Lemma compare_loop_processed (localTrie : Trie) (remotes : list Descriptor.t) :
  forall acc,
    compare_loop localTrie (processed localTrie remotes) acc
    = compare_loop localTrie remotes acc.
Proof.
  induction remotes as [|d rest IH]; intros acc; [reflexivity|].
  cbn [processed]. destruct (is_root_match localTrie d) eqn:Hr.
  - rewrite !compare_loop_cons, Hr. reflexivity.
  - rewrite !compare_loop_cons, Hr.
    destruct (classify localTrie d) as [cl|]; [|reflexivity]. cbn [Js.bind]. apply IH.
Qed.

Lemma file_Permutation (cl : Class) (d : Descriptor.t) (acc : Comparison) :
  Permutation (match_ (file cl d acc) ++ mismatch (file cl d acc) ++ missing (file cl d acc))
              (d :: match_ acc ++ mismatch acc ++ missing acc).
Proof.
  destruct cl; cbn [file match_ mismatch missing].
  - rewrite <- app_assoc. cbn [app]. symmetry. apply Permutation_middle.
  - rewrite <- app_assoc. cbn [app]. rewrite (app_assoc (match_ acc)).
    symmetry. rewrite (app_assoc (match_ acc)). apply Permutation_middle.
  - rewrite !app_assoc. symmetry. apply Permutation_cons_append.
Qed.

(** What the loop pushes is what it gets to, each occurrence once. *)
Lemma compare_loop_Permutation (localTrie : Trie) (remotes : list Descriptor.t) :
  forall acc c,
    compare_loop localTrie remotes acc = Ok c ->
    Permutation (match_ c ++ mismatch c ++ missing c)
                ((match_ acc ++ mismatch acc ++ missing acc) ++ processed localTrie remotes).
Proof.
  induction remotes as [|d rest IH]; intros acc c H.
  - cbn in H. injection H as <-. cbn [processed]. rewrite app_nil_r. reflexivity.
  - rewrite compare_loop_cons in H. cbn [processed].
    destruct (is_root_match localTrie d).
    + replace c with (file IsMatch d acc) by congruence.
      rewrite file_Permutation. apply Permutation_cons_append.
    + destruct (classify localTrie d) as [cl|]; [|discriminate]. cbn [Js.bind] in H.
      rewrite (IH _ _ H), file_Permutation. cbn [app].
      apply Permutation_middle.
Qed.

(** C1, as the code has it. When [compare] returns, no descriptor is on two
    of the three arrays, every descriptor on an array comes from the input,
    and the arrays together hold every descriptor of the input up to and
    including the first level-0 descriptor that carries the local root hash
    (all of them when there is none). What comes after that descriptor is
    not looked at: [compare] returns the same for the input cut after it,
    and the three arrays together are that part of the input, each
    occurrence once. *)
Theorem compare_partitions_until_root_match (localTrie : Trie)
        (remotes : list Descriptor.t) (c : Comparison) :
  compare localTrie remotes = Ok c ->
  (forall d, ~ (In d (match_ c) /\ In d (mismatch c))) /\
  (forall d, ~ (In d (match_ c) /\ In d (missing c))) /\
  (forall d, ~ (In d (mismatch c) /\ In d (missing c))) /\
  (forall d, In d (match_ c ++ mismatch c ++ missing c) -> In d remotes) /\
  (forall pre d post,
      remotes = pre ++ d :: post ->
      (forall d', In d' pre ->
                  ~ (Descriptor.level d' = 0 /\ Descriptor.hash d' = root localTrie)) ->
      In d (match_ c ++ mismatch c ++ missing c)) /\
  compare localTrie (processed localTrie remotes) = Ok c /\
  Permutation (match_ c ++ mismatch c ++ missing c) (processed localTrie remotes).
Proof.
  intros H. unfold compare in H.
  pose proof (compare_loop_sound localTrie remotes _ _ (sound_empty localTrie) H) as Hs.
  assert (Hdisj : forall cl cl' d, In d (filed cl c) -> In d (filed cl' c) -> cl = cl').
  { intros cl cl' d H1 H2. apply Hs in H1. apply Hs in H2. congruence. }
  split; [|split; [|split; [|split; [|split; [|split]]]]].
  - intros d [H1 H2]. discriminate (Hdisj IsMatch IsMismatch d H1 H2).
  - intros d [H1 H2]. discriminate (Hdisj IsMatch IsMissing d H1 H2).
  - intros d [H1 H2]. discriminate (Hdisj IsMismatch IsMissing d H1 H2).
  - intros d Hin. rewrite !in_app_iff in Hin.
    destruct Hin as [Hin | [Hin | Hin]].
    + destruct (compare_loop_from_input localTrie remotes _ _ IsMatch d H Hin) as [[]|]; auto.
    + destruct (compare_loop_from_input localTrie remotes _ _ IsMismatch d H Hin) as [[]|]; auto.
    + destruct (compare_loop_from_input localTrie remotes _ _ IsMissing d H Hin) as [[]|]; auto.
  - intros pre d post -> Hpre.
    destruct (compare_loop_reaches localTrie pre _ _ d post H) as (cl & _ & Hin).
    { intros d' Hd'. apply is_root_match_false. auto. }
    rewrite !in_app_iff. destruct cl; simpl in Hin; auto.
  - unfold compare. rewrite compare_loop_processed. exact H.
  - exact (compare_loop_Permutation localTrie remotes _ _ H).
Qed.

Lemma compare_partitions_until_root_match_witness :
  In other_descriptor
     (match_ (mkComparison [other_descriptor] [] []) ++
      mismatch (mkComparison [other_descriptor] [] []) ++
      missing (mkComparison [other_descriptor] [] [])).
Proof.
  assert (H : compare Samples.large [other_descriptor]
              = Ok (mkComparison [other_descriptor] [] [])) by (vm_compute; reflexivity).
  apply (proj1 (proj2 (proj2 (proj2 (proj2
           (compare_partitions_until_root_match Samples.large [other_descriptor] _ H)))))
           [] other_descriptor []); [reflexivity|].
  intros d' [].
Defined.

(** The early exit at work: with the root descriptor in the middle, the
    descriptor after it is not looked at, though one equal to it was
    filed before. *)
Example compare_processed_prefix :
  processed Samples.large [other_descriptor; root_descriptor; other_descriptor]
  = [other_descriptor; root_descriptor] /\
  compare Samples.large [other_descriptor; root_descriptor; other_descriptor]
  = Ok (mkComparison [other_descriptor] [] [root_descriptor]).
Proof. split; vm_compute; reflexivity. Qed.

(** C1 as stated fails: a level-0 descriptor with the local root hash ends
    the loop, and the descriptor after it is on none of the three arrays. *)
Lemma compare_stops_at_root_match :
  exists c,
    compare Samples.large [root_descriptor; other_descriptor] = Ok c /\
    In other_descriptor [root_descriptor; other_descriptor] /\
    ~ In other_descriptor (match_ c ++ mismatch c ++ missing c).
Proof.
  exists (mkComparison [] [] [root_descriptor]).
  split; [vm_compute; reflexivity|]. split; [right; left; reflexivity|].
  simpl. intros [H|[]]. discriminate H.
Qed.




(** ** [descend] *)

Arguments keccak256 : simpl never.
Arguments serialize : simpl never.

(** [hash] never throws on a node. *)
Lemma hash_Some (node : TrieNode) :
  hash (Some node)
  = Ok (if (length (serialize node) <? 32)%nat then serialize node
        else keccak256 (serialize node)).
Proof.
  unfold hash. fold (serialize node).
  destruct (length (serialize node) <? 32)%nat; reflexivity.
Qed.

(** The callback at remaining depth zero, for a node that is not excluded:
    it records one descriptor and asks for no children. *)
Lemma onFound_records (level : Z) (exclude : list Value) (nodes : list Descriptor.t)
      (node : TrieNode) (key : Nibbles) (h : Buffer) :
  hash (Some node) = Ok h ->
  find_marked exclude h = Ok None ->
  onFound level exclude nodes node key 0
  = Ok (nodes ++
        [Descriptor.mk level
           (if negb (level =? 0) && isLeafNode node
            then nibblesToBuffer key ++ nibblesToBuffer (EthTrie.key node)
            else nibblesToBuffer key)
           h (Some node)], None).
Proof.
  intros Hh Hm. unfold onFound. rewrite Hh. simpl. rewrite Hm. simpl.
  destruct (negb (level =? 0) && isLeafNode node); [|reflexivity].
  simpl. rewrite app_nil_r. reflexivity.
Qed.

(** The concatenation rule of the callback: a leaf recorded above level 0
    gets the bytes of the path followed by the bytes of its own key rest,
    each converted on its own. *)
Lemma onFound_leaf_key (level : Z) (exclude : list Value) (nodes : list Descriptor.t)
      (nibbles : Nibbles) (value : Rlp.Item) (key : Nibbles) (h : Buffer) :
  level <> 0 ->
  hash (Some (LeafNode nibbles value)) = Ok h ->
  find_marked exclude h = Ok None ->
  onFound level exclude nodes (LeafNode nibbles value) key 0
  = Ok (nodes ++
        [Descriptor.mk level (nibblesToBuffer key ++ nibblesToBuffer nibbles)
                       h (Some (LeafNode nibbles value))], None).
Proof.
  intros Hl Hh Hm. rewrite (onFound_records level exclude nodes _ key h Hh Hm).
  destruct (Z.eqb_spec level 0); [contradiction | reflexivity].
Qed.

(** On a path with an even number of nibbles the two conversions add up to
    the conversion of the whole key. *)
Lemma nibblesToBuffer_app_even (key rest : Nibbles) :
  Nat.even (length key) = true ->
  nibblesToBuffer key ++ nibblesToBuffer rest = nibblesToBuffer (key ++ rest).
Proof.
  revert rest. induction key as [key IH] using (induction_ltof1 _ (@length Z)).
  unfold ltof in IH. intros rest Hev.
  destruct key as [|hi [|lo key']]; [reflexivity | discriminate |].
  simpl. f_equal. apply IH; [simpl; lia | exact Hev].
Qed.

(** *** Fuel *)

(** When the callback asks for the children, the level was not zero and
    goes down by one. *)
Lemma onFound_descends (level : Z) (exclude : list Value) (nodes nodes' : list Descriptor.t)
      (node : TrieNode) (key : Nibbles) (currentLevel childLevel : Z) :
  onFound level exclude nodes node key currentLevel = Ok (nodes', Some childLevel) ->
  currentLevel <> 0 /\ childLevel = currentLevel - 1.
Proof.
  unfold onFound. destruct (hash (Some node)) as [h|]; [|discriminate]. simpl.
  destruct (find_marked exclude h) as [m|]; [|discriminate]. simpl.
  destruct (truthy m); [discriminate|].
  destruct (Z.eqb_spec currentLevel 0); [discriminate|].
  destruct (isBranchNode node || isExtensionNode node); [|discriminate].
  intros [= _ <-]. split; [assumption | reflexivity].
Qed.

Lemma walk_S (fuel : nat) (level : Z) (exclude : list Value) (trie : Trie)
      (ref : Rlp.Item) (key : Nibbles) (currentLevel : Z) (nodes : list Descriptor.t) :
  walk (S fuel) level exclude trie ref key currentLevel nodes
  = match lookupNode trie ref with
    | Throw e => (nodes, Some e)
    | Ok node =>
        match onFound level exclude nodes node key currentLevel with
        | Throw e => (nodes, Some e)
        | Ok (nodes', None) => (nodes', None)
        | Ok (nodes', Some childLevel) =>
            each_child (fun r k acc => walk fuel level exclude trie r k childLevel acc)
                       key (children node) nodes'
        end
    end.
Proof.
  cbn [walk]. destruct (lookupNode trie ref) as [node|]; [|reflexivity].
  destruct (onFound level exclude nodes node key currentLevel) as [[nodes' [cl|]]|];
    try reflexivity.
  generalize (children node). intros cs. revert nodes'.
  induction cs as [|[ext childRef] cs IH]; intros acc; [reflexivity|].
  cbn [each_child].
  destruct (walk fuel level exclude trie childRef (key ++ ext) cl acc) as [acc' [e|]];
    [reflexivity | apply IH].
Qed.

Lemma each_child_ext visit visit' key cs :
  (forall r k acc, visit r k acc = visit' r k acc) ->
  forall acc, each_child visit key cs acc = each_child visit' key cs acc.
Proof.
  intros H. induction cs as [|[ext childRef] cs IH]; intros acc; [reflexivity|].
  cbn [each_child]. rewrite H. destruct (visit' childRef (key ++ ext) acc) as [acc' [e|]];
    [reflexivity | apply IH].
Qed.

(** A walk that starts [n] levels above its target needs [n + 1] units of
    fuel and ignores the rest. *)
Lemma walk_enough_fuel (level : Z) (exclude : list Value) (trie : Trie) (n : nat) :
  forall fuel ref key nodes,
    (n < fuel)%nat ->
    walk fuel level exclude trie ref key (Z.of_nat n) nodes
    = walk (S n) level exclude trie ref key (Z.of_nat n) nodes.
Proof.
  induction n as [|m IH]; intros fuel ref key nodes Hlt;
    (destruct fuel as [|fuel']; [lia|]); rewrite !walk_S;
    (destruct (lookupNode trie ref) as [node|]; [|reflexivity]).
  - destruct (onFound level exclude nodes node key (Z.of_nat 0)) as [[nodes' [cl|]]|] eqn:E;
      try reflexivity.
    apply onFound_descends in E. lia.
  - destruct (onFound level exclude nodes node key (Z.of_nat (S m))) as [[nodes' [cl|]]|] eqn:E;
      try reflexivity.
    apply onFound_descends in E as [_ ->].
    replace (Z.of_nat (S m) - 1) with (Z.of_nat m) by lia.
    apply each_child_ext. intros r k acc. apply IH. lia.
Qed.

(** [descend] at a level that is not negative: [level + 1] units of fuel
    give the result, and more fuel gives the same. *)
Lemma descend_enough_fuel (fuel : nat) (trie : Trie) (level : Z) (exclude : list Value) :
  0 <= level -> (Z.to_nat level < fuel)%nat ->
  descend fuel trie level exclude = descend (S (Z.to_nat level)) trie level exclude.
Proof.
  intros H0 Hlt. unfold descend, newWalk.
  pose proof (walk_enough_fuel level exclude trie (Z.to_nat level) fuel
                (Rlp.Bytes (root trie)) [] [] Hlt) as W.
  rewrite (Z2Nat.id level H0) in W. rewrite W. reflexivity.
Qed.

(** C5, at a leaf under a path of odd length. In the trie with the keys
    0x1234 and 0x5234 the leaf of the first key sits under the one-nibble
    path 1 with the key rest 2, 3, 4. The callback, called for it at
    remaining depth zero and level 1, records the key 0x23: the last nibble
    of the path and the last nibble of the key rest are lost, and what is
    left is not the full key 0x1234. [descend] at level 1 so gives both
    leaves the same key, 0x23, which leads to neither of them. *)
Theorem descend_leaf_key_odd_path :
  onFound 1 [] [] Samples.leaf_a [1] 0
  = Ok ([Descriptor.mk 1 [0x23] (serialize Samples.leaf_a) (Some Samples.leaf_a)], None) /\
  nibblesToBuffer ([1] ++ EthTrie.key Samples.leaf_a) = [0x12; 0x34] /\
  descend 2 Samples.two 1 []
  = Ok [ Descriptor.mk 1 [0x23] (serialize Samples.leaf_a) (Some Samples.leaf_a);
         Descriptor.mk 1 [0x23] (serialize Samples.leaf_b) (Some Samples.leaf_b) ] /\
  findPath Samples.two [0x12; 0x34] = Ok (Some Samples.leaf_a) /\
  findPath Samples.two [0x52; 0x34] = Ok (Some Samples.leaf_b) /\
  findPath Samples.two [0x23] = Ok None.
Proof. vm_compute. repeat split; reflexivity. Qed.

(** C6, as the code has it. At level 0 with nothing excluded: on a trie
    whose root is the empty root, [descend] returns the one sentinel
    descriptor; on any other trie whose root node is in the store, it
    returns exactly one descriptor, for the empty path and the root node,
    whose hash is [hash] of that node: the root hash when the encoding of
    the root node has 32 bytes or more, the encoding itself when it is
    shorter. *)
Theorem descend_level0 (fuel : nat) (trie : Trie) :
  (root trie = emptyRoot ->
   descend fuel trie 0 [] = Ok [Descriptor.mk 0 [] (root trie) None]) /\
  (root trie <> emptyRoot ->
   forall node,
     lookupNode trie (Rlp.Bytes (root trie)) = Ok node ->
     root trie = keccak256 (serialize node) ->
     exists h,
       descend (S fuel) trie 0 [] = Ok [Descriptor.mk 0 [] h (Some node)] /\
       ((32 <= length (serialize node))%nat -> h = root trie) /\
       ((length (serialize node) < 32)%nat -> h = serialize node)).
Proof.
  split.
  - intros Hr. unfold descend. rewrite Z.eqb_refl, isEqual_VBuffer, Hr, buffer_eqb_refl.
    reflexivity.
  - intros Hr node Hnode Hroot.
    exists (if (length (serialize node) <? 32)%nat then serialize node
            else keccak256 (serialize node)).
    split; [|split].
    + unfold descend. rewrite Z.eqb_refl, isEqual_VBuffer.
      destruct (buffer_eqb emptyRoot (root trie)) eqn:Heq.
      { apply buffer_eqb_spec in Heq. congruence. }
      cbn [Js.bind]. unfold newWalk. cbn [walk]. rewrite Hnode.
      rewrite (onFound_records 0 [] [] node [] _ (hash_Some node) eq_refl).
      reflexivity.
    + intros Hlen. destruct (Nat.ltb_spec (length (serialize node)) 32); [lia|].
      symmetry; exact Hroot.
    + intros Hlen. destruct (Nat.ltb_spec (length (serialize node)) 32); [reflexivity|lia].
Qed.

Lemma descend_level0_witness :
  exists h,
    descend 1 Samples.large 0 []
    = Ok [Descriptor.mk 0 [] h (Some Samples.large_leaf)] /\
    ((32 <= length (serialize Samples.large_leaf))%nat -> h = root Samples.large) /\
    ((length (serialize Samples.large_leaf) < 32)%nat -> h = serialize Samples.large_leaf).
Proof.
  apply (proj2 (descend_level0 0 Samples.large)).
  - vm_compute. discriminate.
  - vm_compute. reflexivity.
  - reflexivity.
Defined.

(** C6 as stated fails on a trie with a small root node: with the single
    key 0x1234 and value "a", the one descriptor of level 0 carries the six
    bytes of the root leaf, not the root hash. *)
Lemma descend_small_root_hash :
  root Samples.small <> emptyRoot /\
  lookupNode Samples.small (Rlp.Bytes (root Samples.small)) = Ok Samples.small_leaf /\
  descend 1 Samples.small 0 []
  = Ok [Descriptor.mk 0 [] [197; 131; 32; 18; 52; 97] (Some Samples.small_leaf)] /\
  [197; 131; 32; 18; 52; 97] <> root Samples.small.
Proof.
  split; [vm_compute; discriminate|].
  split; [vm_compute; reflexivity|].
  split; [vm_compute; reflexivity|].
  vm_compute. discriminate.
Qed.

(** ** [leaves] *)

(** *** Fuel *)

Lemma walkTrieDfs_S (fuel : nat) (trie : Trie) (nodeRef : Rlp.Item) (key : Nibbles) :
  walkTrieDfs (S fuel) trie nodeRef key
  = if match nodeRef with
       | Rlp.Bytes b => buffer_eqb b EMPTY_TRIE_ROOT
       | Rlp.List _ => false
       end
    then GReturn
    else
      match lookupNode trie nodeRef with
      | Throw e => GThrow e
      | Ok (LeafNode nibbles v) => GYield (LeafNode nibbles v, key) GReturn
      | Ok (ExtensionNode keyExtension childRef) =>
          walkTrieDfs fuel trie childRef (key ++ keyExtension)
      | Ok (BranchNode branches _) =>
          each_slot (walkTrieDfs fuel trie) branches key (seq 0 16)
      end.
Proof.
  cbn [walkTrieDfs].
  destruct (match nodeRef with Rlp.Bytes b => buffer_eqb b EMPTY_TRIE_ROOT | _ => false end);
    [reflexivity|].
  destruct (lookupNode trie nodeRef) as [[branches v|nibbles v|nibbles v]|]; reflexivity.
Qed.

Lemma gen_then_throws {A} (g k : Gen A) : returns g = false -> gen_then g k = g.
Proof.
  induction g as [|a rest IH|e]; simpl; intros H; [discriminate | | reflexivity].
  rewrite (IH H). reflexivity.
Qed.

Lemma out_of_fuel_gen_then {A} (g k : Gen A) :
  out_of_fuel (gen_then g k) = if returns g then out_of_fuel k else out_of_fuel g.
Proof. induction g as [|a rest IH|e]; simpl; auto. Qed.

Lemma returns_not_out_of_fuel {A} (g : Gen A) : returns g = true -> out_of_fuel g = false.
Proof. induction g as [|a rest IH|e]; simpl; auto; discriminate. Qed.

(** More fuel changes nothing for a walk that did not run out of it. *)
Lemma walkTrieDfs_enough_fuel (trie : Trie) (fuel : nat) :
  forall fuel' nodeRef key,
    (fuel <= fuel')%nat ->
    out_of_fuel (walkTrieDfs fuel trie nodeRef key) = false ->
    walkTrieDfs fuel' trie nodeRef key = walkTrieDfs fuel trie nodeRef key.
Proof.
  induction fuel as [|fuel IH]; intros fuel' nodeRef key Hle Hok; [discriminate|].
  destruct fuel' as [|fuel']; [lia|]. revert Hok. rewrite !walkTrieDfs_S.
  destruct (match nodeRef with Rlp.Bytes b => buffer_eqb b EMPTY_TRIE_ROOT | _ => false end);
    [reflexivity|].
  destruct (lookupNode trie nodeRef) as [[branches v|nibbles v|nibbles v]|]; try reflexivity.
  - generalize (seq 0 16). intros slots.
    induction slots as [|i slots IHs]; [reflexivity|].
    cbn [each_slot]. destruct (getBranch branches i) as [childRef|]; [|exact IHs].
    rewrite out_of_fuel_gen_then.
    destruct (returns (walkTrieDfs fuel trie childRef (key ++ [Z.of_nat i]))) eqn:Hret.
    + intros Hok. rewrite (IHs Hok). f_equal. apply IH; [lia|].
      apply returns_not_out_of_fuel. exact Hret.
    + intros Hok. rewrite (IH fuel' _ _ ltac:(lia) Hok).
      rewrite !gen_then_throws by exact Hret. reflexivity.
  - intros Hok. apply IH; [lia | exact Hok].
Qed.

Section LeavesProperties.

Context {Decoded : Type}.
Variable decode : Rlp.Item -> result Decoded.
Variable normalizeUrl : string -> result string.
Variable parser : option (Decoded -> result Message.t).
Variable startDatetime : Num.
Variable href : option string.

Let loop from amount := leaves_loop decode normalizeUrl from amount parser startDatetime href.

(** With an integer [amount], the array never grows past it. *)
Lemma leaves_loop_bound (from : Num) (k : Z) (g : Gen (TrieNode * Nibbles)) :
  forall pointer nodes result,
    loop from (NInt k) g pointer nodes = Ok result ->
    Z.of_nat (length result) <= Z.max k (Z.of_nat (length nodes)).
Proof.
  unfold loop.
  induction g as [|[node key] rest IH|e]; intros pointer nodes result H; simpl in H.
  - injection H as <-. lia.
  - destruct (Z.leb_spec k (Z.of_nat (length nodes))) as [Hle|Hgt].
    { injection H as <-. lia. }
    assert (Hpush : forall x, Z.max k (Z.of_nat (length (nodes ++ [x]))) = k)
      by (intros x; rewrite length_app; simpl; lia).
    assert (Hkeep : Z.max k (Z.of_nat (length nodes)) = k) by lia.
    rewrite Hkeep.
    repeat match type of H with
           | (if ?b then _ else _) = _ => destruct b
           | Js.bind ?c _ = _ => destruct c; simpl in H; [|discriminate]
           | match ?o with Some _ => _ | None => _ end = _ => destruct o
           | leaves_loop _ _ _ _ _ _ _ _ _ (_ ++ [?x]) = _ =>
               apply IH in H; rewrite (Hpush x) in H; exact H
           | leaves_loop _ _ _ _ _ _ _ _ _ nodes = _ =>
               apply IH in H; rewrite Hkeep in H; exact H
           end.
  - discriminate.
Qed.

(** Without an integer [from] the counter [pointer] plays no part. *)
Lemma leaves_loop_pointer (from amount : Num) (g : Gen (TrieNode * Nibbles)) :
  Number_isInteger from = false ->
  forall pointer pointer' nodes,
    loop from amount g pointer nodes = loop from amount g pointer' nodes.
Proof.
  intros Hfrom. unfold loop.
  induction g as [|[node key] rest IH|e]; intros pointer pointer' nodes; simpl;
    [reflexivity| |reflexivity].
  rewrite Hfrom. simpl.
  destruct (Number_isInteger amount && _); [reflexivity|].
  destruct (decode (value node)) as [v|]; [|reflexivity]; simpl.
  destruct parser as [parse|]; [|apply IH].
  destruct (parse v) as [parsed|]; [|reflexivity]; simpl.
  destruct (lt_num _ _); [apply IH|].
  destruct href as [h|]; [|apply IH].
  destruct (String.eqb h ""); [apply IH|].
  destruct (normalizeUrl (Message.href parsed)); [|reflexivity]; simpl.
  destruct (normalizeUrl h); [|reflexivity]; simpl.
  destruct (negb _); apply IH.
Qed.

(** Once [pointer] has reached [from], the loop goes on as if [from] were
    not set. *)
Lemma leaves_loop_past (n : Z) (amount : Num) (g : Gen (TrieNode * Nibbles)) :
  forall pointer pointer' nodes,
    n <= pointer ->
    loop (NInt n) amount g pointer nodes = loop NUndefined amount g pointer' nodes.
Proof.
  unfold loop.
  induction g as [|[node key] rest IH|e]; intros pointer pointer' nodes Hp; simpl;
    [reflexivity| |reflexivity].
  destruct (Number_isInteger amount && _); [reflexivity|].
  destruct (Z.leb_spec (pointer + 1) n) as [|_]; [lia|].
  assert (Hp' : n <= pointer + 1) by lia.
  destruct (decode (value node)) as [v|]; [|reflexivity]; simpl.
  destruct parser as [parse|]; [|apply IH; exact Hp'].
  destruct (parse v) as [parsed|]; [|reflexivity]; simpl.
  destruct (lt_num _ _); [apply IH; exact Hp'|].
  destruct href as [h|]; [|apply IH; exact Hp'].
  destruct (String.eqb h ""); [apply IH; exact Hp'|].
  destruct (normalizeUrl (Message.href parsed)); [|reflexivity]; simpl.
  destruct (normalizeUrl h); [|reflexivity]; simpl.
  destruct (negb _); apply IH; exact Hp'.
Qed.

(** While [pointer] is below [from], leaves are passed over unseen. *)
Lemma leaves_loop_skips (n : Z) (amount : Num) (g : Gen (TrieNode * Nibbles)) :
  forall pointer nodes,
    (forall k, amount = NInt k -> Z.of_nat (length nodes) < k) ->
    0 <= pointer ->
    loop (NInt n) amount g pointer nodes
    = loop NUndefined amount (gen_drop (Z.to_nat (n - pointer)) g) 0 nodes.
Proof.
  induction g as [|[node key] rest IH|e]; intros pointer nodes Hopen Hp.
  - destruct (Z.to_nat (n - pointer)); reflexivity.
  - destruct (Z.le_gt_cases n pointer) as [Hle|Hgt].
    + replace (Z.to_nat (n - pointer)) with O by lia.
      apply leaves_loop_past. exact Hle.
    + replace (Z.to_nat (n - pointer)) with (S (Z.to_nat (n - (pointer + 1)))) by lia.
      cbn [gen_drop]. rewrite <- (IH (pointer + 1) nodes Hopen ltac:(lia)).
      unfold loop. simpl.
      assert (Hamount :
                Number_isInteger amount &&
                match amount with
                | NInt a => a <=? Z.of_nat (length nodes)
                | _ => false
                end = false).
      { destruct amount as [| |k]; try reflexivity. simpl.
        specialize (Hopen k eq_refl). apply Z.leb_gt. exact Hopen. }
      rewrite Hamount.
      destruct (Z.leb_spec (pointer + 1) n) as [_|]; [reflexivity | lia].
  - destruct (Z.to_nat (n - pointer)); reflexivity.
Qed.

(** More fuel changes nothing for a call whose walk did not run out of it. *)
Lemma leaves_enough_fuel (fuel fuel' : nat) (trie : Trie) (from amount : Num)
      (root : option Buffer) :
  (fuel <= fuel')%nat ->
  out_of_fuel (walkTrieDfs fuel trie
                 (Rlp.Bytes (match root with Some r => r | None => EthTrie.root trie end)) [])
  = false ->
  leaves decode normalizeUrl fuel' trie from amount parser startDatetime href root
  = leaves decode normalizeUrl fuel trie from amount parser startDatetime href root.
Proof.
  intros Hle Hok. unfold leaves.
  rewrite (walkTrieDfs_enough_fuel trie fuel fuel' _ _ Hle Hok). reflexivity.
Qed.

(** The loop returns whenever the walk does and no value fails to decode,
    to parse or to normalise. *)
Lemma leaves_loop_returns (from amount : Num) (g : Gen (TrieNode * Nibbles)) :
  (forall item, exists v, decode item = Ok v) ->
  (forall parse v, parser = Some parse -> exists m, parse v = Ok m) ->
  (forall url, exists k, normalizeUrl url = Ok k) ->
  returns g = true ->
  forall pointer nodes, exists result, loop from amount g pointer nodes = Ok result.
Proof.
  intros Hdecode Hparse Hnorm. unfold loop.
  induction g as [|[node key] rest IH|e]; intros Hret pointer nodes; simpl in *;
    [eexists; reflexivity | | discriminate].
  destruct (Number_isInteger amount && _); [eexists; reflexivity|].
  destruct (Number_isInteger from && _); [apply IH; exact Hret|].
  destruct (Hdecode (value node)) as [v ->]. simpl.
  destruct parser as [parse|] eqn:Hp; [|apply IH; exact Hret].
  destruct (Hparse parse v eq_refl) as [m ->]. simpl.
  destruct (lt_num _ _); [apply IH; exact Hret|].
  destruct href as [h|]; [|apply IH; exact Hret].
  destruct (String.eqb h ""); [apply IH; exact Hret|].
  destruct (Hnorm (Message.href m)) as [a ->]. destruct (Hnorm h) as [b ->]. simpl.
  destruct (negb _); apply IH; exact Hret.
Qed.

(** C7, as the code has it. With [amount] an integer [k], [leaves] returns
    at most [k] items when [k] is not negative, and none when it is. With
    [from] an integer [n] (and [amount] not an integer, or a positive one),
    the first [n] leaves of the walk are passed over whether or not they
    would get past the filters, and [leaves] returns what it returns for
    the rest of the walk with [from] not set. *)
Theorem leaves_amount_and_from (fuel : nat) (trie : Trie) (root : option Buffer) :
  (forall from k nodes,
      leaves decode normalizeUrl fuel trie from (NInt k) parser startDatetime href root
      = Ok nodes ->
      Z.of_nat (length nodes) <= Z.max k 0) /\
  (forall n amount,
      (forall k, amount = NInt k -> 0 < k) ->
      leaves decode normalizeUrl fuel trie (NInt n) amount parser startDatetime href root
      = leaves_loop decode normalizeUrl NUndefined amount parser startDatetime href
          (gen_drop (Z.to_nat n)
             (walkTrieDfs fuel trie
                (Rlp.Bytes (match root with Some r => r | None => EthTrie.root trie end)) []))
          0 []).
Proof.
  split.
  - intros from k nodes H. unfold leaves in H.
    apply (leaves_loop_bound from k) in H. simpl in H. exact H.
  - intros n amount Hpos. unfold leaves.
    rewrite <- (Z.sub_0_r n) at 2.
    apply (leaves_loop_skips n amount); [|lia].
    intros k Hk. simpl. apply (Hpos k Hk).
Qed.

End LeavesProperties.

Example walk_three :
  walkTrieDfs 2 LeavesSample.three (Rlp.Bytes (root LeavesSample.three)) []
  = GYield (LeavesSample.leaf 1, [1])
      (GYield (LeavesSample.leaf 10, [2]) (GYield (LeavesSample.leaf 20, [3]) GReturn)).
Proof. vm_compute. reflexivity. Qed.

Example leaves_raw :
  leaves LeavesSample.decode LeavesSample.normalizeUrl 2 LeavesSample.three
         (NInt 1) (NInt 1) None NNull None None
  = Ok [Raw 10].
Proof. vm_compute. reflexivity. Qed.

Lemma leaves_amount_and_from_witness :
  leaves LeavesSample.decode LeavesSample.normalizeUrl 2 LeavesSample.three
         (NInt 1) (NInt 5) (Some LeavesSample.parser) (NInt 5) None None
  = leaves_loop LeavesSample.decode LeavesSample.normalizeUrl NUndefined (NInt 5)
      (Some LeavesSample.parser) (NInt 5) None
      (gen_drop (Z.to_nat 1)
         (walkTrieDfs 2 LeavesSample.three (Rlp.Bytes (root LeavesSample.three)) []))
      0 [].
Proof.
  apply (proj2 (leaves_amount_and_from LeavesSample.decode LeavesSample.normalizeUrl
                  (Some LeavesSample.parser) (NInt 5) None 2 LeavesSample.three None)
               1 (NInt 5)).
  intros k [= <-]. lia.
Defined.

(** C7 as stated fails twice. With a timestamp filter of 5, the leaves that
    get past it are those of 10 and 20; with [from = 1] the call still
    returns both, having passed over the leaf of 1 and no match at all. And
    with [amount = -1] the call returns no item, which is more than -1. *)
Lemma leaves_from_counts_leaves :
  leaves LeavesSample.decode LeavesSample.normalizeUrl 2 LeavesSample.three
         (NInt 0) NUndefined (Some LeavesSample.parser) (NInt 5) None None
  = Ok [Parsed (LeavesSample.at_time 10); Parsed (LeavesSample.at_time 20)] /\
  leaves LeavesSample.decode LeavesSample.normalizeUrl 2 LeavesSample.three
         (NInt 1) NUndefined (Some LeavesSample.parser) (NInt 5) None None
  = Ok [Parsed (LeavesSample.at_time 10); Parsed (LeavesSample.at_time 20)] /\
  (exists nodes,
      leaves LeavesSample.decode LeavesSample.normalizeUrl 2 LeavesSample.three
             NUndefined (NInt (-1)) None NUndefined None None
      = Ok nodes /\ ~ Z.of_nat (length nodes) <= -1).
Proof.
  split; [vm_compute; reflexivity|].
  split; [vm_compute; reflexivity|].
  exists []. split; [vm_compute; reflexivity | simpl; lia].
Qed.

(** ** [count] *)

Section CountProperties.

Import StoryMap.

Variable normalizeUrl : string -> result string.

Local Abbreviation ts := Post.timestamp.

(** *** The sort is stable: it commutes with taking the leaves of a key *)

Lemma insert_sorted_In (x y : Post.t) (l : list Post.t) :
  In y (insert_sorted x l) <-> y = x \/ In y l.
Proof.
  induction l as [|z l IH]; simpl.
  - intuition.
  - destruct (ts x <=? ts z); simpl; [intuition|]. rewrite IH. intuition.
Qed.

Lemma sort_In (y : Post.t) (l : list Post.t) : In y (sort l) <-> In y l.
Proof.
  induction l as [|x l IH]; simpl; [tauto|].
  rewrite insert_sorted_In, IH. intuition.
Qed.

Lemma insert_sorted_ascending (x : Post.t) (l : list Post.t) :
  ascending l -> ascending (insert_sorted x l).
Proof.
  unfold ascending. induction l as [|z l IH]; intros Hs; simpl.
  - constructor; constructor.
  - apply StronglySorted_inv in Hs as [Hs Hall].
    destruct (Z.leb_spec (ts x) (ts z)) as [Hle|Hgt].
    + constructor; [constructor; assumption|].
      constructor; [exact Hle|].
      apply List.Forall_forall. intros y Hy. rewrite List.Forall_forall in Hall.
      specialize (Hall y Hy). simpl in Hall. lia.
    + constructor; [apply IH; exact Hs|].
      apply List.Forall_forall. intros y Hy. apply insert_sorted_In in Hy as [->|Hy]; [lia|].
      rewrite List.Forall_forall in Hall. apply Hall; exact Hy.
Qed.

Lemma sort_ascending (l : list Post.t) : ascending (sort l).
Proof.
  induction l as [|x l IH]; simpl; [constructor|].
  apply insert_sorted_ascending; exact IH.
Qed.

Lemma insert_sorted_first (x : Post.t) (l : list Post.t) :
  Forall (fun y => ts x <= ts y) l -> insert_sorted x l = x :: l.
Proof.
  intros H. destruct l as [|z l]; [reflexivity|]. simpl.
  apply Forall_inv in H. destruct (Z.leb_spec (ts x) (ts z)); [reflexivity | lia].
Qed.

Lemma filter_insert_sorted (P : Post.t -> bool) (x : Post.t) (l : list Post.t) :
  ascending l ->
  List.filter P (insert_sorted x l)
  = if P x then insert_sorted x (List.filter P l) else List.filter P l.
Proof.
  induction l as [|z l IH]; intros Hs.
  - simpl. destruct (P x); reflexivity.
  - apply StronglySorted_inv in Hs as [Hs Hall].
    cbn [insert_sorted]. destruct (Z.leb_spec (ts x) (ts z)) as [Hle|Hgt].
    + cbn [List.filter]. destruct (P x); [|reflexivity].
      symmetry. apply insert_sorted_first.
      apply List.Forall_forall. intros y Hy.
      assert (Hin : In y (z :: l)).
      { destruct (P z); [|right]; [destruct Hy as [<-|Hy]; [left; reflexivity | right]|];
          apply filter_In in Hy; apply Hy. }
      destruct Hin as [<-|Hin]; [exact Hle|].
      rewrite List.Forall_forall in Hall. specialize (Hall y Hin). simpl in Hall. lia.
    + cbn [List.filter]. rewrite (IH Hs).
      destruct (P z), (P x); try reflexivity.
      cbn [insert_sorted]. destruct (Z.leb_spec (ts x) (ts z)); [lia | reflexivity].
Qed.

Lemma filter_sort (P : Post.t -> bool) (l : list Post.t) :
  List.filter P (sort l) = sort (List.filter P l).
Proof.
  induction l as [|x l IH]; [reflexivity|].
  cbn [sort List.filter]. rewrite filter_insert_sorted by apply sort_ascending.
  rewrite IH. destruct (P x); reflexivity.
Qed.

(** A record and a later one, alone under their key, come out of the sort
    in the order of their timestamps. *)
Lemma sorted_pair (h : string) (leaves : list Post.t) (a b : Post.t) :
  Permutation (List.filter (has_key normalizeUrl h) leaves) [a; b] ->
  ts a < ts b ->
  List.filter (has_key normalizeUrl h) (sort leaves) = [a; b].
Proof.
  intros Hperm Hlt. rewrite filter_sort.
  apply Permutation_sym, Permutation_length_2_inv in Hperm as [-> | ->]; simpl.
  - destruct (Z.leb_spec (ts a) (ts b)); [reflexivity | lia].
  - destruct (Z.leb_spec (ts b) (ts a)); [lia | reflexivity].
Qed.

(** *** The loop of [count], whatever a story is made of *)

Section Loop.

Context {S : Type}.
Variable fresh : Post.t -> S.
Variable bump : S -> Post.t -> S.
Variable href_of : S -> string.
Hypothesis href_fresh : forall leaf, href_of (fresh leaf) = Post.href leaf.
Hypothesis href_bump : forall story leaf, href_of (bump story leaf) = href_of story.

Lemma get_set_eq (stories : list (string * S)) (k : string) (s : S) :
  get (set stories k s) k = Some s.
Proof.
  induction stories as [|[k0 s0] stories IH]; simpl.
  - rewrite String.eqb_refl. reflexivity.
  - destruct (String.eqb k0 k) eqn:E; simpl; rewrite E; [reflexivity | exact IH].
Qed.

Lemma get_set_ne (stories : list (string * S)) (k k' : string) (s : S) :
  k <> k' -> get (set stories k s) k' = get stories k'.
Proof.
  intros Hne. induction stories as [|[k0 s0] stories IH]; simpl.
  - destruct (String.eqb_spec k k'); [contradiction | reflexivity].
  - destruct (String.eqb_spec k0 k) as [->|Hk0]; simpl.
    + destruct (String.eqb_spec k k'); [contradiction | reflexivity].
    + rewrite IH. reflexivity.
Qed.

Lemma get_None (stories : list (string * S)) (k : string) :
  get stories k = None <-> ~ In k (map fst stories).
Proof.
  induction stories as [|[k0 s0] stories IH]; simpl; [tauto|].
  destruct (String.eqb_spec k0 k) as [->|Hne].
  - split; [discriminate | intros H; exfalso; apply H; left; reflexivity].
  - rewrite IH. tauto.
Qed.

Lemma well_keyed_get (stories : list (string * S)) (k : string) (s : S) :
  well_keyed normalizeUrl href_of stories ->
  get stories k = Some s -> normalizeUrl (href_of s) = Ok k.
Proof.
  intros [_ Hall] Hget.
  induction stories as [|[k0 s0] stories IH]; [discriminate|].
  apply Forall_cons_iff in Hall as [H0 Hall]. simpl in *.
  destruct (String.eqb_spec k0 k) as [->|]; [congruence | auto].
Qed.

Lemma well_keyed_set (stories : list (string * S)) (k : string) (s : S) :
  normalizeUrl (href_of s) = Ok k ->
  well_keyed normalizeUrl href_of stories -> well_keyed normalizeUrl href_of (set stories k s).
Proof.
  intros Hs. induction stories as [|[k0 s0] stories IH]; intros [Hnd Hall]; simpl.
  - split; [apply List.NoDup_cons; [intros []|apply List.NoDup_nil]
           | constructor; [exact Hs|constructor]].
  - simpl in Hnd. apply List.NoDup_cons_iff in Hnd as [Hnotin Hnd].
    apply Forall_cons_iff in Hall as [H0 Hall].
    destruct (String.eqb_spec k0 k) as [->|Hne].
    + split; [simpl; apply List.NoDup_cons; assumption | constructor; [exact Hs | exact Hall]].
    + destruct (IH (conj Hnd Hall)) as [Hnd' Hall'].
      split; [|constructor; assumption].
      simpl. apply List.NoDup_cons; [|exact Hnd'].
      apply get_None. rewrite get_set_ne by congruence. apply get_None. exact Hnotin.
Qed.

(** [Object.values(stories)] has one story for a key that was set, and
    none for a key that was not. *)
Lemma filter_well_keyed (h : string) (stories : list (string * S)) :
  well_keyed normalizeUrl href_of stories ->
  List.filter (story_has_key normalizeUrl href_of h) (map snd stories)
  = match get stories h with Some s => [s] | None => [] end.
Proof.
  induction stories as [|[k0 s0] stories IH]; intros [Hnd Hall]; [reflexivity|].
  simpl in Hnd. apply List.NoDup_cons_iff in Hnd as [Hnotin Hnd].
  apply Forall_cons_iff in Hall as [H0 Hall]. simpl in H0.
  specialize (IH (conj Hnd Hall)).
  simpl. unfold story_has_key at 1. rewrite H0.
  destruct (String.eqb_spec k0 h) as [->|Hne]; [|exact IH].
  rewrite IH. apply get_None in Hnotin. rewrite Hnotin. reflexivity.
Qed.

Lemma step_key (stories : list (string * S)) (leaf : Post.t) (k : string) :
  normalizeUrl (Post.href leaf) = Ok k ->
  well_keyed normalizeUrl href_of stories ->
  exists stories',
    step normalizeUrl fresh bump stories leaf = Ok stories' /\
    well_keyed normalizeUrl href_of stories' /\
    get stories' k = apply_leaf fresh bump (get stories k) leaf /\
    (forall k', k <> k' -> get stories' k' = get stories k').
Proof.
  intros Hk Hwk. unfold step. rewrite Hk. simpl.
  destruct (get stories k) as [s|] eqn:Hget; simpl.
  - pose proof (well_keyed_get stories k s Hwk Hget) as Hs.
    destruct (String.eqb (Post.type leaf) "amplify").
    + eexists. split; [reflexivity|].
      split; [apply well_keyed_set; [rewrite href_bump|]; assumption|].
      split; [apply get_set_eq | intros k' Hne; apply get_set_ne; exact Hne].
    + exists stories. split; [reflexivity|]. split; [exact Hwk|].
      split; [simpl; congruence | reflexivity].
  - eexists. split; [reflexivity|].
    split; [apply well_keyed_set; [rewrite href_fresh|]; assumption|].
    split; [apply get_set_eq | intros k' Hne; apply get_set_ne; exact Hne].
Qed.

(** The loop, seen from one key: only the leaves of that key count, in
    their order. *)
Lemma run_key (h : string) (leaves : list Post.t) :
  forall stories,
    Forall (fun leaf => exists k, normalizeUrl (Post.href leaf) = Ok k) leaves ->
    well_keyed normalizeUrl href_of stories ->
    exists stories',
      run normalizeUrl fresh bump stories leaves = Ok stories' /\
      well_keyed normalizeUrl href_of stories' /\
      get stories' h
      = fold_left (apply_leaf fresh bump) (List.filter (has_key normalizeUrl h) leaves)
                  (get stories h).
Proof.
  induction leaves as [|leaf leaves IH]; intros stories Hall Hwk.
  - exists stories. repeat split; try apply Hwk.
  - apply Forall_cons_iff in Hall as [[k Hk] Hall].
    destruct (step_key stories leaf k Hk Hwk) as (st1 & Hstep & Hwk1 & Hsame & Hother).
    destruct (IH st1 Hall Hwk1) as (st2 & Hloop & Hwk2 & Hget).
    exists st2. split; [simpl; rewrite Hstep; exact Hloop|]. split; [exact Hwk2|].
    rewrite Hget. cbn [List.filter]. unfold has_key at 2. rewrite Hk.
    destruct (String.eqb_spec k h) as [->|Hne].
    + simpl. rewrite Hsame. reflexivity.
    + rewrite (Hother h Hne). reflexivity.
Qed.

(** A first record and a later upvote, alone under their key among leaves
    whose hrefs all normalise: one story under that key, the one the first
    record makes, upvoted once. *)
Lemma run_submit_and_amplify (leaves : list Post.t) (a b : Post.t) (h : string) :
  Forall (fun leaf => exists k, normalizeUrl (Post.href leaf) = Ok k) leaves ->
  Permutation (List.filter (has_key normalizeUrl h) leaves) [a; b] ->
  Post.type b = "amplify" ->
  ts a < ts b ->
  exists stories,
    run normalizeUrl fresh bump [] (sort leaves) = Ok stories /\
    List.filter (story_has_key normalizeUrl href_of h) (map snd stories) = [bump (fresh a) b].
Proof.
  intros Hall Hperm Hb Hlt.
  assert (Hall' : Forall (fun leaf => exists k, normalizeUrl (Post.href leaf) = Ok k)
                         (sort leaves)).
  { apply List.Forall_forall. intros x Hx. rewrite List.Forall_forall in Hall.
    apply Hall. apply sort_In. exact Hx. }
  destruct (run_key h (sort leaves) [] Hall') as (stories & Hloop & Hwk & Hget).
  { split; [apply List.NoDup_nil | constructor]. }
  rewrite (sorted_pair h leaves a b Hperm Hlt) in Hget.
  simpl in Hget. rewrite Hb in Hget. simpl in Hget.
  exists stories. split; [exact Hloop|].
  rewrite (filter_well_keyed h stories Hwk), Hget. reflexivity.
Qed.

End Loop.

(** *** The two views *)

Lemma count_loop_run (stories : list (string * Story.t)) (leaves : list Post.t) :
  Stories.count_loop normalizeUrl stories leaves
  = run normalizeUrl story_fresh story_bump stories leaves.
Proof.
  revert stories. induction leaves as [|leaf leaves IH]; intros stories; [reflexivity|].
  simpl.
  change (Stories.count_step normalizeUrl stories leaf)
    with (step normalizeUrl story_fresh story_bump stories leaf).
  destruct (step normalizeUrl story_fresh story_bump stories leaf); simpl; [apply IH | reflexivity].
Qed.

Lemma plain_count_loop_run (stories : list (string * PlainStory.t)) (leaves : list Post.t) :
  PlainStories.count_loop normalizeUrl stories leaves
  = run normalizeUrl plain_fresh plain_bump stories leaves.
Proof.
  revert stories. induction leaves as [|leaf leaves IH]; intros stories; [reflexivity|].
  simpl.
  change (PlainStories.count_step normalizeUrl stories leaf)
    with (step normalizeUrl plain_fresh plain_bump stories leaf).
  destruct (step normalizeUrl plain_fresh plain_bump stories leaf); simpl; [apply IH | reflexivity].
Qed.

(** The view of [src/unnamed/part_000] on the same leaves: one story for
    the href, with 2 upvotes and the timestamp of the earlier record; this
    view keeps no list of upvoters. *)
Lemma plain_count_submit_and_amplify (leaves : list Post.t) (a b : Post.t) (h : string) :
  Forall (fun leaf => exists k, normalizeUrl (Post.href leaf) = Ok k) leaves ->
  Permutation (List.filter (has_key normalizeUrl h) leaves) [a; b] ->
  Post.type b = "amplify" ->
  Post.timestamp a < Post.timestamp b ->
  exists stories story,
    PlainStories.count normalizeUrl leaves = Ok stories /\
    List.filter (story_has_key normalizeUrl PlainStory.href h) stories = [story] /\
    PlainStory.upvotes story = 2 /\
    PlainStory.timestamp story = Post.timestamp a /\
    PlainStory.href story = Post.href a.
Proof.
  intros Hall Hperm Hb Hlt.
  destruct (run_submit_and_amplify plain_fresh plain_bump PlainStory.href
              ltac:(reflexivity) ltac:(reflexivity) leaves a b h Hall Hperm Hb Hlt)
    as (stories & Hrun & Hfilter).
  exists (map snd stories), (plain_bump (plain_fresh a) b).
  split; [unfold PlainStories.count; rewrite plain_count_loop_run, Hrun; reflexivity|].
  split; [exact Hfilter|]. repeat split.
Qed.

(** C8, as the code has it. In a list of leaves whose hrefs all normalise,
    let the leaves of one normalised href be exactly a "submit" record by
    one identity and a later "amplify" record by another. Then the
    [count] of [src/unnamed/part_001] returns exactly one story for that
    href: it has 2 upvotes, the two identities as upvoters, and the
    timestamp (and href) of the earlier record. The [count] of
    [src/unnamed/part_000] returns exactly one story for that href as well,
    with 2 upvotes and that timestamp and href; it keeps no upvoters. *)
Theorem count_submit_and_amplify (leaves : list Post.t) (a b : Post.t) (h : string) :
  Forall (fun leaf => exists k, normalizeUrl (Post.href leaf) = Ok k) leaves ->
  Permutation (List.filter (has_key normalizeUrl h) leaves) [a; b] ->
  Post.type a = "submit" ->
  Post.type b = "amplify" ->
  Post.identity a <> Post.identity b ->
  Post.timestamp a < Post.timestamp b ->
  (exists stories story,
      Stories.count normalizeUrl leaves = Ok stories /\
      List.filter (story_has_key normalizeUrl Story.href h) stories = [story] /\
      Story.upvotes story = 2 /\
      Story.upvoters story = [Post.identity a; Post.identity b] /\
      Story.timestamp story = Post.timestamp a /\
      Story.href story = Post.href a) /\
  (exists stories story,
      PlainStories.count normalizeUrl leaves = Ok stories /\
      List.filter (story_has_key normalizeUrl PlainStory.href h) stories = [story] /\
      PlainStory.upvotes story = 2 /\
      PlainStory.timestamp story = Post.timestamp a /\
      PlainStory.href story = Post.href a).
Proof.
  intros Hall Hperm _ Hb _ Hlt. split.
  - destruct (run_submit_and_amplify story_fresh story_bump Story.href
                ltac:(reflexivity) ltac:(reflexivity) leaves a b h Hall Hperm Hb Hlt)
      as (stories & Hrun & Hfilter).
    exists (map snd stories), (story_bump (story_fresh a) b).
    split; [unfold Stories.count; rewrite count_loop_run, Hrun; reflexivity|].
    split; [exact Hfilter|]. repeat split.
  - exact (plain_count_submit_and_amplify leaves a b h Hall Hperm Hb Hlt).
Qed.

End CountProperties.

Example count_three :
  Stories.count CountSample.normalizeUrl
                [CountSample.amplify; CountSample.elsewhere; CountSample.submit]
  = Ok [ Story.mk "X" 1700000000 "https://x.example" "0xS1" None 2 ["0xS1"; "0xS2"] "aa01";
         Story.mk "Y" 1700000005 "https://y.example" "0xS2" None 1 ["0xS2"] "aa03" ].
Proof. vm_compute. reflexivity. Qed.

Example plain_count_three :
  PlainStories.count CountSample.normalizeUrl
                     [CountSample.amplify; CountSample.elsewhere; CountSample.submit]
  = Ok [ PlainStory.mk "X" 1700000000 "https://x.example" None 2;
         PlainStory.mk "Y" 1700000005 "https://y.example" None 1 ].
Proof. vm_compute. reflexivity. Qed.

Lemma count_submit_and_amplify_witness :
  (exists stories story,
      Stories.count CountSample.normalizeUrl
                    [CountSample.amplify; CountSample.elsewhere; CountSample.submit]
      = Ok stories /\
      List.filter (story_has_key CountSample.normalizeUrl Story.href "https://x.example") stories
      = [story] /\
      Story.upvotes story = 2 /\
      Story.upvoters story = ["0xS1"; "0xS2"] /\
      Story.timestamp story = 1700000000 /\
      Story.href story = "https://x.example") /\
  (exists stories story,
      PlainStories.count CountSample.normalizeUrl
                         [CountSample.amplify; CountSample.elsewhere; CountSample.submit]
      = Ok stories /\
      List.filter (story_has_key CountSample.normalizeUrl PlainStory.href "https://x.example")
                  stories
      = [story] /\
      PlainStory.upvotes story = 2 /\
      PlainStory.timestamp story = 1700000000 /\
      PlainStory.href story = "https://x.example").
Proof.
  apply (count_submit_and_amplify CountSample.normalizeUrl
           [CountSample.amplify; CountSample.elsewhere; CountSample.submit]
           CountSample.submit CountSample.amplify "https://x.example").
  - repeat constructor; eexists; reflexivity.
  - vm_compute. apply perm_swap.
  - reflexivity.
  - reflexivity.
  - discriminate.
  - simpl. lia.
Defined.

(** C8 as stated fails when the list holds a record whose link does not
    normalise, be it a record of no link at all: the two records are there
    as the claim asks, and both views throw instead of returning a
    story. *)
Lemma count_throws_on_another_record :
  let leaves := [CountSample.submit; CountSample.amplify; CountSample.unlinked] in
  Permutation (List.filter (has_key CountSample.strict "https://x.example") leaves)
              [CountSample.submit; CountSample.amplify] /\
  Post.type CountSample.submit = "submit" /\
  Post.type CountSample.amplify = "amplify" /\
  Post.identity CountSample.submit <> Post.identity CountSample.amplify /\
  Post.timestamp CountSample.submit < Post.timestamp CountSample.amplify /\
  Stories.count CountSample.strict leaves = Throw (mkError "Invalid URL") /\
  PlainStories.count CountSample.strict leaves = Throw (mkError "Invalid URL").
Proof.
  intros leaves. split; [vm_compute; reflexivity|].
  split; [reflexivity|]. split; [reflexivity|]. split; [discriminate|].
  split; [vm_compute; reflexivity|]. split; vm_compute; reflexivity.
Qed.

(** * More properties of the code *)

(** ** [nibblesToBuffer] *)

Lemma byte_of_nibbles (hi lo : Z) :
  is_nibble hi -> is_nibble lo ->
  Z.shiftr ((Z.shiftl hi 4 + lo) mod 256) 4 = hi /\
  ((Z.shiftl hi 4 + lo) mod 256) mod 16 = lo.
Proof.
  unfold is_nibble. intros Hhi Hlo.
  rewrite Z.shiftl_mul_pow2, Z.shiftr_div_pow2 by lia.
  change (2 ^ 4) with 16.
  rewrite (Z.mod_small (hi * 16 + lo) 256) by lia.
  split.
  - rewrite Z.div_add_l by lia. rewrite Z.div_small by lia. lia.
  - rewrite Z.add_comm, Z.mod_add by lia. apply Z.mod_small. lia.
Qed.

Lemma nibbles_of_byte (b : Z) :
  is_byte b -> (Z.shiftl (Z.shiftr b 4) 4 + b mod 16) mod 256 = b.
Proof.
  unfold is_byte. intros Hb.
  rewrite Z.shiftl_mul_pow2, Z.shiftr_div_pow2 by lia.
  change (2 ^ 4) with 16.
  replace (b / 16 * 16 + b mod 16) with b by (pose proof (Z.div_mod b 16 ltac:(lia)); lia).
  apply Z.mod_small. lia.
Qed.

(** X1. Bytes to nibbles and back: [nibblesToBuffer] undoes the library's
    [bufferToNibbles] on every buffer. *)
Theorem nibblesToBuffer_bufferToNibbles (buf : Buffer) :
  Forall is_byte buf -> nibblesToBuffer (bufferToNibbles buf) = buf.
Proof.
  induction 1 as [|b buf Hb _ IH]; [reflexivity|].
  unfold bufferToNibbles in *. cbn [flat_map app nibblesToBuffer].
  rewrite IH, (nibbles_of_byte b Hb). reflexivity.
Qed.

Lemma nibblesToBuffer_bufferToNibbles_witness :
  nibblesToBuffer (bufferToNibbles [0x12; 0xff; 0]) = [0x12; 0xff; 0].
Proof.
  apply nibblesToBuffer_bufferToNibbles.
  repeat constructor; unfold is_byte; lia.
Defined.

Lemma nibbles_bytes_nibbles (arr : Nibbles) :
  Forall is_nibble arr -> Nat.even (length arr) = true ->
  bufferToNibbles (nibblesToBuffer arr) = arr.
Proof.
  induction arr as [arr IH] using (induction_ltof1 _ (@length Z)).
  unfold ltof in IH. intros Hall Hev.
  destruct arr as [|hi [|lo rest]]; [reflexivity | discriminate |].
  apply Forall_cons_iff in Hall as [Hhi Hall].
  apply Forall_cons_iff in Hall as [Hlo Hall].
  cbn [nibblesToBuffer]. unfold bufferToNibbles in *. cbn [flat_map app].
  destruct (byte_of_nibbles hi lo Hhi Hlo) as [-> ->].
  rewrite IH; [reflexivity | simpl; lia | exact Hall | exact Hev].
Qed.

(** X2. Nibbles to bytes and back: what [nibblesToBuffer] keeps of an
    array of nibbles in range is all of it but the last nibble of an array
    of odd length; so on an even number of nibbles nothing is lost. *)
Theorem bufferToNibbles_nibblesToBuffer (arr : Nibbles) :
  Forall is_nibble arr ->
  bufferToNibbles (nibblesToBuffer arr) = firstn (2 * (length arr / 2)) arr /\
  (Nat.even (length arr) = true -> bufferToNibbles (nibblesToBuffer arr) = arr).
Proof.
  intros Hall. split; [|apply nibbles_bytes_nibbles, Hall].
  induction arr as [arr IH] using (induction_ltof1 _ (@length Z)).
  unfold ltof in IH.
  destruct arr as [|hi [|lo rest]]; [reflexivity | reflexivity |].
  apply Forall_cons_iff in Hall as [Hhi Hall].
  apply Forall_cons_iff in Hall as [Hlo Hall].
  cbn [nibblesToBuffer length]. unfold bufferToNibbles in *. cbn [flat_map app].
  destruct (byte_of_nibbles hi lo Hhi Hlo) as [-> ->].
  rewrite IH by (simpl; lia || exact Hall).
  replace (S (S (length rest))) with (length rest + 1 * 2)%nat by lia.
  rewrite Nat.div_add by lia.
  replace (2 * (length rest / 2 + 1))%nat with (S (S (2 * (length rest / 2)))) by lia.
  reflexivity.
Qed.

Lemma bufferToNibbles_nibblesToBuffer_witness :
  bufferToNibbles (nibblesToBuffer [1; 2; 15]) = firstn (2 * (length [1; 2; 15] / 2)) [1; 2; 15] /\
  (Nat.even (length [1; 2; 15]) = true ->
   bufferToNibbles (nibblesToBuffer [1; 2; 15]) = [1; 2; 15]).
Proof.
  apply bufferToNibbles_nibblesToBuffer.
  repeat constructor; unfold is_nibble; lia.
Defined.

(** X3. The size and range of the result: half as many bytes as nibbles,
    rounded down, each in range whatever the nibbles were. *)
Theorem nibblesToBuffer_size (arr : Nibbles) :
  length (nibblesToBuffer arr) = (length arr / 2)%nat /\
  Forall is_byte (nibblesToBuffer arr).
Proof.
  induction arr as [arr IH] using (induction_ltof1 _ (@length Z)).
  unfold ltof in IH.
  destruct arr as [|hi [|lo rest]]; [split; [reflexivity|constructor] .. |].
  destruct (IH rest ltac:(simpl; lia)) as [Hlen Hall].
  cbn [nibblesToBuffer length]. split.
  - rewrite Hlen. change (S (S (length rest))) with (2 + length rest)%nat.
    replace (2 + length rest)%nat with (length rest + 1 * 2)%nat by lia.
    rewrite Nat.div_add by lia. lia.
  - constructor; [|exact Hall]. unfold is_byte. apply Z.mod_pos_bound. lia.
Qed.

(** ** Small nodes travel in place of their hash *)

(** Induction on an RLP item, the items of a list included. *)
Lemma Item_induction (P : Rlp.Item -> Prop) :
  (forall b, P (Rlp.Bytes b)) ->
  (forall items, Forall P items -> P (Rlp.List items)) ->
  forall item, P item.
Proof.
  intros HB HL. fix IH 1. intros [b|items]; [apply HB|].
  apply HL. induction items as [|x items IHitems]; constructor; [apply IH | exact IHitems].
Qed.

Lemma encode_nonempty (item : Rlp.Item) : (1 <= length (Rlp.encode item))%nat.
Proof.
  destruct item as [b|items]; cbn [Rlp.encode].
  - destruct b as [|x [|y b]];
      repeat match goal with |- context [if ?c then _ else _] => destruct c end;
      unfold Rlp.encodeLength;
      repeat match goal with |- context [if ?c then _ else _] => destruct c end;
      rewrite ?length_app; simpl; lia.
  - unfold Rlp.encodeLength.
    destruct (_ <? 56); rewrite length_app; simpl; lia.
Qed.

Lemma encodeLength_length (len offset : Z) :
  (1 <= length (Rlp.encodeLength len offset))%nat.
Proof. unfold Rlp.encodeLength. destruct (len <? 56); simpl; lia. Qed.

(** A byte string whose encoding has at most 56 bytes has at most 55. *)
Lemma encode_Bytes_short (b : Buffer) :
  (length (Rlp.encode (Rlp.Bytes b)) <= 56)%nat -> (length b < 56)%nat.
Proof.
  intros H. destruct (Nat.lt_ge_cases (length b) 56) as [|Hge]; [assumption|].
  exfalso. cbn [Rlp.encode] in H.
  destruct b as [|x [|y b]]; simpl in Hge; try lia.
  rewrite length_app in H. pose proof (encodeLength_length (Z.of_nat (length (x :: y :: b))) 128).
  simpl in *. lia.
Qed.

Lemma encode_List_short (items : list Rlp.Item) :
  (length (Rlp.encode (Rlp.List items)) <= 56)%nat ->
  (length (concat (map Rlp.encode items)) < 56)%nat.
Proof.
  intros H. cbn [Rlp.encode] in H. rewrite length_app in H.
  pose proof (encodeLength_length (Z.of_nat (length (concat (map Rlp.encode items)))) 192).
  lia.
Qed.

Lemma safeSlice_payload (p : Z) (payload rest : Buffer) :
  Rlp.safeSlice (p :: payload ++ rest) 1 (Z.of_nat (length payload) + 1) = Ok payload.
Proof.
  unfold Rlp.safeSlice.
  destruct (Z.ltb_spec (Z.of_nat (length (p :: payload ++ rest)))
                       (Z.of_nat (length payload) + 1)) as [Hlt|_].
  - simpl in Hlt. rewrite length_app in Hlt. lia.
  - replace (Z.to_nat (Z.of_nat (length payload) + 1)) with (S (length payload)) by lia.
    change (Z.to_nat 1) with 1%nat. cbn [firstn skipn].
    rewrite firstn_app, Nat.sub_diag, firstn_all, firstn_O, app_nil_r. reflexivity.
Qed.

Lemma skipn_payload (p : Z) (payload rest : Buffer) :
  skipn (Z.to_nat (Z.of_nat (length payload) + 1)) (p :: payload ++ rest) = rest.
Proof.
  replace (Z.to_nat (Z.of_nat (length payload) + 1)) with (S (length payload)) by lia.
  cbn [skipn]. rewrite skipn_app, Nat.sub_diag, skipn_all. reflexivity.
Qed.

(** What a short encoding starts with. *)
Lemma encodeLength_short (len offset : Z) :
  len < 56 -> Rlp.encodeLength len offset = [len + offset].
Proof. intros H. unfold Rlp.encodeLength. destruct (Z.ltb_spec len 56); [reflexivity|lia]. Qed.

(** [_decode] reads back a byte string of at most 55 bytes. *)
Lemma _decode_encode_Bytes (fuel : nat) (b rest : Buffer) :
  (length b < 56)%nat ->
  Rlp._decode (S fuel) (Rlp.encode (Rlp.Bytes b) ++ rest) = Ok (Rlp.Bytes b, rest).
Proof.
  intros Hb.
  assert (Hgen : forall x,
    (forall y, b = [y] -> (y <? 128) = false) ->
    x = Z.of_nat (length b) ->
    Rlp._decode (S fuel) (((x + 128) :: b) ++ rest) = Ok (Rlp.Bytes b, rest)).
  { intros x Hsingle ->. cbn [Rlp._decode app].
    destruct (Z.leb_spec (Z.of_nat (length b) + 128) 127); [lia|].
    destruct (Z.leb_spec (Z.of_nat (length b) + 128) 183); [|lia].
    replace (Z.of_nat (length b) + 128 - 127) with (Z.of_nat (length b) + 1) by lia.
    rewrite skipn_payload.
    destruct (Z.eqb_spec (Z.of_nat (length b) + 128) 128) as [Hz|Hz].
    - destruct b; [reflexivity | simpl in Hz; lia].
    - rewrite safeSlice_payload. cbn [Js.bind].
      destruct b as [|d0 b']; [reflexivity|].
      destruct (Z.eqb_spec (Z.of_nat (length (d0 :: b')) + 1) 2) as [H2|H2]; [|reflexivity].
      destruct b'; [|simpl in H2; lia].
      rewrite (Hsingle d0 eq_refl). reflexivity. }
  cbn [Rlp.encode].
  destruct b as [|x [|y b']].
  - rewrite encodeLength_short by (simpl; lia). apply Hgen; [discriminate | reflexivity].
  - destruct (x <? 128) eqn:Hx.
    + cbn [Rlp._decode app]. destruct (Z.leb_spec x 127); [reflexivity|].
      apply Z.ltb_lt in Hx. lia.
    + rewrite encodeLength_short by (simpl; lia).
      apply Hgen; [intros ? [= <-]; exact Hx | reflexivity].
  - rewrite encodeLength_short by (simpl in *; lia).
    apply Hgen; [discriminate | reflexivity].
Qed.

(** [_decode] reads back every item whose encoding has at most 56 bytes,
    and leaves what follows it; twice the length of the encoding is fuel
    enough. *)
Lemma _decode_encode (item : Rlp.Item) :
  (length (Rlp.encode item) <= 56)%nat ->
  forall fuel rest, (2 * length (Rlp.encode item) <= fuel)%nat ->
  Rlp._decode fuel (Rlp.encode item ++ rest) = Ok (item, rest).
Proof.
  induction item as [b|items IH] using Item_induction; intros Hshort fuel rest Hfuel.
  - pose proof (encode_nonempty (Rlp.Bytes b)).
    destruct fuel as [|fuel]; [lia|].
    apply _decode_encode_Bytes, encode_Bytes_short, Hshort.
  - pose proof (encode_List_short items Hshort) as Hpayload.
    cbn [Rlp.encode] in *.
    rewrite encodeLength_short in * by lia.
    cbn [length app] in Hfuel.
    destruct fuel as [|fuel]; [lia|].
    set (payload := concat (map Rlp.encode items)) in *.
    cbn [Rlp._decode app].
    destruct (Z.leb_spec (Z.of_nat (length payload) + 192) 127); [lia|].
    destruct (Z.leb_spec (Z.of_nat (length payload) + 192) 183); [lia|].
    destruct (Z.leb_spec (Z.of_nat (length payload) + 192) 191); [lia|].
    destruct (Z.leb_spec (Z.of_nat (length payload) + 192) 247); [|lia].
    replace (Z.of_nat (length payload) + 192 - 191) with (Z.of_nat (length payload) + 1) by lia.
    rewrite safeSlice_payload, skipn_payload. cbn [Js.bind].
    assert (Hall : Rlp._decode_all fuel payload = Ok items).
    { assert (Hf : (1 + 2 * length payload <= fuel)%nat) by lia.
      clear - IH Hpayload Hf. subst payload. revert fuel Hf.
      induction IH as [|x items Hx _ IHitems]; intros fuel Hf.
      - destruct fuel; [lia | reflexivity].
      - cbn [map concat] in *. rewrite length_app in *.
        pose proof (encode_nonempty x) as Hne.
        destruct fuel as [|fuel]; [lia|].
        cbn [Rlp._decode_all].
        destruct (Rlp.encode x ++ concat (map Rlp.encode items)) as [|c cs] eqn:E.
        { apply (f_equal (@length Z)) in E. rewrite length_app in E. simpl in E. lia. }
        rewrite <- E. rewrite Hx by lia. cbn [Js.bind fst snd].
        rewrite IHitems by lia. reflexivity. }
    rewrite Hall. reflexivity.
Qed.

(** [decode] undoes [encode] on an encoding of at most 56 bytes. *)
Lemma decode_encode (item : Rlp.Item) :
  (length (Rlp.encode item) <= 56)%nat -> Rlp.decode (Rlp.encode item) = Ok item.
Proof.
  intros Hshort. unfold Rlp.decode. pose proof (encode_nonempty item) as Hne.
  destruct (Rlp.encode item) as [|c cs] eqn:E; [simpl in Hne; lia|].
  rewrite <- E in *.
  pose proof (_decode_encode item Hshort (2 * length (Rlp.encode item) + 2) [] ltac:(lia)) as H.
  rewrite app_nil_r in H. rewrite H. reflexivity.
Qed.

(** The hex prefix survives the trip through bytes. *)
Lemma hex_prefix_bytes (nibbles : Nibbles) (terminator : bool) :
  Forall is_nibble nibbles ->
  bufferToNibbles (nibblesToBuffer (addHexPrefix nibbles terminator))
  = addHexPrefix nibbles terminator.
Proof.
  intros Hall. apply nibbles_bytes_nibbles.
  - unfold addHexPrefix.
    destruct (Nat.odd (length nibbles)), terminator;
      repeat (constructor; [unfold is_nibble; lia|]); exact Hall.
  - unfold addHexPrefix. destruct (Nat.odd (length nibbles)) eqn:Hodd.
    + cbn [length]. rewrite Nat.even_succ. exact Hodd.
    + cbn [length]. rewrite Nat.even_succ, Nat.odd_succ, <- Nat.negb_odd, Hodd. reflexivity.
Qed.

Lemma removeHexPrefix_addHexPrefix (nibbles : Nibbles) (terminator : bool) :
  removeHexPrefix (addHexPrefix nibbles terminator) = nibbles.
Proof.
  unfold addHexPrefix. destruct (Nat.odd (length nibbles)), terminator; reflexivity.
Qed.

Lemma isTerminator_addHexPrefix (nibbles : Nibbles) (terminator : bool) :
  isTerminator (addHexPrefix nibbles terminator) = terminator.
Proof.
  unfold addHexPrefix. destruct (Nat.odd (length nibbles)), terminator; reflexivity.
Qed.

(** [decodeRawNode] undoes [raw]. *)
Lemma decodeRawNode_raw (n : TrieNode) :
  well_formed n -> decodeRawNode (raw n) = Ok n.
Proof.
  destruct n as [branches v | nibbles v | nibbles v]; cbn [well_formed raw]; intros Hwf.
  - unfold decodeRawNode. rewrite length_app, Hwf. cbn [length Nat.add Nat.eqb].
    rewrite firstn_app, Hwf, Nat.sub_diag, firstn_O, app_nil_r.
    rewrite <- Hwf at 1. rewrite firstn_all.
    rewrite app_nth2 by lia. rewrite Hwf. reflexivity.
  - unfold decodeRawNode. cbn [length Nat.eqb].
    rewrite hex_prefix_bytes, isTerminator_addHexPrefix, removeHexPrefix_addHexPrefix by exact Hwf.
    reflexivity.
  - unfold decodeRawNode. cbn [length Nat.eqb].
    rewrite hex_prefix_bytes, isTerminator_addHexPrefix, removeHexPrefix_addHexPrefix by exact Hwf.
    reflexivity.
Qed.

(** [decodeNode] undoes [serialize] on an encoding of at most 56 bytes. *)
Lemma decodeNode_serialize (n : TrieNode) :
  well_formed n -> (length (serialize n) <= 56)%nat -> decodeNode (serialize n) = Ok n.
Proof.
  intros Hwf Hshort. unfold decodeNode, serialize in *.
  rewrite decode_encode by exact Hshort. cbn [Js.bind]. apply decodeRawNode_raw, Hwf.
Qed.

(** What [hash] gives when it gives less than 32 bytes. *)
Lemma hash_inline (n : TrieNode) (h : Buffer) :
  hash (Some n) = Ok h -> (length h < 32)%nat -> h = serialize n.
Proof.
  unfold hash. intros H Hlen.
  destruct (length (Rlp.encode (Rlp.List (raw n))) <? 32)%nat; [congruence|].
  injection H as <-. rewrite keccak256_length in Hlen. lia.
Qed.

Lemma lookup_serialize (trie : Trie) (n : TrieNode) (key : Buffer) :
  well_formed n -> (length (serialize n) <= 56)%nat ->
  lookup trie (serialize n) key = Ok (mkLookup (Some n) "missing").
Proof.
  intros Hwf Hlen. unfold lookup. rewrite decodeNode_serialize by assumption. reflexivity.
Qed.

(** X4. A node of less than 32 bytes travels as its own encoding: what
    [hash] gives for it, [lookup] decodes back to the node and reports as
    missing, whatever the local trie holds and whatever the key. *)
Theorem lookup_of_small_hash (trie : Trie) (n : TrieNode) (h key : Buffer) :
  well_formed n -> hash (Some n) = Ok h -> (length h < 32)%nat ->
  lookup trie h key = Ok (mkLookup (Some n) "missing").
Proof.
  intros Hwf Hh Hlen. pose proof (hash_inline n h Hh Hlen) as E. subst h.
  apply lookup_serialize; [exact Hwf | lia].
Qed.

Lemma lookup_of_small_hash_witness :
  lookup Samples.two (serialize Samples.leaf_a) [0x12; 0x34]
  = Ok (mkLookup (Some Samples.leaf_a) "missing").
Proof.
  apply lookup_of_small_hash.
  - cbn [well_formed Samples.leaf_a]. repeat constructor; unfold is_nibble; lia.
  - reflexivity.
  - vm_compute. lia.
Defined.

(** X26. Small nodes are told apart by their hash: two nodes with the
    same hash of less than 32 bytes are the same node. *)
Theorem hash_small_injective (n1 n2 : TrieNode) (h : Buffer) :
  well_formed n1 -> well_formed n2 ->
  hash (Some n1) = Ok h -> hash (Some n2) = Ok h -> (length h < 32)%nat ->
  n1 = n2.
Proof.
  intros Hwf1 Hwf2 H1 H2 Hlen.
  pose proof (hash_inline n1 h H1 Hlen) as E1.
  pose proof (hash_inline n2 h H2 Hlen) as E2.
  pose proof (decodeNode_serialize n1 Hwf1 ltac:(rewrite <- E1; lia)) as D1.
  pose proof (decodeNode_serialize n2 Hwf2 ltac:(rewrite <- E2; lia)) as D2.
  rewrite <- E1 in D1. rewrite <- E2 in D2. congruence.
Qed.

Lemma hash_small_injective_witness :
  Samples.leaf_a = LeafNode [2; 3; 4] (Rlp.Bytes [97]).
Proof.
  apply (hash_small_injective Samples.leaf_a (LeafNode [2; 3; 4] (Rlp.Bytes [97]))
           (serialize Samples.leaf_a)).
  - cbn [well_formed Samples.leaf_a]. repeat constructor; unfold is_nibble; lia.
  - cbn [well_formed]. repeat constructor; unfold is_nibble; lia.
  - reflexivity.
  - reflexivity.
  - vm_compute. lia.
Defined.

(** ** More on [compare] *)

Lemma verdict_small_hash (localTrie : Trie) (d : Descriptor.t) (n : TrieNode) :
  well_formed n -> hash (Some n) = Ok (Descriptor.hash d) ->
  (length (Descriptor.hash d) < 32)%nat -> length (root localTrie) = 32%nat ->
  verdict localTrie d = Ok IsMissing.
Proof.
  intros Hwf Hh Hlen Hroot. unfold verdict.
  rewrite is_root_match_false by (intros [_ E]; rewrite E in Hlen; lia).
  unfold classify. pose proof (hash_inline n _ Hh Hlen) as E. rewrite E in *.
  rewrite lookup_serialize by (exact Hwf || lia). reflexivity.
Qed.

(** X5. A descriptor that carries a node of less than 32 bytes in place
    of a hash is put on [missing] when the loop gets to it, and on no other
    array, also when the local trie holds that very node. *)
Theorem compare_small_hash_is_missing (localTrie : Trie) (pre post : list Descriptor.t)
        (d : Descriptor.t) (n : TrieNode) (c : Comparison) :
  well_formed n -> hash (Some n) = Ok (Descriptor.hash d) ->
  (length (Descriptor.hash d) < 32)%nat -> length (root localTrie) = 32%nat ->
  (forall d', In d' pre -> is_root_match localTrie d' = false) ->
  compare localTrie (pre ++ d :: post) = Ok c ->
  In d (missing c) /\ ~ In d (match_ c) /\ ~ In d (mismatch c).
Proof.
  intros Hwf Hh Hlen Hroot Hpre Hc.
  pose proof (verdict_small_hash localTrie d n Hwf Hh Hlen Hroot) as Hv.
  pose proof (compare_loop_sound localTrie _ _ _ (sound_empty localTrie) Hc) as Hs.
  destruct (compare_loop_reaches localTrie pre _ _ _ _ Hc Hpre) as (cl & Hcl & Hin).
  rewrite Hv in Hcl. injection Hcl as <-.
  split; [exact Hin|]. split; intros Hin'.
  - specialize (Hs IsMatch d Hin'). congruence.
  - specialize (Hs IsMismatch d Hin'). congruence.
Qed.

Lemma compare_small_hash_is_missing_witness :
  let d := Descriptor.mk 1 [0x10] (serialize Samples.leaf_a) (Some Samples.leaf_a) in
  let c := mkComparison [d] [] [] in
  In d (missing c) /\ ~ In d (match_ c) /\ ~ In d (mismatch c).
Proof.
  intros d c.
  apply (compare_small_hash_is_missing Samples.two [] [] d Samples.leaf_a c).
  - cbn [well_formed Samples.leaf_a]. repeat constructor; unfold is_nibble; lia.
  - reflexivity.
  - vm_compute. lia.
  - apply keccak256_length.
  - intros d' [].
  - vm_compute. reflexivity.
Defined.

Lemma compare_loop_order (localTrie : Trie) (remotes : list Descriptor.t) :
  forall acc c,
    compare_loop localTrie remotes acc = Ok c ->
    exists m1 m2 m3,
      missing c = missing acc ++ m1 /\ mismatch c = mismatch acc ++ m2 /\
      match_ c = match_ acc ++ m3 /\
      sublist m1 remotes /\ sublist m2 remotes /\ sublist m3 remotes /\
      (length m1 + length m2 + length m3 <= length remotes)%nat.
Proof.
  induction remotes as [|d rest IH]; intros acc c H.
  - simpl in H. injection H as <-. exists [], [], [].
    rewrite !app_nil_r. repeat split; (reflexivity || constructor || (simpl; lia)).
  - rewrite compare_loop_cons in H. destruct (is_root_match localTrie d).
    + replace c with (file IsMatch d acc) by congruence. exists [], [], [d].
      cbn [file missing mismatch match_]. rewrite !app_nil_r.
      repeat split; try reflexivity; try apply sublist_nil_l.
      * apply sublist_skip, sublist_nil_l.
      * simpl. lia.
    + destruct (classify localTrie d) as [cl|e]; [|discriminate]. cbn [Js.bind] in H.
      destruct (IH _ _ H) as (m1 & m2 & m3 & E1 & E2 & E3 & S1 & S2 & S3 & Hlen).
      destruct cl; cbn [file missing mismatch match_] in E1, E2, E3.
      * rewrite <- app_assoc in E3. exists m1, m2, (d :: m3).
        split; [exact E1|]. split; [exact E2|]. split; [exact E3|].
        split; [apply sublist_cons, S1|]. split; [apply sublist_cons, S2|].
        split; [apply sublist_skip, S3|]. simpl. lia.
      * rewrite <- app_assoc in E2. exists m1, (d :: m2), m3.
        split; [exact E1|]. split; [exact E2|]. split; [exact E3|].
        split; [apply sublist_cons, S1|]. split; [apply sublist_skip, S2|].
        split; [apply sublist_cons, S3|]. simpl. lia.
      * rewrite <- app_assoc in E1. exists (d :: m1), m2, m3.
        split; [exact E1|]. split; [exact E2|]. split; [exact E3|].
        split; [apply sublist_skip, S1|]. split; [apply sublist_cons, S2|].
        split; [apply sublist_cons, S3|]. simpl. lia.
Qed.

(** X6. [compare] keeps the order of its input and pushes a descriptor at
    most once: each of the three arrays is the input with some descriptors
    left out, and together they are no longer than the input. *)
Theorem compare_keeps_order (localTrie : Trie) (remotes : list Descriptor.t)
        (c : Comparison) :
  compare localTrie remotes = Ok c ->
  sublist (missing c) remotes /\ sublist (mismatch c) remotes /\
  sublist (match_ c) remotes /\
  (length (missing c) + length (mismatch c) + length (match_ c) <= length remotes)%nat.
Proof.
  intros H. destruct (compare_loop_order localTrie remotes _ _ H)
    as (m1 & m2 & m3 & E1 & E2 & E3 & S1 & S2 & S3 & Hlen).
  cbn [missing mismatch match_ app] in E1, E2, E3. rewrite E1, E2, E3. auto.
Qed.

Lemma compare_keeps_order_witness :
  let remotes := [other_descriptor; root_descriptor; other_descriptor] in
  let c := mkComparison [other_descriptor] [] [root_descriptor] in
  sublist (missing c) remotes /\ sublist (mismatch c) remotes /\
  sublist (match_ c) remotes /\
  (length (missing c) + length (mismatch c) + length (match_ c) <= length remotes)%nat.
Proof.
  intros remotes c. apply (compare_keeps_order Samples.large remotes c).
  vm_compute. reflexivity.
Defined.

(** ** More on [descend] *)

Lemma find_marked_None (exclude : list Value) (h : Buffer) :
  find_marked exclude h = Ok None -> ~ In (VBuffer h) exclude.
Proof.
  induction exclude as [|m rest IH]; intros H; [intros []|].
  cbn [find_marked] in H.
  destruct (isEqual m (VBuffer h)) as [eq|] eqn:E; [|discriminate]. cbn [Js.bind] in H.
  destruct eq; [discriminate|].
  intros [-> | Hin]; [|exact (IH H Hin)].
  rewrite isEqual_VBuffer in E. injection E as E.
  rewrite buffer_eqb_refl in E. discriminate.
Qed.

Lemma onFound_recorded (level : Z) (exclude : list Value) (nodes nodes' : list Descriptor.t)
      (node : TrieNode) (key : Nibbles) (currentLevel : Z) (next : option Z) :
  onFound level exclude nodes node key currentLevel = Ok (nodes', next) ->
  Forall (recorded level exclude) nodes -> Forall (recorded level exclude) nodes'.
Proof.
  unfold onFound. intros H Hall.
  destruct (hash (Some node)) as [h|] eqn:Hh; [|discriminate]. cbn [Js.bind] in H.
  destruct (find_marked exclude h) as [m|] eqn:Hm; [|discriminate]. cbn [Js.bind] in H.
  destruct m as [m|]; cbn [truthy] in H; [injection H as <- _; exact Hall|].
  destruct (currentLevel =? 0).
  - injection H as <- _. apply Forall_app. split; [exact Hall|].
    constructor; [|constructor]. split; [reflexivity|].
    exists node. cbn [Descriptor.node Descriptor.hash].
    split; [reflexivity|]. split; [exact Hh|]. apply find_marked_None, Hm.
  - destruct (isBranchNode node || isExtensionNode node); injection H as <- _; exact Hall.
Qed.

Lemma walk_recorded (level : Z) (exclude : list Value) (trie : Trie) (fuel : nat) :
  forall ref key currentLevel nodes,
    Forall (recorded level exclude) nodes ->
    Forall (recorded level exclude)
           (fst (walk fuel level exclude trie ref key currentLevel nodes)).
Proof.
  induction fuel as [|fuel IH]; intros ref key currentLevel nodes Hall; [exact Hall|].
  rewrite walk_S. destruct (lookupNode trie ref) as [node|]; [|exact Hall].
  destruct (onFound level exclude nodes node key currentLevel) as [[nodes' next]|] eqn:E;
    [|exact Hall].
  pose proof (onFound_recorded _ _ _ _ _ _ _ _ E Hall) as Hall'.
  destruct next as [childLevel|]; [|exact Hall'].
  clear E Hall. revert nodes' Hall'.
  induction (children node) as [|[ext childRef] cs IHcs]; intros acc Hacc; [exact Hacc|].
  cbn [each_child].
  pose proof (IH childRef (key ++ ext) childLevel acc Hacc) as Hstep.
  destruct (walk fuel level exclude trie childRef (key ++ ext) childLevel acc) as [acc' [e|]];
    [exact Hstep | apply IHcs, Hstep].
Qed.

(** X7. What [descend] returns, whatever the trie: the one sentinel
    descriptor of the empty trie at level 0, or descriptors that all have
    the level asked for, carry their node and the hash of that node, and
    whose hash is none of the excluded buffers. This holds as well for the
    part of a walk that [descend] returns after a node was missing. *)
Theorem descend_descriptors (fuel : nat) (trie : Trie) (level : Z) (exclude : list Value)
        (ds : list Descriptor.t) :
  descend fuel trie level exclude = Ok ds ->
  (level = 0 /\ root trie = emptyRoot /\ ds = [Descriptor.mk 0 [] emptyRoot None]) \/
  Forall (recorded level exclude) ds.
Proof.
  unfold descend, newWalk. intros H.
  pose proof (walk_recorded level exclude trie fuel (Rlp.Bytes (root trie)) [] level []
                (List.Forall_nil _)) as Hw.
  destruct (walk fuel level exclude trie (Rlp.Bytes (root trie)) [] level [])
    as [nodes err]. cbn [fst] in Hw.
  assert (Hwalk : (let (nodes0, o) := (nodes, err) in
                   match o with
                   | Some err0 =>
                       if includes (toString err0) "Missing node in DB"
                       then Ok nodes0 else Throw err0
                   | None => Ok nodes0
                   end) = Ok ds -> Forall (recorded level exclude) ds).
  { intros Hd. destruct err as [e|].
    - destruct (includes (toString e) "Missing node in DB"); [|discriminate].
      injection Hd as <-. exact Hw.
    - injection Hd as <-. exact Hw. }
  destruct (Z.eqb_spec level 0) as [Hl|Hl].
  - rewrite isEqual_VBuffer in H. cbn [Js.bind] in H.
    destruct (buffer_eqb emptyRoot (root trie)) eqn:Heq.
    + apply buffer_eqb_spec in Heq. left. rewrite <- Heq in H.
      injection H as <-. auto.
    + right. exact (Hwalk H).
  - cbn [Js.bind] in H. right. exact (Hwalk H).
Qed.

Lemma descend_descriptors_witness :
  (1 = 0 /\ root Samples.two = emptyRoot /\
   [Descriptor.mk 1 [0x23] (serialize Samples.leaf_a) (Some Samples.leaf_a)]
   = [Descriptor.mk 0 [] emptyRoot None]) \/
  Forall (recorded 1 [VBuffer (serialize Samples.leaf_b)])
         [Descriptor.mk 1 [0x23] (serialize Samples.leaf_a) (Some Samples.leaf_a)].
Proof.
  apply (descend_descriptors 2 Samples.two 1 [VBuffer (serialize Samples.leaf_b)]).
  vm_compute. reflexivity.
Defined.

Lemma descend_not_empty (fuel : nat) (trie : Trie) (level : Z) (exclude : list Value) :
  level <> 0 \/ root trie <> emptyRoot ->
  descend fuel trie level exclude
  = match newWalk fuel level exclude trie (root trie) with
    | (nodes, None) => Ok nodes
    | (nodes, Some err) =>
        if includes (toString err) "Missing node in DB" then Ok nodes else Throw err
    end.
Proof.
  intros H. unfold descend.
  destruct (Z.eqb_spec level 0) as [Hl|Hl]; [|reflexivity].
  rewrite isEqual_VBuffer. cbn [Js.bind].
  destruct (buffer_eqb emptyRoot (root trie)) eqn:Heq; [|reflexivity].
  apply buffer_eqb_spec in Heq. destruct H as [H|H]; [contradiction | congruence].
Qed.

(** X8. A trie whose root node is not in the store: [descend] takes the
    error of the store for an end of the walk and returns no descriptor,
    at every level; [leaves] throws that error. *)
Theorem missing_root_descend_and_leaves {Decoded : Type}
        (decode : Rlp.Item -> result Decoded) (normalizeUrl : string -> result string)
        (fuel : nat) (trie : Trie) (level : Z) (exclude : list Value)
        (from amount : Num) (parser : option (Decoded -> result Message.t))
        (startDatetime : Num) (href : option string) :
  db trie !! root trie = None -> root trie <> EMPTY_TRIE_ROOT ->
  descend (S fuel) trie level exclude = Ok [] /\
  leaves decode normalizeUrl (S fuel) trie from amount parser startDatetime href None
  = Throw (mkError missingNode).
Proof.
  intros Hdb Hroot. split.
  - rewrite descend_not_empty by (right; rewrite emptyRoot_is_EMPTY_TRIE_ROOT; exact Hroot).
    unfold newWalk. rewrite walk_S. cbn [lookupNode]. rewrite Hdb. reflexivity.
  - unfold leaves. rewrite walkTrieDfs_S.
    apply buffer_eqb_false in Hroot. rewrite Hroot.
    cbn [lookupNode]. rewrite Hdb. reflexivity.
Qed.

Lemma missing_root_descend_and_leaves_witness :
  descend 1 (mkTrie (keccak256 [1]) ∅) 2 [] = Ok [] /\
  leaves LeavesSample.decode LeavesSample.normalizeUrl 1 (mkTrie (keccak256 [1]) ∅)
         NNull NNull None NNull None None
  = Throw (mkError missingNode).
Proof.
  apply (missing_root_descend_and_leaves LeavesSample.decode LeavesSample.normalizeUrl
           0 (mkTrie (keccak256 [1]) ∅) 2 [] NNull NNull None NNull None).
  - reflexivity.
  - vm_compute. discriminate.
Defined.

Lemma find_marked_Some (exclude : list Value) (h : Buffer) :
  Forall (fun v => Array_isArray v = false) exclude ->
  In (VBuffer h) exclude ->
  exists m, find_marked exclude h = Ok (Some m).
Proof.
  induction 1 as [|m rest Hm _ IH]; intros Hin; [destruct Hin|].
  cbn [find_marked]. unfold isEqual. rewrite Hm. cbn [orb Array_isArray].
  destruct Hin as [-> | Hin].
  - cbn [Js.bind]. rewrite buffer_eqb_refl. eauto.
  - destruct m as [| |b| | |]; cbn [Js.bind]; try exact (IH Hin).
    destruct (buffer_eqb b h); [eauto | exact (IH Hin)].
Qed.

(** X9. Excluding the root cuts off everything: when the hash of the
    stored root node is among the excluded buffers, [descend] returns no
    descriptor at any level. *)
Theorem descend_excluded_root (fuel : nat) (trie : Trie) (level : Z)
        (exclude : list Value) (n : TrieNode) (h : Buffer) :
  lookupNode trie (Rlp.Bytes (root trie)) = Ok n ->
  hash (Some n) = Ok h ->
  Forall (fun v => Array_isArray v = false) exclude ->
  In (VBuffer h) exclude ->
  level <> 0 \/ root trie <> emptyRoot ->
  descend (S fuel) trie level exclude = Ok [].
Proof.
  intros Hn Hh Hbuf Hin Hne. rewrite descend_not_empty by exact Hne.
  unfold newWalk. rewrite walk_S, Hn. unfold onFound. rewrite Hh. cbn [Js.bind].
  destruct (find_marked_Some exclude h Hbuf Hin) as [m ->]. reflexivity.
Qed.

Lemma descend_excluded_root_witness :
  descend 3 Samples.two 1 [VBuffer (serialize Samples.fork)] = Ok [].
Proof.
  apply (descend_excluded_root 2 Samples.two 1 [VBuffer (serialize Samples.fork)]
           Samples.fork (serialize Samples.fork)).
  - vm_compute. reflexivity.
  - vm_compute. reflexivity.
  - repeat constructor.
  - left. reflexivity.
  - left. discriminate.
Defined.

Lemma find_marked_array (pre post items : list Value) (h : Buffer) :
  Forall (fun v => Array_isArray v = false) pre -> ~ In (VBuffer h) pre ->
  find_marked (pre ++ VArray items :: post) h = throw "Can only compare buffers".
Proof.
  induction 1 as [|m pre Hm _ IH]; intros Hnotin; cbn [app find_marked].
  - reflexivity.
  - unfold isEqual at 1. rewrite Hm. cbn [orb Array_isArray].
    assert (Hrest : ~ In (VBuffer h) pre) by (intros Hin; apply Hnotin; right; exact Hin).
    destruct m as [| |b| | |]; cbn [Js.bind]; try exact (IH Hrest).
    assert (Hb : buffer_eqb b h = false).
    { apply buffer_eqb_false. intros ->. apply Hnotin. left. reflexivity. }
    rewrite Hb. exact (IH Hrest).
Qed.

Lemma find_marked_returns (exclude : list Value) (h : Buffer) :
  Forall (fun v => Array_isArray v = false) exclude ->
  exists marked, find_marked exclude h = Ok marked.
Proof.
  induction 1 as [|m rest Hm _ [marked IH]]; cbn [find_marked]; [eauto|].
  unfold isEqual. rewrite Hm. cbn [orb Array_isArray].
  destruct m as [| |b| | |]; cbn [Js.bind]; eauto.
  destruct (buffer_eqb b h); eauto.
Qed.

(** X10. The guard of [isEqual] in the callback of [descend]. The
    callback looks through [exclude] from the front for the hash of the
    node it was handed. When it meets an array (a raw node, not a hash)
    before it meets that hash, it throws "Can only compare buffers",
    whatever the node, the path and the level; when [exclude] holds no
    array, it does not throw. *)
Theorem onFound_exclude_array (level : Z) (pre items post exclude : list Value)
        (nodes : list Descriptor.t) (node : TrieNode) (key : Nibbles) (currentLevel : Z) :
  (Forall (fun v => Array_isArray v = false) pre ->
   (forall h, hash (Some node) = Ok h -> ~ In (VBuffer h) pre) ->
   onFound level (pre ++ VArray items :: post) nodes node key currentLevel
   = throw "Can only compare buffers") /\
  (Forall (fun v => Array_isArray v = false) exclude ->
   exists outcome, onFound level exclude nodes node key currentLevel = Ok outcome).
Proof.
  split.
  - intros Hpre Hnotin. unfold onFound. rewrite hash_Some. cbn [Js.bind].
    rewrite find_marked_array; [reflexivity | exact Hpre | apply Hnotin, hash_Some].
  - intros Hall. unfold onFound. rewrite hash_Some. cbn [Js.bind].
    match goal with
    | |- context [find_marked exclude ?h] =>
        destruct (find_marked_returns exclude h Hall) as [marked ->]
    end.
    cbn [Js.bind].
    destruct (truthy marked); [eauto|].
    destruct (currentLevel =? 0); [eauto|].
    destruct (isBranchNode node || isExtensionNode node); eauto.
Qed.

Lemma onFound_exclude_array_witness :
  onFound 1 ([VBuffer [1]] ++ VArray [] :: []) [] Samples.leaf_a [1] 0
  = throw "Can only compare buffers" /\
  exists outcome, onFound 1 [VBuffer [1]] [] Samples.leaf_a [1] 0 = Ok outcome.
Proof.
  pose proof (onFound_exclude_array 1 [VBuffer [1]] [] [] [VBuffer [1]] []
                Samples.leaf_a [1] 0) as [Hthrows Hreturns].
  split.
  - apply Hthrows; [repeat constructor|].
    intros h Hh [E|[]]. vm_compute in Hh. congruence.
  - apply Hreturns. repeat constructor.
Defined.

(** ** [descend], then [compare] *)

(** X30. A trie asked about its own root. On a trie that stores its root
    node under the root hash, [descend] at level 0 returns one descriptor,
    and [compare] of the same trie with that descriptor puts it on [match]
    when the root node has 32 bytes or more, on [missing] when it has
    less: a trie with a small root node reports its own root as missing. *)
Theorem compare_own_root (fuel : nat) (trie : Trie) (n : TrieNode) :
  db trie !! root trie = Some (serialize n) ->
  root trie = keccak256 (serialize n) ->
  decodeNode (serialize n) = Ok n ->
  root trie <> emptyRoot ->
  exists d,
    descend (S fuel) trie 0 [] = Ok [d] /\
    Descriptor.node d = Some n /\
    compare trie [d]
    = Ok (if (length (serialize n) <? 32)%nat
          then mkComparison [d] [] [] else mkComparison [] [] [d]).
Proof.
  intros Hdb Hroot Hdec Hne.
  assert (Hn : lookupNode trie (Rlp.Bytes (root trie)) = Ok n)
    by (cbn [lookupNode]; rewrite Hdb; exact Hdec).
  eexists. split; [|split].
  - rewrite descend_not_empty by (right; exact Hne).
    unfold newWalk. rewrite walk_S, Hn.
    rewrite (onFound_records 0 [] [] n [] _ (hash_Some n) eq_refl). reflexivity.
  - reflexivity.
  - unfold compare. rewrite compare_loop_cons. unfold is_root_match.
    cbn [Descriptor.level Descriptor.hash Descriptor.key Z.eqb andb].
    destruct (length (serialize n) <? 32)%nat eqn:Hsmall.
    + apply Nat.ltb_lt in Hsmall.
      assert (Hdiff : buffer_eqb (root trie) (serialize n) = false).
      { apply buffer_eqb_false. intros E. apply (f_equal (@length Z)) in E.
        rewrite Hroot, keccak256_length in E. lia. }
      rewrite Hdiff. unfold classify, lookup.
      cbn [Descriptor.hash Descriptor.key]. rewrite Hdec. reflexivity.
    + rewrite <- Hroot, buffer_eqb_refl. reflexivity.
Qed.

Lemma compare_own_root_witness :
  exists d,
    descend 1 Samples.two 0 [] = Ok [d] /\
    Descriptor.node d = Some Samples.fork /\
    compare Samples.two [d]
    = Ok (if (length (serialize Samples.fork) <? 32)%nat
          then mkComparison [d] [] [] else mkComparison [] [] [d]).
Proof.
  apply (compare_own_root 0 Samples.two Samples.fork).
  - vm_compute. reflexivity.
  - reflexivity.
  - vm_compute. reflexivity.
  - vm_compute. discriminate.
Defined.

(** ** [upvoteID] *)

Lemma append_nil (s : string) : "" +:+ s = s.
Proof. reflexivity. Qed.

Lemma append_cons (c : Ascii.ascii) (s t : string) :
  String c s +:+ t = String c (s +:+ t).
Proof. reflexivity. Qed.

Lemma bar_splits (a1 a2 r1 r2 : string) :
  no_bar a1 = true -> no_bar a2 = true ->
  a1 +:+ "|" +:+ r1 = a2 +:+ "|" +:+ r2 -> a1 = a2 /\ r1 = r2.
Proof.
  revert a2. induction a1 as [|c1 a1 IH]; intros [|c2 a2] H1 H2 E;
    rewrite ?append_cons, ?append_nil in E; cbn [no_bar] in *.
  - injection E as ->. auto.
  - injection E as <- _. discriminate.
  - injection E as -> _. discriminate.
  - injection E as -> E. apply andb_prop in H1 as [_ H1]. apply andb_prop in H2 as [_ H2].
    destruct (IH a2 H1 H2 E) as [-> ->]. auto.
Qed.

(** X11. The key of the dedup store tells its three parts apart: two calls
    of [upvoteID] that give the same key had the same canonical address,
    the same normalised link and the same type, as long as no address and
    no normalised link holds the separator. *)
Theorem upvoteID_injective (getAddress normalizeUrl : string -> result string)
        (identity1 link1 type1 identity2 link2 type2 a1 u1 a2 u2 : string) :
  getAddress identity1 = Ok a1 -> normalizeUrl link1 = Ok u1 ->
  getAddress identity2 = Ok a2 -> normalizeUrl link2 = Ok u2 ->
  no_bar a1 = true -> no_bar u1 = true -> no_bar a2 = true -> no_bar u2 = true ->
  upvoteID getAddress normalizeUrl identity1 link1 type1
  = upvoteID getAddress normalizeUrl identity2 link2 type2 ->
  a1 = a2 /\ u1 = u2 /\ type1 = type2.
Proof.
  intros Ha1 Hu1 Ha2 Hu2 Ba1 Bu1 Ba2 Bu2. unfold upvoteID.
  rewrite Ha1, Hu1, Ha2, Hu2. cbn [Js.bind]. intros [= E].
  apply bar_splits in E as [-> E]; [|assumption..].
  apply bar_splits in E as [-> ->]; auto.
Qed.

Lemma upvoteID_injective_witness :
  "0xAb" = "0xAb" /\ "https://x.example" = "https://x.example" /\ "amplify" = "amplify".
Proof.
  apply (upvoteID_injective AddSample.getAddress AddSample.normalizeUrl
           "0xAb" "https://x.example" "amplify" "0xAb" "https://x.example" "amplify");
    reflexivity.
Defined.

(** Without that condition it does not: a link that holds the separator
    gives the key of another link and type. *)
Example upvoteID_separator_in_link :
  upvoteID AddSample.getAddress AddSample.normalizeUrl "0xAb" "https://x.example/a|b" "c"
  = upvoteID AddSample.getAddress AddSample.normalizeUrl "0xAb" "https://x.example/a" "b|c".
Proof. reflexivity. Qed.

(** ** More on [add] *)

Section MoreAddProperties.

Context {Allowlist Delegations Metadb : Type}.
Variable verify : Message.t -> result string.
Variable eligible : Allowlist -> Delegations -> string -> option string.
Variable getAddress : string -> result string.
Variable normalizeUrl : string -> result string.
Variable toDigest : Message.t -> result (Buffer * string).
Variable put : Trie -> Buffer -> Buffer -> result unit * Trie.
Variable db_get : Metadb -> string -> result (option bool).
Variable db_put : Metadb -> string -> bool -> result unit * Metadb.
Variable db_remove : Metadb -> string -> result bool * Metadb.
Variable JSON_stringify : Message.t -> string.
Variable messages_name : string.

Let add' := add verify eligible getAddress normalizeUrl toDigest put
                db_get db_put db_remove JSON_stringify messages_name.

(** X12. What an [add] that throws has not done: it has published
    nothing, and it has not written the trie, unless it was [trie.put]
    itself that threw, in which case the trie is as that call left it. *)
Theorem add_failure_effects (env : Env) (nowMs : Z) (st : State) (message : Message.t)
        (libp2p synching : bool) (allowlist : Allowlist) (delegations : Delegations)
        (e : Error) :
  fst (add' env nowMs st message libp2p allowlist delegations synching) = Throw e ->
  let st' := snd (add' env nowMs st message libp2p allowlist delegations synching) in
  published st' = published st /\
  (trie st' = trie st \/
   exists canonical index err,
     toDigest message = Ok (canonical, index) /\
     put (trie st) (Buffer_from_hex index) canonical = (Throw err, trie st')).
Proof.
  unfold add', add.
  destruct (verify message) as [address|]; [|cbn; auto].
  destruct (eligible allowlist delegations address) as [identity_|]; [|cbn; auto].
  destruct (String.eqb identity_ ""); [cbn; auto|].
  destruct (lt_nan _ _); [cbn; auto|].
  destruct (negb synching && ge_max _ _ _); [cbn; auto|].
  destruct (upvoteID _ _ _ _ _) as [key|]; [|cbn; auto].
  destruct (passes db_get db_put (metadb st) key identity_) as [[legit|] metadb1];
    [|cbn; auto].
  destruct (negb legit); [cbn; auto|].
  destruct (toDigest message) as [[canonical index]|]; [|cbn; auto].
  cbn [trie].
  destruct (put (trie st) (Buffer_from_hex index) canonical) as [[[]|err] trie1] eqn:Hput.
  - destruct libp2p; discriminate.
  - destruct (db_remove metadb1 key) as [[result|] metadb2]; cbn; intros _;
      (split; [reflexivity|]); right; exists canonical, index, err; auto.
Qed.

(** X13. What an [add] that returns has done: the signer was eligible, the
    timestamp within the bounds (the upper one only when not synching),
    the key of the message was not in the dedup store and was written to
    it, the trie is what [put] made of it, and the canonical message was
    published once if a libp2p instance was passed, else not at all. *)
Theorem add_accepted (env : Env) (nowMs : Z) (st st' : State) (message : Message.t)
        (libp2p synching : bool) (allowlist : Allowlist) (delegations : Delegations) :
  add' env nowMs st message libp2p allowlist delegations synching = (Ok tt, st') ->
  exists address identity_ key canonical index,
    verify message = Ok address /\
    eligible allowlist delegations address = Some identity_ /\ identity_ <> "" /\
    lt_nan (Message.timestamp message) (MIN_TIMESTAMP_SECS env) = false /\
    (synching = true \/
     ge_max (Message.timestamp message) nowMs (MAX_TIMESTAMP_DELTA_SECS env) = false) /\
    upvoteID getAddress normalizeUrl identity_ (Message.href message) (Message.type message)
    = Ok key /\
    db_get (metadb st) key = Ok None /\
    toDigest message = Ok (canonical, index) /\
    put (trie st) (Buffer_from_hex index) canonical = (Ok tt, trie st') /\
    db_put (metadb st) key true = (Ok tt, metadb st') /\
    published st'
    = published st ++ (if libp2p then [(messages_name, canonical)] else []).
Proof.
  unfold add', add.
  destruct (verify message) as [address|] eqn:Hv; [|discriminate].
  destruct (eligible allowlist delegations address) as [identity_|] eqn:He; [|discriminate].
  destruct (String.eqb_spec identity_ "") as [|Hid]; [discriminate|].
  destruct (lt_nan _ _) eqn:Hmin; [discriminate|].
  destruct (negb synching && ge_max _ _ _) eqn:Hmax; [discriminate|].
  destruct (upvoteID _ _ _ _ _) as [key|] eqn:Hkey; [|discriminate].
  unfold passes.
  destruct (db_get (metadb st) key) as [found|] eqn:Hget; [|discriminate].
  destruct (db_put (metadb st) key true) as [[[]|] metadb1] eqn:Hdb; [|discriminate].
  destruct found as [v|]; cbn [negb]; [discriminate|].
  destruct (toDigest message) as [[canonical index]|] eqn:Hd; [|discriminate].
  cbn [trie metadb published].
  destruct (put _ _ _) as [[[]|] trie'] eqn:Hput;
    [|destruct (db_remove metadb1 key) as [[?|] ?]; discriminate].
  intros H. exists address, identity_, key, canonical, index.
  assert (Hs : synching = true \/
               ge_max (Message.timestamp message) nowMs (MAX_TIMESTAMP_DELTA_SECS env) = false).
  { destruct synching; [left; reflexivity | right; exact Hmax]. }
  destruct libp2p; cbn [negb] in H; injection H as <-; cbn [trie metadb published];
    rewrite ?app_nil_r; repeat split; auto.
Qed.

(** X14. A message that was accepted is refused from then on, on a store
    that reads back a key it has written and is not changed by writing
    that key once more: every later [add] of the message on the state the
    first one left throws, at any time and with or without the network or
    the synching flag, and leaves that state as it is. *)
Theorem add_twice (env : Env) (nowMs nowMs' : Z) (st st' : State) (message : Message.t)
        (libp2p libp2p' synching synching' : bool)
        (allowlist : Allowlist) (delegations : Delegations) :
  (forall db k db', db_put db k true = (Ok tt, db') ->
                    exists v, db_get db' k = Ok (Some v)) ->
  (forall db k db', db_put db k true = (Ok tt, db') -> db_put db' k true = (Ok tt, db')) ->
  add' env nowMs st message libp2p allowlist delegations synching = (Ok tt, st') ->
  exists e,
    add' env nowMs' st' message libp2p' allowlist delegations synching' = (Throw e, st').
Proof.
  intros Hread Hsame. unfold add', add.
  destruct (verify message) as [address|]; [|discriminate].
  destruct (eligible allowlist delegations address) as [identity_|]; [|discriminate].
  destruct (String.eqb identity_ ""); [discriminate|].
  destruct (lt_nan _ _); [discriminate|].
  destruct (negb synching && ge_max _ _ _); [discriminate|].
  destruct (upvoteID _ _ _ _ _) as [key|]; [|discriminate].
  unfold passes.
  destruct (db_get (metadb st) key) as [found|]; [|discriminate].
  destruct (db_put (metadb st) key true) as [[[]|] metadb1] eqn:Hdb; [|discriminate].
  destruct found as [v|]; cbn [negb]; [discriminate|].
  destruct (toDigest message) as [[canonical index]|]; [|discriminate].
  cbn [trie metadb published].
  destruct (put _ _ _) as [[[]|] trie'];
    [|destruct (db_remove metadb1 key) as [[?|] ?]; discriminate].
  intros H.
  assert (Hmeta : metadb st' = metadb1)
    by (destruct libp2p; cbn [negb] in H; injection H as <-; reflexivity).
  clear H.
  destruct (negb synching' && ge_max _ _ _); [eexists; reflexivity|].
  rewrite Hmeta. destruct (Hread _ _ _ Hdb) as [v ->]. rewrite (Hsame _ _ _ Hdb).
  cbn [negb]. rewrite <- Hmeta. destruct st'. eexists; reflexivity.
Qed.

(** X15. The compensation. When the checks pass, the key of the message is
    new to the dedup store and [trie.put] throws, [add] calls
    [metadb.remove] for the key that [passes] wrote and throws an error
    that says whether the removal found it. Nothing is published; the trie
    is as the failed [put] left it and the dedup store as [remove] left
    it. So the state is the state before the call when the failed [put]
    changed nothing and [remove] undid the write of [passes], and not
    otherwise. *)
Theorem add_rolls_back (env : Env) (nowMs : Z) (st : State) (message : Message.t)
        (libp2p synching : bool) (allowlist : Allowlist) (delegations : Delegations)
        (address identity_ key index : string) (canonical : Buffer) (err : Error)
        (metadb1 metadb2 : Metadb) (trie1 : Trie) (result : bool) :
  verify message = Ok address ->
  eligible allowlist delegations address = Some identity_ -> identity_ <> "" ->
  lt_nan (Message.timestamp message) (MIN_TIMESTAMP_SECS env) = false ->
  synching = true \/
  ge_max (Message.timestamp message) nowMs (MAX_TIMESTAMP_DELTA_SECS env) = false ->
  upvoteID getAddress normalizeUrl identity_ (Message.href message) (Message.type message)
  = Ok key ->
  db_get (metadb st) key = Ok None ->
  db_put (metadb st) key true = (Ok tt, metadb1) ->
  toDigest message = Ok (canonical, index) ->
  put (trie st) (Buffer_from_hex index) canonical = (Throw err, trie1) ->
  db_remove metadb1 key = (Ok result, metadb2) ->
  add' env nowMs st message libp2p allowlist delegations synching
  = (throw ("trie.put failed with " +:+ dq +:+ toString err +:+ dq +:+
            (if result then ". Successfully rolled back constraint"
             else ". Tried to roll back constraint but failed")),
     mkState trie1 metadb2 (published st)) /\
  (mkState trie1 metadb2 (published st) = st <-> trie1 = trie st /\ metadb2 = metadb st).
Proof.
  intros Hv He Hid Hmin Hmax Hkey Hget Hdb Hd Hput Hrm. split.
  - unfold add', add. rewrite Hv, He.
    destruct (String.eqb_spec identity_ "") as [|_]; [contradiction|].
    rewrite Hmin.
    assert (Hs : negb synching &&
                 ge_max (Message.timestamp message) nowMs (MAX_TIMESTAMP_DELTA_SECS env)
                 = false)
      by (destruct Hmax as [-> | ->]; [reflexivity | apply andb_false_r]).
    rewrite Hs, Hkey. unfold passes. rewrite Hget, Hdb. cbn [negb]. rewrite Hd.
    cbn [trie metadb published]. rewrite Hput, Hrm. reflexivity.
  - destruct st as [t m p]. cbn [trie metadb published].
    split; [intros [= -> ->]; auto | intros [-> ->]; reflexivity].
Qed.

(** X27. Synching only lifts a check: a message that [add] accepts when
    not synching it accepts when synching, at any time, with the same
    state afterwards. *)
Theorem add_synching_accepts (env : Env) (nowMs nowMs' : Z) (st st' : State)
        (message : Message.t) (libp2p : bool)
        (allowlist : Allowlist) (delegations : Delegations) :
  add' env nowMs st message libp2p allowlist delegations false = (Ok tt, st') ->
  add' env nowMs' st message libp2p allowlist delegations true = (Ok tt, st').
Proof.
  unfold add', add.
  destruct (verify message) as [address|]; [|discriminate].
  destruct (eligible allowlist delegations address) as [identity_|]; [|discriminate].
  destruct (String.eqb identity_ ""); [discriminate|].
  destruct (lt_nan _ _); [discriminate|].
  cbn [negb andb].
  destruct (ge_max _ nowMs _); [discriminate|].
  intros H. exact H.
Qed.

End MoreAddProperties.

Lemma add_failure_effects_witness :
  let st' := snd (add AddSample.verify AddSample.eligible AddSample.getAddress
                      AddSample.normalizeUrl AddSample.toDigest AddSample2.broken_put
                      LmdbSample.get LmdbSample.put LmdbSample.remove (fun _ => "{}")
                      "messages" AddSample.env AddSample2.now AddSample.start
                      AddSample2.recent true tt tt false) in
  published st' = published AddSample.start /\
  (trie st' = trie AddSample.start \/
   exists canonical index err,
     AddSample.toDigest AddSample2.recent = Ok (canonical, index) /\
     AddSample2.broken_put (trie AddSample.start) (Buffer_from_hex index) canonical
     = (Throw err, trie st')).
Proof.
  eapply (add_failure_effects AddSample.verify AddSample.eligible AddSample.getAddress
            AddSample.normalizeUrl AddSample.toDigest AddSample2.broken_put
            LmdbSample.get LmdbSample.put LmdbSample.remove).
  vm_compute. reflexivity.
Defined.

Lemma add_accepted_witness :
  let st := AddSample.start in
  let st' := snd (AddSample2.add AddSample.env AddSample2.now st AddSample2.recent
                                 true tt tt false) in
  exists address identity_ key canonical index,
    AddSample.verify AddSample2.recent = Ok address /\
    AddSample.eligible tt tt address = Some identity_ /\ identity_ <> "" /\
    lt_nan (Message.timestamp AddSample2.recent) (MIN_TIMESTAMP_SECS AddSample.env) = false /\
    (false = true \/
     ge_max (Message.timestamp AddSample2.recent) AddSample2.now
            (MAX_TIMESTAMP_DELTA_SECS AddSample.env) = false) /\
    upvoteID AddSample.getAddress AddSample.normalizeUrl identity_
             (Message.href AddSample2.recent) (Message.type AddSample2.recent)
    = Ok key /\
    LmdbSample.get (metadb st) key = Ok None /\
    AddSample.toDigest AddSample2.recent = Ok (canonical, index) /\
    AddSample.put (trie st) (Buffer_from_hex index) canonical = (Ok tt, trie st') /\
    LmdbSample.put (metadb st) key true = (Ok tt, metadb st') /\
    published st' = published st ++ (if true then [("messages", canonical)] else []).
Proof.
  intros st st'.
  apply (add_accepted AddSample.verify AddSample.eligible AddSample.getAddress
           AddSample.normalizeUrl AddSample.toDigest AddSample.put
           LmdbSample.get LmdbSample.put LmdbSample.remove (fun _ => "{}")
           "messages" AddSample.env AddSample2.now st st' AddSample2.recent true false tt tt).
  vm_compute. reflexivity.
Defined.

(** The sample store reads back what it wrote, and writing a key once
    more does not change it. *)
Lemma LmdbSample_reads_back (db : gmap string bool) (k : string) (db' : gmap string bool) :
  LmdbSample.put db k true = (Ok tt, db') -> exists v, LmdbSample.get db' k = Ok (Some v).
Proof.
  unfold LmdbSample.put, LmdbSample.get. destruct (LmdbSample.fits k); [|discriminate].
  intros [= <-]. rewrite lookup_insert_eq. eauto.
Qed.

Lemma LmdbSample_writes_once (db : gmap string bool) (k : string) (db' : gmap string bool) :
  LmdbSample.put db k true = (Ok tt, db') -> LmdbSample.put db' k true = (Ok tt, db').
Proof.
  unfold LmdbSample.put. destruct (LmdbSample.fits k); [|discriminate].
  intros [= <-]. rewrite insert_insert_eq. reflexivity.
Qed.

Lemma add_twice_witness :
  let st' := snd (AddSample2.add AddSample.env AddSample2.now AddSample.start
                                 AddSample2.recent true tt tt false) in
  exists e,
    AddSample2.add AddSample.env (AddSample2.now + 5000) st' AddSample2.recent
                   false tt tt true
    = (Throw e, st').
Proof.
  intros st'. unfold AddSample2.add.
  apply (add_twice AddSample.verify AddSample.eligible AddSample.getAddress
           AddSample.normalizeUrl AddSample.toDigest AddSample.put
           LmdbSample.get LmdbSample.put LmdbSample.remove (fun _ => "{}")
           "messages" AddSample.env AddSample2.now (AddSample2.now + 5000)
           AddSample.start st' AddSample2.recent true false false true tt tt).
  - exact LmdbSample_reads_back.
  - exact LmdbSample_writes_once.
  - vm_compute. reflexivity.
Defined.

Lemma add_rolls_back_witness :
  let trie1 := snd (AddSample2.broken_put (trie AddSample.start) (Buffer_from_hex "0012") [0x61]) in
  add AddSample.verify AddSample.eligible AddSample.getAddress AddSample.normalizeUrl
      AddSample.toDigest AddSample2.broken_put
      LmdbSample.get LmdbSample.put AddSample2.broken_remove (fun _ => "{}") "messages"
      AddSample.env AddSample2.now AddSample.start AddSample2.recent true tt tt false
  = (throw ("trie.put failed with " +:+ dq +:+ toString (mkError "disk full") +:+ dq +:+
            (if false then ". Successfully rolled back constraint"
             else ". Tried to roll back constraint but failed")),
     mkState trie1
             (<["0xee324c588ceF1BF1c1360883E4318834af66366d|https://x.example|submit" := true]>
                (∅ : gmap string bool))
             (published AddSample.start)) /\
  (mkState trie1
           (<["0xee324c588ceF1BF1c1360883E4318834af66366d|https://x.example|submit" := true]>
              (∅ : gmap string bool))
           (published AddSample.start) = AddSample.start <->
   trie1 = trie AddSample.start /\
   <["0xee324c588ceF1BF1c1360883E4318834af66366d|https://x.example|submit" := true]>
     (∅ : gmap string bool) = metadb AddSample.start).
Proof.
  intros trie1.
  eapply (add_rolls_back AddSample.verify AddSample.eligible AddSample.getAddress
           AddSample.normalizeUrl AddSample.toDigest AddSample2.broken_put
           LmdbSample.get LmdbSample.put AddSample2.broken_remove (fun _ => "{}") "messages"
           AddSample.env AddSample2.now AddSample.start AddSample2.recent true false tt tt
           "0xee324c588ceF1BF1c1360883E4318834af66366d"
           "0xee324c588ceF1BF1c1360883E4318834af66366d"
           "0xee324c588ceF1BF1c1360883E4318834af66366d|https://x.example|submit"
           "0012" [0x61] (mkError "disk full")).
  - reflexivity.
  - reflexivity.
  - discriminate.
  - reflexivity.
  - right. reflexivity.
  - reflexivity.
  - vm_compute. reflexivity.
  - vm_compute. reflexivity.
  - reflexivity.
  - reflexivity.
  - reflexivity.
Defined.

(** With a store that removes what it holds, the same failed write leaves
    the dedup store as it was, and the trie with the node that the write
    had stored before it threw. *)
Example add_rolled_back_after_partial_put :
  add AddSample.verify AddSample.eligible AddSample.getAddress AddSample.normalizeUrl
      AddSample.toDigest AddSample2.broken_put
      LmdbSample.get LmdbSample.put LmdbSample.remove (fun _ => "{}") "messages"
      AddSample.env AddSample2.now AddSample.start AddSample2.recent true tt tt false
  = (throw ("trie.put failed with " +:+ dq +:+ "Error: disk full" +:+ dq +:+
            ". Successfully rolled back constraint"),
     mkState (mkTrie EMPTY_TRIE_ROOT {[ keccak256 [0x61] := [0x61] ]})
             (metadb AddSample.start) (published AddSample.start)).
Proof. vm_compute. reflexivity. Qed.

Lemma add_synching_accepts_witness :
  let st' := snd (AddSample2.add AddSample.env AddSample2.now AddSample.start
                                 AddSample2.recent true tt tt false) in
  AddSample2.add AddSample.env 0 AddSample.start AddSample2.recent true tt tt true
  = (Ok tt, st').
Proof.
  intros st'. unfold AddSample2.add.
  apply (add_synching_accepts AddSample.verify AddSample.eligible AddSample.getAddress
           AddSample.normalizeUrl AddSample.toDigest AddSample.put
           LmdbSample.get LmdbSample.put LmdbSample.remove (fun _ => "{}")
           "messages" AddSample.env AddSample2.now 0).
  vm_compute. reflexivity.
Defined.

(** ** More on [leaves] *)

Section MoreLeavesProperties.

Context {Decoded : Type}.
Variable decode : Rlp.Item -> result Decoded.
Variable normalizeUrl : string -> result string.

(** The loop without a parser, from any point on: what is left to pass
    over is [from - pointer], what is left to take is [amount] less the
    length of the array. *)
Lemma leaves_loop_unfiltered (from amount : Num) (startDatetime : Num)
      (href : option string) (g : Gen (TrieNode * Nibbles)) :
  returns g = true ->
  forall (vals : list Decoded) (pointer : Z) (nodes : list (LeafItem (Decoded := Decoded))),
    Forall2 (fun y v => decode (value (fst y)) = Ok v) (yields g) vals ->
    0 <= pointer ->
    leaves_loop decode normalizeUrl from amount None startDatetime href g pointer nodes
    = Ok (nodes ++
          map Raw
            (limited (match amount with
                      | NInt k => NInt (k - Z.of_nat (length nodes))
                      | other => other
                      end)
                     (skipn (match from with
                             | NInt n => Z.to_nat (n - pointer)
                             | _ => O
                             end) vals))).
Proof.
  induction g as [|[node key] rest IH|e]; intros Hret vals pointer nodes Hvals Hp;
    cbn [returns yields] in *; [| |discriminate].
  - inversion Hvals; subst. cbn [leaves_loop].
    rewrite skipn_nil. destruct amount as [| |k]; cbn [limited map];
      rewrite ?firstn_nil, app_nil_r; reflexivity.
  - inversion Hvals as [|y v ys vals' Hv Hrest]; subst. cbn [fst] in Hv.
    cbn [leaves_loop].
    destruct amount as [| |k]; cbn [Number_isInteger andb].
    + destruct from as [| |n]; cbn [Number_isInteger andb].
      * rewrite Hv. cbn [Js.bind]. rewrite (IH Hret vals' (pointer + 1)) by (assumption || lia).
        cbn [limited skipn map]. rewrite <- app_assoc. reflexivity.
      * rewrite Hv. cbn [Js.bind]. rewrite (IH Hret vals' (pointer + 1)) by (assumption || lia).
        cbn [limited skipn map]. rewrite <- app_assoc. reflexivity.
      * destruct (Z.leb_spec (pointer + 1) n) as [Hle|Hgt].
        -- rewrite (IH Hret vals' (pointer + 1)) by (assumption || lia).
           replace (Z.to_nat (n - pointer)) with (S (Z.to_nat (n - (pointer + 1)))) by lia.
           reflexivity.
        -- rewrite Hv. cbn [Js.bind].
           rewrite (IH Hret vals' (pointer + 1)) by (assumption || lia).
           replace (Z.to_nat (n - pointer)) with O by lia.
           replace (Z.to_nat (n - (pointer + 1))) with O by lia.
           cbn [limited skipn map]. rewrite <- app_assoc. reflexivity.
    + destruct from as [| |n]; cbn [Number_isInteger andb].
      * rewrite Hv. cbn [Js.bind]. rewrite (IH Hret vals' (pointer + 1)) by (assumption || lia).
        cbn [limited skipn map]. rewrite <- app_assoc. reflexivity.
      * rewrite Hv. cbn [Js.bind]. rewrite (IH Hret vals' (pointer + 1)) by (assumption || lia).
        cbn [limited skipn map]. rewrite <- app_assoc. reflexivity.
      * destruct (Z.leb_spec (pointer + 1) n) as [Hle|Hgt].
        -- rewrite (IH Hret vals' (pointer + 1)) by (assumption || lia).
           replace (Z.to_nat (n - pointer)) with (S (Z.to_nat (n - (pointer + 1)))) by lia.
           reflexivity.
        -- rewrite Hv. cbn [Js.bind].
           rewrite (IH Hret vals' (pointer + 1)) by (assumption || lia).
           replace (Z.to_nat (n - pointer)) with O by lia.
           replace (Z.to_nat (n - (pointer + 1))) with O by lia.
           cbn [limited skipn map]. rewrite <- app_assoc. reflexivity.
    + destruct (Z.leb_spec k (Z.of_nat (length nodes))) as [Hfull|Hroom].
      { cbn [limited]. replace (Z.to_nat (k - Z.of_nat (length nodes))) with O by lia.
        cbn [firstn map]. rewrite app_nil_r. reflexivity. }
      assert (Hpush : forall x : LeafItem (Decoded := Decoded),
                 Z.to_nat (k - Z.of_nat (length nodes))
                 = S (Z.to_nat (k - Z.of_nat (length (nodes ++ [x])))))
        by (intros x; rewrite length_app; simpl; lia).
      destruct from as [| |n]; cbn [Number_isInteger andb].
      * rewrite Hv. cbn [Js.bind]. rewrite (IH Hret vals' (pointer + 1)) by (assumption || lia).
        cbn [limited skipn]. rewrite (Hpush (Raw v)). cbn [firstn map].
        rewrite <- app_assoc. reflexivity.
      * rewrite Hv. cbn [Js.bind]. rewrite (IH Hret vals' (pointer + 1)) by (assumption || lia).
        cbn [limited skipn]. rewrite (Hpush (Raw v)). cbn [firstn map].
        rewrite <- app_assoc. reflexivity.
      * destruct (Z.leb_spec (pointer + 1) n) as [Hle|Hgt].
        -- rewrite (IH Hret vals' (pointer + 1)) by (assumption || lia).
           replace (Z.to_nat (n - pointer)) with (S (Z.to_nat (n - (pointer + 1)))) by lia.
           reflexivity.
        -- rewrite Hv. cbn [Js.bind].
           rewrite (IH Hret vals' (pointer + 1)) by (assumption || lia).
           replace (Z.to_nat (n - pointer)) with O by lia.
           replace (Z.to_nat (n - (pointer + 1))) with O by lia.
           cbn [limited skipn]. rewrite (Hpush (Raw v)). cbn [firstn map].
           rewrite <- app_assoc. reflexivity.
Qed.

(** X16. Pages of raw leaves. Without a parser nothing is filtered:
    when the walk ends and every value decodes, [leaves] returns the
    decoded values of the walk in order, without the first [from] of them
    and cut after [amount]; [startDatetime] and [href] play no part. *)
Theorem leaves_pages (fuel : nat) (trie : Trie) (from amount startDatetime : Num)
        (href : option string) (root : option Buffer) (vals : list Decoded) :
  let g := walkTrieDfs fuel trie
             (Rlp.Bytes (match root with Some r => r | None => EthTrie.root trie end)) [] in
  returns g = true ->
  Forall2 (fun y v => decode (value (fst y)) = Ok v) (yields g) vals ->
  leaves decode normalizeUrl fuel trie from amount None startDatetime href root
  = Ok (map Raw (limited amount (skipn (skipped from) vals))).
Proof.
  intros g Hret Hvals. unfold leaves. fold g.
  rewrite (leaves_loop_unfiltered from amount startDatetime href g Hret vals 0 [] Hvals)
    by lia.
  cbn [app length]. f_equal. f_equal. unfold skipped.
  destruct amount as [| |k], from as [| |n]; rewrite ?Z.sub_0_r; reflexivity.
Qed.

(** The loop with a parser only pushes what got past the filters. *)
Lemma leaves_loop_filtered (from amount startDatetime : Num) (href : option string)
      (parse : Decoded -> result Message.t) (ys : list (TrieNode * Nibbles))
      (g : Gen (TrieNode * Nibbles)) :
  let pushed (item : LeafItem (Decoded := Decoded)) :=
    exists node path v m,
      In (node, path) ys /\ decode (value node) = Ok v /\ parse v = Ok m /\
      item = Parsed m /\ passes_filters normalizeUrl startDatetime href m in
  (forall y, In y (yields g) -> In y ys) ->
  forall pointer nodes items,
    leaves_loop decode normalizeUrl from amount (Some parse) startDatetime href g pointer nodes
    = Ok items ->
    Forall pushed nodes -> Forall pushed items.
Proof.
  intros pushed.
  induction g as [|[node key] rest IH|e]; intros Hys pointer nodes items H Hnodes;
    cbn [leaves_loop] in H; [injection H as <-; exact Hnodes | | discriminate].
  assert (Hrest : forall y, In y (yields rest) -> In y ys)
    by (intros y Hy; apply Hys; right; exact Hy).
  destruct (Number_isInteger amount && _); [injection H as <-; exact Hnodes|].
  destruct (Number_isInteger from && _); [exact (IH Hrest _ _ _ H Hnodes)|].
  destruct (decode (value node)) as [v|] eqn:Hv; [|discriminate]. cbn [Js.bind] in H.
  destruct (parse v) as [m|] eqn:Hm; [|discriminate]. cbn [Js.bind] in H.
  destruct (lt_num (Message.timestamp m) startDatetime) eqn:Ht;
    [exact (IH Hrest _ _ _ H Hnodes)|].
  assert (Hpush : passes_filters normalizeUrl startDatetime href m ->
                  Forall pushed (nodes ++ [Parsed m])).
  { intros Hf. apply Forall_app. split; [exact Hnodes|].
    constructor; [|constructor]. exists node, key, v, m.
    repeat split; try assumption; try reflexivity; try apply Hf.
    apply Hys. left. reflexivity. }
  destruct href as [h|].
  - destruct (String.eqb_spec h "") as [Hh|Hh].
    + apply (IH Hrest _ _ _ H). apply Hpush. split; [exact Ht | left; exact Hh].
    + destruct (normalizeUrl (Message.href m)) as [a|] eqn:Ha; [|discriminate].
      destruct (normalizeUrl h) as [b|] eqn:Hb; [|discriminate]. cbn [Js.bind] in H.
      destruct (String.eqb_spec a b) as [Hab|Hab]; cbn [negb] in H.
      * apply (IH Hrest _ _ _ H). apply Hpush. split; [exact Ht|].
        right. exists a. rewrite <- Hab in Hb. rewrite Ha. split; [reflexivity | exact Hb].
      * exact (IH Hrest _ _ _ H Hnodes).
  - apply (IH Hrest _ _ _ H). apply Hpush. split; [exact Ht | exact I].
Qed.

(** X17. What [leaves] returns with a parser: every item is the parsed
    value of a leaf of the walk, its timestamp is not below
    [startDatetime], and when a non-empty [href] is given its link
    normalises to the same string as [href]. *)
Theorem leaves_filtered (fuel : nat) (trie : Trie) (from amount startDatetime : Num)
        (href : option string) (root : option Buffer)
        (parse : Decoded -> result Message.t) (items : list LeafItem) :
  leaves decode normalizeUrl fuel trie from amount (Some parse) startDatetime href root
  = Ok items ->
  Forall (fun item =>
            exists node path v m,
              In (node, path)
                 (yields (walkTrieDfs fuel trie
                            (Rlp.Bytes (match root with
                                        | Some r => r
                                        | None => EthTrie.root trie
                                        end)) [])) /\
              decode (value node) = Ok v /\ parse v = Ok m /\
              item = Parsed m /\ passes_filters normalizeUrl startDatetime href m)
         items.
Proof.
  unfold leaves. intros H.
  apply (leaves_loop_filtered from amount startDatetime href parse _ _
           (fun y Hy => Hy) _ _ _ H).
  constructor.
Qed.

End MoreLeavesProperties.

Lemma leaves_pages_witness :
  leaves LeavesSample.decode LeavesSample.normalizeUrl 2 LeavesSample.three
         (NInt 1) (NInt 1) None (NInt 15) (Some "https://x.example") None
  = Ok (map Raw (limited (NInt 1) (skipn (skipped (NInt 1)) [1; 10; 20]))).
Proof.
  apply (leaves_pages LeavesSample.decode LeavesSample.normalizeUrl 2 LeavesSample.three
           (NInt 1) (NInt 1) (NInt 15) (Some "https://x.example") None [1; 10; 20]).
  - vm_compute. reflexivity.
  - vm_compute. repeat constructor.
Defined.

Lemma leaves_filtered_witness :
  Forall (fun item : LeafItem (Decoded := Z) =>
            exists node path v m,
              In (node, path)
                 (yields (walkTrieDfs 2 LeavesSample.three
                            (Rlp.Bytes (root LeavesSample.three)) [])) /\
              LeavesSample.decode (value node) = Ok v /\ LeavesSample.parser v = Ok m /\
              item = Parsed m /\
              passes_filters LeavesSample.normalizeUrl (NInt 5) None m)
         [Parsed (LeavesSample.at_time 10); Parsed (LeavesSample.at_time 20)].
Proof.
  apply (leaves_filtered LeavesSample.decode LeavesSample.normalizeUrl 2 LeavesSample.three
           (NInt 0) NUndefined (NInt 5) None None LeavesSample.parser).
  vm_compute. reflexivity.
Defined.

(** ** [walkTrieDfs] and [findPath] *)

Lemma matchingNibbleLength_prefix (a r : Nibbles) :
  matchingNibbleLength a (a ++ r) = length a /\
  matchingNibbleLength (a ++ r) a = length a.
Proof.
  induction a as [|x a [IH1 IH2]]; [split; [reflexivity | destruct r; reflexivity]|].
  cbn [matchingNibbleLength app length]. rewrite Z.eqb_refl, IH1, IH2. auto.
Qed.

Lemma doKeysMatch_refl (a : Nibbles) : doKeysMatch a a = true.
Proof.
  unfold doKeysMatch.
  pose proof (proj1 (matchingNibbleLength_prefix a [])) as H. rewrite app_nil_r in H.
  rewrite H, Nat.eqb_refl. reflexivity.
Qed.

Lemma keyRemainder_after (keyProgress rest : Nibbles) :
  skipn (matchingNibbleLength keyProgress (keyProgress ++ rest)) (keyProgress ++ rest) = rest.
Proof.
  rewrite (proj1 (matchingNibbleLength_prefix keyProgress rest)).
  rewrite skipn_app, Nat.sub_diag, skipn_all. reflexivity.
Qed.

Lemma yields_gen_then {A} (g k : Gen A) (y : A) :
  In y (yields (gen_then g k)) -> In y (yields g) \/ In y (yields k).
Proof.
  induction g as [|a rest IH|e]; cbn [gen_then yields]; [auto | | auto].
  intros [-> | H]; [left; left; reflexivity|].
  destruct (IH H); [left; right; assumption | right; assumption].
Qed.

Lemma yields_each_slot (visit : Rlp.Item -> Nibbles -> Gen (TrieNode * Nibbles))
      (branches : list Rlp.Item) (key : Nibbles) (slots : list nat)
      (y : TrieNode * Nibbles) :
  In y (yields (each_slot visit branches key slots)) ->
  exists i childRef,
    getBranch branches i = Some childRef /\
    In y (yields (visit childRef (key ++ [Z.of_nat i]))).
Proof.
  induction slots as [|i slots IH]; cbn [each_slot yields]; [intros []|].
  destruct (getBranch branches i) as [childRef|] eqn:Hb; [|exact IH].
  intros H. apply yields_gen_then in H as [H|H]; [eauto | exact (IH H)].
Qed.

(** X18. What the walk under [leaves] yields, [findPath] finds: every
    pair the generator yields is a leaf node with the path that leads to
    it, and the search for that path followed by the leaf's own key rest,
    started at the same node, ends at that very leaf. *)
Theorem walkTrieDfs_leaves_found (trie : Trie) (fuel : nat) :
  forall (nodeRef : Rlp.Item) (key : Nibbles) (node : TrieNode) (path : Nibbles),
    In (node, path) (yields (walkTrieDfs fuel trie nodeRef key)) ->
    isLeafNode node = true /\
    exists rest,
      path = key ++ rest /\
      findPath_walk fuel trie (path ++ EthTrie.key node) nodeRef key = Ok (Some node).
Proof.
  induction fuel as [|fuel IH]; intros nodeRef key node path H; [destruct H|].
  rewrite walkTrieDfs_S in H.
  destruct (match nodeRef with Rlp.Bytes b => buffer_eqb b EMPTY_TRIE_ROOT | _ => false end);
    [destruct H|].
  destruct (lookupNode trie nodeRef) as [[branches v|nibbles v|nibbles v]|] eqn:Hn;
    [| | |destruct H].
  - apply yields_each_slot in H as (i & childRef & Hb & Hy).
    apply IH in Hy as (Hleaf & rest & -> & Hfind). split; [exact Hleaf|].
    exists (Z.of_nat i :: rest). split; [rewrite <- app_assoc; reflexivity|].
    cbn [findPath_walk]. rewrite Hn. cbn [Js.bind].
    remember (((key ++ [Z.of_nat i]) ++ rest) ++ EthTrie.key node) as target eqn:Ht.
    assert (Hrem : skipn (matchingNibbleLength key target) target
                   = Z.of_nat i :: rest ++ EthTrie.key node).
    { subst target. rewrite <- !app_assoc. apply keyRemainder_after. }
    rewrite Hrem. destruct (Z.ltb_spec (Z.of_nat i) 0) as [|_]; [lia|].
    rewrite Nat2Z.id, Hb. exact Hfind.
  - apply IH in H as (Hleaf & rest & -> & Hfind). split; [exact Hleaf|].
    exists (nibbles ++ rest). split; [rewrite <- app_assoc; reflexivity|].
    cbn [findPath_walk]. rewrite Hn. cbn [Js.bind].
    remember (((key ++ nibbles) ++ rest) ++ EthTrie.key node) as target eqn:Ht.
    assert (Hrem : skipn (matchingNibbleLength key target) target
                   = nibbles ++ rest ++ EthTrie.key node).
    { subst target. rewrite <- !app_assoc. apply keyRemainder_after. }
    rewrite Hrem, (proj2 (matchingNibbleLength_prefix nibbles _)), Nat.eqb_refl.
    exact Hfind.
  - destruct H as [[= <- <-]|[]]. split; [reflexivity|].
    exists []. split; [rewrite app_nil_r; reflexivity|].
    cbn [findPath_walk EthTrie.key]. rewrite Hn. cbn [Js.bind].
    rewrite keyRemainder_after, doKeysMatch_refl. reflexivity.
Qed.

Lemma walkTrieDfs_leaves_found_witness :
  isLeafNode Samples.leaf_b = true /\
  exists rest,
    [5] = [] ++ rest /\
    findPath_walk 2 Samples.two ([5] ++ EthTrie.key Samples.leaf_b)
                  (Rlp.Bytes (root Samples.two)) []
    = Ok (Some Samples.leaf_b).
Proof.
  apply (walkTrieDfs_leaves_found Samples.two 2 (Rlp.Bytes (root Samples.two)) []
           Samples.leaf_b [5]).
  vm_compute. right. left. reflexivity.
Defined.

(** ** More on [count] *)

Section MoreCountProperties.

Import StoryMap.

Variable normalizeUrl : string -> result string.

(** Every link of the list normalises. *)
Let normalises (leaves : list Post.t) : Prop :=
  Forall (fun leaf => exists k, normalizeUrl (Post.href leaf) = Ok k) leaves.

Lemma normalises_sort (leaves : list Post.t) : normalises (sort leaves) <-> normalises leaves.
Proof.
  unfold normalises. rewrite !List.Forall_forall.
  split; intros H x Hx; apply H; apply sort_In; exact Hx.
Qed.

Section MoreLoop.

Context {S : Type}.
Variable fresh : Post.t -> S.
Variable bump : S -> Post.t -> S.

Let run' := run normalizeUrl fresh bump.

(** The loop throws at the first link that does not normalise, and
    nowhere else. *)
Lemma run_returns (leaves : list Post.t) :
  forall stories, (exists stories', run' stories leaves = Ok stories') <-> normalises leaves.
Proof.
  unfold run', normalises.
  induction leaves as [|leaf leaves IH]; intros stories; cbn [run].
  - split; [constructor | eauto].
  - unfold step at 1. destruct (normalizeUrl (Post.href leaf)) as [k|e] eqn:Hk; cbn [Js.bind].
    + assert (Hstep : exists st1,
                 match get stories k with
                 | Some story =>
                     if String.eqb (Post.type leaf) "amplify"
                     then Ok (set stories k (bump story leaf)) else Ok stories
                 | None => Ok (set stories k (fresh leaf))
                 end = Ok st1).
      { destruct (get stories k); [destruct (String.eqb _ _)|]; eauto. }
      destruct Hstep as [st1 ->]. cbn [Js.bind]. rewrite (IH st1).
      split; [intros H; constructor; eauto | intros H; apply Forall_inv_tail in H; exact H].
    + split; [intros [? [=]] | intros H; apply Forall_inv in H as [k' Hk']; congruence].
Qed.

Lemma Forall_set (P : S -> Prop) (stories : list (string * S)) (k : string) (s : S) :
  Forall (fun entry => P (snd entry)) stories -> P s ->
  Forall (fun entry => P (snd entry)) (set stories k s).
Proof.
  intros Hall Hs. induction Hall as [|[k0 s0] stories H0 Hall IH]; cbn [set].
  - constructor; [exact Hs | constructor].
  - destruct (String.eqb k0 k); constructor; cbn [snd]; assumption.
Qed.

Lemma get_In (stories : list (string * S)) (k : string) (s : S) :
  get stories k = Some s -> In (k, s) stories.
Proof.
  induction stories as [|[k0 s0] stories IH]; cbn [get]; [discriminate|].
  destruct (String.eqb_spec k0 k) as [->|_]; [intros [= ->]; left; reflexivity|].
  intros H. right. exact (IH H).
Qed.

(** What holds of every new story and is kept by every upvote holds of
    every story at the end. *)
Lemma run_invariant (P : S -> Prop) (leaves : list Post.t) :
  (forall leaf, P (fresh leaf)) ->
  (forall story leaf, P story -> P (bump story leaf)) ->
  forall stories stories',
    run' stories leaves = Ok stories' ->
    Forall (fun entry => P (snd entry)) stories ->
    Forall (fun entry => P (snd entry)) stories'.
Proof.
  intros Hfresh Hbump. unfold run'.
  induction leaves as [|leaf leaves IH]; intros stories stories' H Hall; cbn [run] in H.
  - injection H as <-. exact Hall.
  - unfold step at 1 in H.
    destruct (normalizeUrl (Post.href leaf)) as [k|]; [|discriminate]. cbn [Js.bind] in H.
    destruct (get stories k) as [story|] eqn:Hget.
    + destruct (String.eqb (Post.type leaf) "amplify"); cbn [Js.bind] in H.
      * apply (IH _ _ H). apply Forall_set; [exact Hall|]. apply Hbump.
        apply get_In in Hget. rewrite List.Forall_forall in Hall. exact (Hall _ Hget).
      * exact (IH _ _ H Hall).
    + cbn [Js.bind] in H. apply (IH _ _ H). apply Forall_set; [exact Hall | apply Hfresh].
Qed.

End MoreLoop.

(** X19. [count] throws exactly when the link of some record does not
    normalise, be it a record that would add nothing to any story. *)
Theorem count_returns_iff (leaves : list Post.t) :
  (exists stories, Stories.count normalizeUrl leaves = Ok stories) <->
  Forall (fun leaf => exists k, normalizeUrl (Post.href leaf) = Ok k) leaves.
Proof.
  fold (normalises leaves). rewrite <- normalises_sort.
  rewrite <- (run_returns story_fresh story_bump (sort leaves) []).
  unfold Stories.count. rewrite count_loop_run.
  destruct (run normalizeUrl story_fresh story_bump [] (sort leaves)) as [stories|e];
    cbn [Js.bind]; split; intros [x H]; try discriminate; eauto.
Qed.

(** X20. In every story that [count] returns the number of upvotes is the
    number of upvoters, and it is at least one. *)
Theorem count_upvotes_are_upvoters (leaves : list Post.t) (stories : list Story.t) :
  Stories.count normalizeUrl leaves = Ok stories ->
  Forall (fun story =>
            Story.upvotes story = Z.of_nat (length (Story.upvoters story)) /\
            1 <= Story.upvotes story) stories.
Proof.
  unfold Stories.count. rewrite count_loop_run.
  destruct (run normalizeUrl story_fresh story_bump [] (sort leaves)) as [st|] eqn:Hrun;
    [|discriminate].
  cbn [Js.bind]. intros [= <-].
  apply Forall_map.
  apply (run_invariant story_fresh story_bump
           (fun story => Story.upvotes story = Z.of_nat (length (Story.upvoters story)) /\
                         1 <= Story.upvotes story)
           (sort leaves)) with (stories := []); [| |exact Hrun|constructor].
  - intros leaf. cbn. lia.
  - intros story leaf [Hlen Hpos]. cbn [story_bump Story.upvotes Story.upvoters].
    rewrite length_app. cbn [length]. lia.
Qed.

Lemma In_get {S : Type} (stories : list (string * S)) (k : string) (s : S) :
  List.NoDup (map fst stories) -> In (k, s) stories -> get stories k = Some s.
Proof.
  induction stories as [|[k0 s0] stories IH]; cbn [map fst get]; intros Hnd Hin;
    [destruct Hin|].
  apply List.NoDup_cons_iff in Hnd as [Hnotin Hnd].
  destruct Hin as [[= -> ->]|Hin]; [rewrite String.eqb_refl; reflexivity|].
  destruct (String.eqb_spec k0 k) as [->|_]; [|exact (IH Hnd Hin)].
  exfalso. apply Hnotin. apply in_map_iff. exists (k, s). split; [reflexivity | exact Hin].
Qed.

Lemma fold_apply_leaf (rest : list Post.t) :
  forall story,
    fold_left (apply_leaf story_fresh story_bump) rest (Some story)
    = Some (fold_left upvote rest story).
Proof.
  induction rest as [|leaf rest IH]; intros story; [reflexivity|].
  cbn [fold_left apply_leaf]. unfold upvote at 2, is_amplify.
  destruct (String.eqb (Post.type leaf) "amplify"); apply IH.
Qed.

Lemma sort_length (leaves : list Post.t) : length (sort leaves) = length leaves.
Proof.
  induction leaves as [|x l IH]; [reflexivity|]. cbn [sort length]. rewrite <- IH.
  generalize (sort l). intros sorted.
  induction sorted as [|z sorted IHs]; [reflexivity|].
  cbn [insert_sorted]. destruct (_ <=? _); cbn [length]; [reflexivity|].
  rewrite IHs. reflexivity.
Qed.

(** Every story [count] returns is the first record of its link in the
    sorted list, upvoted by the later records of that link in turn. *)
Lemma count_story_shape (leaves : list Post.t) (stories : list Story.t) (story : Story.t) :
  Stories.count normalizeUrl leaves = Ok stories -> In story stories ->
  exists k a rest,
    normalizeUrl (Post.href a) = Ok k /\
    List.filter (has_key normalizeUrl k) (sort leaves) = a :: rest /\
    story = fold_left upvote rest (story_fresh a).
Proof.
  unfold Stories.count. rewrite count_loop_run.
  destruct (run normalizeUrl story_fresh story_bump [] (sort leaves)) as [st|] eqn:Hrun;
    [|discriminate].
  cbn [Js.bind]. intros [= <-] Hin.
  apply in_map_iff in Hin as ([k s] & <- & Hin). cbn [snd].
  assert (Hnorm : normalises (sort leaves))
    by (apply (run_returns story_fresh story_bump (sort leaves) []); eauto).
  destruct (run_key normalizeUrl story_fresh story_bump Story.href
              (fun _ => eq_refl) (fun _ _ => eq_refl) k (sort leaves) [] Hnorm)
    as (st' & Hrun' & Hwk & Hget).
  { split; [apply List.NoDup_nil | constructor]. }
  rewrite Hrun in Hrun'. injection Hrun' as <-.
  rewrite (In_get st k s (proj1 Hwk) Hin) in Hget.
  destruct (List.filter (has_key normalizeUrl k) (sort leaves)) as [|a rest] eqn:HL;
    [discriminate|].
  cbn [fold_left get apply_leaf] in Hget. rewrite fold_apply_leaf in Hget.
  injection Hget as ->.
  exists k, a, rest. split; [|split; [exact HL | reflexivity]].
  assert (Ha : In a (List.filter (has_key normalizeUrl k) (sort leaves)))
    by (rewrite HL; left; reflexivity).
  apply filter_In in Ha as [_ Ha]. unfold has_key in Ha.
  destruct (normalizeUrl (Post.href a)) as [k'|]; [|discriminate].
  apply String.eqb_eq in Ha. congruence.
Qed.

Lemma upvote_keeps (rest : list Post.t) :
  forall story,
    let story' := fold_left upvote rest story in
    Story.timestamp story' = Story.timestamp story /\
    Story.href story' = Story.href story /\
    Story.identity story' = Story.identity story /\
    Story.index story' = Story.index story /\
    Story.upvoters story'
    = Story.upvoters story ++ map Post.identity (List.filter is_amplify rest) /\
    Story.upvotes story'
    = Story.upvotes story + Z.of_nat (length (List.filter is_amplify rest)).
Proof.
  induction rest as [|leaf rest IH]; intros story; cbn [fold_left List.filter].
  - cbn [map length]. rewrite app_nil_r, Z.add_0_r. repeat split.
  - destruct (IH (upvote story leaf)) as (Ht & Hh & Hi & Hx & Hu & Hn).
    cbv zeta. rewrite Ht, Hh, Hi, Hx, Hu, Hn. unfold upvote at 1 2 3 4 5 6.
    destruct (is_amplify leaf); cbn [story_bump Story.timestamp Story.href Story.identity
                                       Story.index Story.upvoters Story.upvotes map length].
    + rewrite <- app_assoc. repeat split; try reflexivity. lia.
    + repeat split.
Qed.

(** X21. A story is its first record: the timestamp, href, identity and
    index of every story that [count] returns are those of one record of
    the list, and no record of the list whose link normalises to the same
    string is earlier than that one. *)
Theorem count_story_is_first_record (leaves : list Post.t) (stories : list Story.t)
        (story : Story.t) :
  Stories.count normalizeUrl leaves = Ok stories -> In story stories ->
  exists a,
    In a leaves /\
    Story.timestamp story = Post.timestamp a /\ Story.href story = Post.href a /\
    Story.identity story = Post.identity a /\ Story.index story = Post.index a /\
    forall b, In b leaves ->
              normalizeUrl (Post.href b) = normalizeUrl (Post.href a) ->
              Post.timestamp a <= Post.timestamp b.
Proof.
  intros Hcount Hin.
  destruct (count_story_shape leaves stories story Hcount Hin) as (k & a & rest & Hk & HL & ->).
  destruct (upvote_keeps rest (story_fresh a)) as (Ht & Hh & Hi & Hx & _ & _).
  exists a. cbv zeta in *. rewrite Ht, Hh, Hi, Hx.
  assert (Ha : In a (List.filter (has_key normalizeUrl k) (sort leaves)))
    by (rewrite HL; left; reflexivity).
  apply filter_In in Ha as [Ha _]. apply (proj1 (sort_In _ _)) in Ha.
  split; [exact Ha|]. repeat (split; [reflexivity|]).
  intros b Hb Hsame. rewrite Hk in Hsame.
  assert (Hb' : In b (a :: rest)).
  { rewrite <- HL. apply filter_In. split; [apply (proj2 (sort_In _ _)); exact Hb|].
    unfold has_key. rewrite Hsame. apply String.eqb_refl. }
  destruct Hb' as [<- | Hb']; [lia|].
  pose proof (sort_ascending (List.filter (has_key normalizeUrl k) leaves)) as Hs.
  rewrite <- filter_sort, HL in Hs. apply StronglySorted_inv in Hs as [_ Hall].
  rewrite List.Forall_forall in Hall. exact (Hall b Hb').
Qed.

(** X22. Who upvoted: the upvoters of a story are the identity of the
    first record of its link, then those of the later "amplify" records
    of that link in the order of the sort, each as often as it occurs;
    later "submit" records add nobody. So a story never has more upvotes
    than its link has records. *)
Theorem count_upvoters (leaves : list Post.t) (stories : list Story.t) (story : Story.t) :
  Stories.count normalizeUrl leaves = Ok stories -> In story stories ->
  exists k a rest,
    normalizeUrl (Story.href story) = Ok k /\
    List.filter (has_key normalizeUrl k) (sort leaves) = a :: rest /\
    Story.upvoters story
    = Post.identity a :: map Post.identity (List.filter is_amplify rest) /\
    Story.upvotes story
    <= Z.of_nat (length (List.filter (has_key normalizeUrl k) leaves)).
Proof.
  intros Hcount Hin.
  destruct (count_story_shape leaves stories story Hcount Hin) as (k & a & rest & Hk & HL & ->).
  destruct (upvote_keeps rest (story_fresh a)) as (_ & Hh & _ & _ & Hu & Hn).
  exists k, a, rest. cbv zeta in *. rewrite Hh, Hu, Hn.
  split; [exact Hk|]. split; [exact HL|]. split; [reflexivity|].
  rewrite <- (sort_length (List.filter (has_key normalizeUrl k) leaves)).
  rewrite <- filter_sort, HL. cbn [story_fresh Story.upvotes length].
  pose proof (filter_length_le is_amplify rest). lia.
Qed.

(** X23. One story per link: the hrefs of the stories that [count]
    returns all normalise, and no two stories of the result have hrefs
    that normalise to the same string. *)
Theorem count_one_story_per_link (leaves : list Post.t) (stories : list Story.t) :
  Stories.count normalizeUrl leaves = Ok stories ->
  forall i j story story',
    nth_error stories i = Some story -> nth_error stories j = Some story' ->
    (exists k, normalizeUrl (Story.href story) = Ok k) /\
    (normalizeUrl (Story.href story) = normalizeUrl (Story.href story') -> i = j).
Proof.
  unfold Stories.count. rewrite count_loop_run.
  destruct (run normalizeUrl story_fresh story_bump [] (sort leaves)) as [st|] eqn:Hrun;
    [|discriminate].
  cbn [Js.bind]. intros [= <-] i j story story' Hi Hj.
  assert (Hnorm : normalises (sort leaves))
    by (apply (run_returns story_fresh story_bump (sort leaves) []); eauto).
  destruct (run_key normalizeUrl story_fresh story_bump Story.href
              (fun _ => eq_refl) (fun _ _ => eq_refl) "" (sort leaves) [] Hnorm)
    as (st' & Hrun' & [Hnd Hall] & _).
  { split; [apply List.NoDup_nil | constructor]. }
  rewrite Hrun in Hrun'. injection Hrun' as <-.
  rewrite nth_error_map in Hi, Hj.
  destruct (nth_error st i) as [[k s]|] eqn:Ei; [|discriminate].
  destruct (nth_error st j) as [[k' s']|] eqn:Ej; [|discriminate].
  cbn in Hi, Hj. injection Hi as <-. injection Hj as <-.
  rewrite List.Forall_forall in Hall.
  pose proof (Hall _ (nth_error_In _ _ Ei)) as Hk. pose proof (Hall _ (nth_error_In _ _ Ej)) as Hk'.
  cbn [fst snd] in Hk, Hk'. split; [eauto|].
  intros Hsame. rewrite Hk, Hk' in Hsame. injection Hsame as <-.
  apply (proj1 (List.NoDup_nth_error (map fst st)) Hnd).
  - rewrite length_map. apply nth_error_Some. rewrite Ei. discriminate.
  - rewrite !nth_error_map, Ei, Ej. reflexivity.
Qed.

(** *** The two views on the same records *)

Lemma get_map {S T : Type} (f : S -> T) (stories : list (string * S)) (k : string) :
  get (map (fun entry => (fst entry, f (snd entry))) stories) k
  = option_map f (get stories k).
Proof.
  induction stories as [|[k0 s0] stories IH]; [reflexivity|].
  cbn [map get fst snd]. destruct (String.eqb k0 k); [reflexivity | exact IH].
Qed.

Lemma set_map {S T : Type} (f : S -> T) (stories : list (string * S)) (k : string) (s : S) :
  map (fun entry => (fst entry, f (snd entry))) (set stories k s)
  = set (map (fun entry => (fst entry, f (snd entry))) stories) k (f s).
Proof.
  induction stories as [|[k0 s0] stories IH]; [reflexivity|].
  cbn [map set fst snd]. destruct (String.eqb k0 k); cbn [map fst snd]; [reflexivity|].
  rewrite IH. reflexivity.
Qed.

Lemma headline_bump (story : Story.t) (plain : PlainStory.t) (leaf : Post.t) :
  headline story = plain_headline plain ->
  headline (story_bump story leaf) = plain_headline (plain_bump plain leaf).
Proof.
  unfold headline, plain_headline. intros [= Ht Hs Hh Hu].
  cbn [story_bump plain_bump Story.title Story.timestamp Story.href Story.upvotes
       PlainStory.title PlainStory.timestamp PlainStory.href PlainStory.upvotes].
  rewrite Ht, Hs, Hh, Hu. reflexivity.
Qed.

(** The two loops go in step. *)
Lemma run_views (leaves : list Post.t) :
  forall (stories : list (string * Story.t)) (plain : list (string * PlainStory.t)),
    map (fun entry => (fst entry, headline (snd entry))) stories
    = map (fun entry => (fst entry, plain_headline (snd entry))) plain ->
    (let! stories' := run normalizeUrl story_fresh story_bump stories leaves in
     Ok (map (fun entry => (fst entry, headline (snd entry))) stories'))
    = (let! plain' := run normalizeUrl plain_fresh plain_bump plain leaves in
       Ok (map (fun entry => (fst entry, plain_headline (snd entry))) plain')).
Proof.
  induction leaves as [|leaf leaves IH]; intros stories plain H; cbn [run Js.bind].
  - rewrite H. reflexivity.
  - unfold step. destruct (normalizeUrl (Post.href leaf)) as [k|e]; [|reflexivity].
    cbn [Js.bind].
    pose proof (get_map headline stories k) as Hs.
    pose proof (get_map plain_headline plain k) as Hp.
    rewrite H, Hp in Hs.
    destruct (get stories k) as [s|], (get plain k) as [p|]; try discriminate.
    + cbn [option_map] in Hs.
      assert (Hsp : headline s = plain_headline p) by congruence. clear Hs.
      destruct (String.eqb (Post.type leaf) "amplify"); cbn [Js.bind].
      * apply IH. rewrite !set_map, H. f_equal. apply headline_bump. exact Hsp.
      * apply IH. exact H.
    + cbn [Js.bind]. apply IH. rewrite !set_map, H. reflexivity.
Qed.

(** X24. The two views count alike: on every list of records the [count]
    of [src/unnamed/part_001] and the [count] of [src/unnamed/part_000]
    throw the same error or return as many stories in the same order with
    the same title, timestamp, href and number of upvotes. *)
Theorem count_views_agree (leaves : list Post.t) :
  (let! stories := Stories.count normalizeUrl leaves in Ok (map headline stories))
  = (let! stories := PlainStories.count normalizeUrl leaves in
     Ok (map plain_headline stories)).
Proof.
  unfold Stories.count, PlainStories.count.
  rewrite count_loop_run, plain_count_loop_run.
  pose proof (run_views (sort leaves) [] [] eq_refl) as H.
  destruct (run normalizeUrl story_fresh story_bump [] (sort leaves)) as [st|e],
           (run normalizeUrl plain_fresh plain_bump [] (sort leaves)) as [pst|e'];
    cbn [Js.bind] in *; try discriminate; [|congruence].
  injection H as H. f_equal.
  apply (f_equal (map snd)) in H. rewrite !map_map in *. exact H.
Qed.

(** *** The order of the stories *)

Lemma set_new {S : Type} (stories : list (string * S)) (k : string) (s : S) :
  get stories k = None -> set stories k s = stories ++ [(k, s)].
Proof.
  induction stories as [|[k0 s0] stories IH]; cbn [get set app]; [reflexivity|].
  destruct (String.eqb k0 k); [discriminate|]. intros H. rewrite (IH H). reflexivity.
Qed.

Lemma set_old_timestamps (stories : list (string * Story.t)) (k : string)
      (story story' : Story.t) :
  get stories k = Some story -> Story.timestamp story' = Story.timestamp story ->
  map (fun entry => Story.timestamp (snd entry)) (set stories k story')
  = map (fun entry => Story.timestamp (snd entry)) stories.
Proof.
  intros Hget Hts. induction stories as [|[k0 s0] stories IH]; [discriminate|].
  cbn [get set] in *. destruct (String.eqb k0 k); cbn [map snd].
  - injection Hget as ->. rewrite Hts. reflexivity.
  - rewrite (IH Hget). reflexivity.
Qed.

(** On records in ascending order the loop keeps the stories in ascending
    order, none later than the records still to come. *)
Lemma run_chronological (leaves : list Post.t) :
  forall stories stories',
    run normalizeUrl story_fresh story_bump stories leaves = Ok stories' ->
    ascending leaves ->
    StronglySorted Z.le (map (fun entry => Story.timestamp (snd entry)) stories) ->
    Forall (fun leaf =>
              Forall (fun t => t <= Post.timestamp leaf)
                     (map (fun entry => Story.timestamp (snd entry)) stories)) leaves ->
    StronglySorted Z.le (map (fun entry => Story.timestamp (snd entry)) stories').
Proof.
  induction leaves as [|leaf leaves IH]; intros stories stories' H Hasc Hsorted Hbelow;
    cbn [run] in H; [injection H as <-; exact Hsorted|].
  unfold step at 1 in H.
  destruct (normalizeUrl (Post.href leaf)) as [k|]; [|discriminate]. cbn [Js.bind] in H.
  apply StronglySorted_inv in Hasc as [Hasc Hleaf].
  apply Forall_cons_iff in Hbelow as [Hnow Hlater].
  destruct (get stories k) as [story|] eqn:Hget.
  - destruct (String.eqb (Post.type leaf) "amplify"); cbn [Js.bind] in H.
    + apply (IH _ _ H Hasc);
        rewrite (set_old_timestamps stories k story (story_bump story leaf) Hget eq_refl);
        assumption.
    + exact (IH _ _ H Hasc Hsorted Hlater).
  - cbn [Js.bind] in H. apply (IH _ _ H Hasc); rewrite (set_new stories k _ Hget), map_app.
    + cbn [map snd story_fresh Story.timestamp].
      clear - Hsorted Hnow.
      induction Hsorted as [|t ts Hs IHs Ht]; cbn [app].
      * constructor; constructor.
      * apply Forall_cons_iff in Hnow as [Ht' Hnow].
        constructor; [exact (IHs Hnow)|].
        apply Forall_app. split; [exact Ht|]. constructor; [exact Ht' | constructor].
    + cbn [map snd story_fresh Story.timestamp].
      rewrite List.Forall_forall in *. intros later Hin.
      apply Forall_app. split; [exact (Hlater later Hin)|].
      constructor; [exact (Hleaf later Hin) | constructor].
Qed.

(** X28. The stories come in the order of their first records: the list
    that [count] returns is in ascending order of timestamp, whatever the
    order of the records it was given. *)
Theorem count_chronological (leaves : list Post.t) (stories : list Story.t) :
  Stories.count normalizeUrl leaves = Ok stories ->
  StronglySorted (fun a b => Story.timestamp a <= Story.timestamp b) stories.
Proof.
  unfold Stories.count. rewrite count_loop_run.
  destruct (run normalizeUrl story_fresh story_bump [] (sort leaves)) as [st|] eqn:Hrun;
    [|discriminate].
  cbn [Js.bind]. intros [= <-].
  pose proof (run_chronological (sort leaves) [] st Hrun (sort_ascending leaves)
                (SSorted_nil _)) as H.
  assert (Hnil : Forall (fun leaf : Post.t =>
                           Forall (fun t => t <= Post.timestamp leaf)
                                  (map (fun entry : string * Story.t =>
                                          Story.timestamp (snd entry)) [])) (sort leaves))
    by (apply List.Forall_forall; intros; constructor).
  specialize (H Hnil). clear - H.
  induction st as [|[k s] st IH]; cbn [map snd] in *; [constructor|].
  apply StronglySorted_inv in H as [Hs Hall].
  constructor; [exact (IH Hs)|].
  rewrite List.Forall_forall in *. intros story Hin.
  apply in_map_iff in Hin as ([k' s'] & <- & Hin). apply Hall.
  apply in_map_iff. exists (k', s'). split; [reflexivity | exact Hin].
Qed.

End MoreCountProperties.

Lemma count_upvotes_are_upvoters_witness :
  Forall (fun story =>
            Story.upvotes story = Z.of_nat (length (Story.upvoters story)) /\
            1 <= Story.upvotes story)
         [ Story.mk "X" 1700000000 "https://x.example" "0xS1" None 2 ["0xS1"; "0xS2"] "aa01";
           Story.mk "Y" 1700000005 "https://y.example" "0xS2" None 1 ["0xS2"] "aa03" ].
Proof.
  apply (count_upvotes_are_upvoters CountSample.normalizeUrl
           [CountSample.amplify; CountSample.elsewhere; CountSample.submit]).
  vm_compute. reflexivity.
Defined.

Lemma count_story_is_first_record_witness :
  let leaves := [CountSample.amplify; CountSample.elsewhere; CountSample.submit] in
  let story :=
    Story.mk "X" 1700000000 "https://x.example" "0xS1" None 2 ["0xS1"; "0xS2"] "aa01" in
  exists a,
    In a leaves /\
    Story.timestamp story = Post.timestamp a /\ Story.href story = Post.href a /\
    Story.identity story = Post.identity a /\ Story.index story = Post.index a /\
    forall b, In b leaves ->
              CountSample.normalizeUrl (Post.href b) = CountSample.normalizeUrl (Post.href a) ->
              Post.timestamp a <= Post.timestamp b.
Proof.
  intros leaves story.
  apply (count_story_is_first_record CountSample.normalizeUrl leaves
           [ story;
             Story.mk "Y" 1700000005 "https://y.example" "0xS2" None 1 ["0xS2"] "aa03" ]).
  - vm_compute. reflexivity.
  - left. reflexivity.
Defined.

Lemma count_upvoters_witness :
  let leaves := [CountSample.amplify; CountSample.elsewhere; CountSample.submit] in
  let story :=
    Story.mk "X" 1700000000 "https://x.example" "0xS1" None 2 ["0xS1"; "0xS2"] "aa01" in
  exists k a rest,
    CountSample.normalizeUrl (Story.href story) = Ok k /\
    List.filter (has_key CountSample.normalizeUrl k) (StoryMap.sort leaves) = a :: rest /\
    Story.upvoters story
    = Post.identity a :: map Post.identity (List.filter is_amplify rest) /\
    Story.upvotes story
    <= Z.of_nat (length (List.filter (has_key CountSample.normalizeUrl k) leaves)).
Proof.
  intros leaves story.
  apply (count_upvoters CountSample.normalizeUrl leaves
           [ story;
             Story.mk "Y" 1700000005 "https://y.example" "0xS2" None 1 ["0xS2"] "aa03" ]).
  - vm_compute. reflexivity.
  - left. reflexivity.
Defined.

Lemma count_one_story_per_link_witness :
  let x := Story.mk "X" 1700000000 "https://x.example" "0xS1" None 2 ["0xS1"; "0xS2"] "aa01" in
  let y := Story.mk "Y" 1700000005 "https://y.example" "0xS2" None 1 ["0xS2"] "aa03" in
  (exists k, CountSample.normalizeUrl (Story.href x) = Ok k) /\
  (CountSample.normalizeUrl (Story.href x) = CountSample.normalizeUrl (Story.href y) ->
   0%nat = 1%nat).
Proof.
  intros x y.
  apply (count_one_story_per_link CountSample.normalizeUrl
           [CountSample.amplify; CountSample.elsewhere; CountSample.submit] [x; y]).
  - vm_compute. reflexivity.
  - reflexivity.
  - reflexivity.
Defined.

(** ** [topstories] *)

Lemma insert_by_upvotes_perm (x : Story.t) (l : list Story.t) :
  Permutation (x :: l) (Stories.insert_by_upvotes x l).
Proof.
  induction l as [|z l IH]; cbn [Stories.insert_by_upvotes]; [reflexivity|].
  destruct (_ <=? _); [reflexivity|].
  etransitivity; [apply perm_swap|]. apply perm_skip. exact IH.
Qed.

Lemma insert_by_upvotes_sorted (x : Story.t) (l : list Story.t) :
  StronglySorted (fun a b => Story.upvotes b <= Story.upvotes a) l ->
  StronglySorted (fun a b => Story.upvotes b <= Story.upvotes a)
                 (Stories.insert_by_upvotes x l).
Proof.
  induction l as [|z l IH]; intros Hs; cbn [Stories.insert_by_upvotes].
  - constructor; constructor.
  - apply StronglySorted_inv in Hs as [Hs Hall].
    destruct (Z.leb_spec (Story.upvotes z) (Story.upvotes x)) as [Hle|Hgt].
    + constructor; [constructor; assumption|].
      constructor; [exact Hle|].
      rewrite List.Forall_forall in *. intros y Hy. specialize (Hall y Hy). cbn in Hall. lia.
    + constructor; [apply IH; exact Hs|].
      rewrite List.Forall_forall in *. intros y Hy.
      apply (Permutation_in _ (Permutation_sym (insert_by_upvotes_perm x l))) in Hy.
      destruct Hy as [<-|Hy]; [lia | exact (Hall y Hy)].
Qed.

Lemma insert_by_upvotes_ties (u : Z) (x : Story.t) (l : list Story.t) :
  List.filter (fun s => Story.upvotes s =? u) (Stories.insert_by_upvotes x l)
  = List.filter (fun s => Story.upvotes s =? u) (x :: l).
Proof.
  induction l as [|z l IH]; cbn [Stories.insert_by_upvotes]; [reflexivity|].
  destruct (Z.leb_spec (Story.upvotes z) (Story.upvotes x)) as [Hle|Hgt]; [reflexivity|].
  cbn [List.filter] in *. rewrite IH.
  destruct (Z.eqb_spec (Story.upvotes x) u) as [Hx|Hx]; [|reflexivity].
  destruct (Z.eqb_spec (Story.upvotes z) u) as [Hz|Hz]; [lia | reflexivity].
Qed.

(** X25. [topstories] returns the stories of [count], each once, with
    the most upvoted first; stories with as many upvotes come in the
    order [count] gave them. *)
Theorem topstories_sorted (normalizeUrl : string -> result string)
        (leaves : list Post.t) (start end_ : Z) (top : list Story.t) :
  Stories.topstories normalizeUrl leaves start end_ = Ok top ->
  exists stories,
    Stories.count normalizeUrl leaves = Ok stories /\
    Permutation stories top /\
    StronglySorted (fun a b => Story.upvotes b <= Story.upvotes a) top /\
    forall u, List.filter (fun s => Story.upvotes s =? u) top
              = List.filter (fun s => Story.upvotes s =? u) stories.
Proof.
  unfold Stories.topstories.
  destruct (Stories.count normalizeUrl leaves) as [stories|]; [|discriminate].
  cbn [Js.bind]. intros [= <-]. exists stories. split; [reflexivity|].
  induction stories as [|x l (Hperm & Hsorted & Hties)]; cbn [Stories.sort_by_upvotes].
  - split; [constructor|]. split; [constructor | reflexivity].
  - split; [|split].
    + etransitivity; [apply perm_skip, Hperm | apply insert_by_upvotes_perm].
    + apply insert_by_upvotes_sorted, Hsorted.
    + intros u. rewrite insert_by_upvotes_ties. cbn [List.filter]. rewrite Hties. reflexivity.
Qed.

Lemma topstories_sorted_witness :
  let x := Story.mk "X" 1700000000 "https://x.example" "0xS1" None 2 ["0xS1"; "0xS2"] "aa01" in
  let y := Story.mk "Y" 1700000005 "https://y.example" "0xS2" None 1 ["0xS2"] "aa03" in
  exists stories,
    Stories.count CountSample.normalizeUrl
                  [CountSample.elsewhere; CountSample.amplify; CountSample.submit]
    = Ok stories /\
    Permutation stories [x; y] /\
    StronglySorted (fun a b => Story.upvotes b <= Story.upvotes a) [x; y] /\
    forall u, List.filter (fun s => Story.upvotes s =? u) [x; y]
              = List.filter (fun s => Story.upvotes s =? u) stories.
Proof.
  intros x y.
  apply (topstories_sorted CountSample.normalizeUrl
           [CountSample.elsewhere; CountSample.amplify; CountSample.submit] 0 30 [x; y]).
  vm_compute. reflexivity.
Defined.

Lemma count_chronological_witness :
  StronglySorted (fun a b => Story.timestamp a <= Story.timestamp b)
    [ Story.mk "X" 1700000000 "https://x.example" "0xS1" None 2 ["0xS1"; "0xS2"] "aa01";
      Story.mk "Y" 1700000005 "https://y.example" "0xS2" None 1 ["0xS2"] "aa03" ].
Proof.
  apply (count_chronological CountSample.normalizeUrl
           [CountSample.amplify; CountSample.elsewhere; CountSample.submit]).
  vm_compute. reflexivity.
Defined.

(** ** [posts] *)

Section PostsProperties.

Context {Decoded Allowlist Delegations : Type}.
Variable decode : Rlp.Item -> result Decoded.
Variable normalizeUrl : string -> result string.
Variable ecrecover : LeafItem (Decoded := Decoded) -> result string.
Variable eligible : Allowlist -> Delegations -> string -> option string.
Variable toDigest : LeafItem (Decoded := Decoded) -> result (Buffer * string).

Lemma posts_map_entries (allowlist : Allowlist) (delegations : Delegations)
      (nodes : list (LeafItem (Decoded := Decoded))) :
  forall entries,
    posts_map ecrecover eligible toDigest allowlist delegations nodes = Ok entries ->
    let ps := flat_map (fun entry => match entry with Some post => [post] | None => [] end)
                       entries in
    map post_node ps
    = List.filter (fun node => truthy (identity_of ecrecover eligible allowlist delegations node))
                  nodes /\
    Forall (fun post =>
              ecrecover (post_node post) = Ok (post_signer post) /\
              identity_of ecrecover eligible allowlist delegations (post_node post)
              = Some (post_identity post) /\
              exists canonical, toDigest (post_node post) = Ok (canonical, post_index post))
           ps.
Proof.
  induction nodes as [|node rest IH]; intros entries H; cbn [posts_map] in H.
  - injection H as <-. split; [reflexivity | constructor].
  - destruct (posts_entry ecrecover eligible toDigest allowlist delegations node)
      as [entry|] eqn:He; [|discriminate]. cbn [Js.bind] in H.
    destruct (posts_map ecrecover eligible toDigest allowlist delegations rest)
      as [entries'|]; [|discriminate]. cbn [Js.bind] in H. injection H as <-.
    destruct (IH entries' eq_refl) as [Hnodes Hall]. cbv zeta in *.
    cbn [flat_map List.filter]. unfold posts_entry in He. unfold identity_of at 1.
    destruct (ecrecover node) as [signer|] eqn:Hs; [|discriminate]. cbn [Js.bind] in He.
    destruct (eligible allowlist delegations signer) as [identity_|] eqn:Hi.
    + destruct (String.eqb identity_ "") eqn:Hempty.
      * injection He as <-. cbn [truthy app]. auto.
      * destruct (toDigest node) as [[canonical index]|] eqn:Hd; [|discriminate].
        cbn [Js.bind snd] in He. injection He as <-.
        cbn [truthy app map post_node]. rewrite Hnodes. split; [reflexivity|].
        constructor; [|exact Hall].
        cbn [post_node post_signer post_identity post_index]. unfold identity_of.
        rewrite Hs, Hi, Hempty. eauto.
    + injection He as <-. cbn [truthy app]. auto.
Qed.

(** X29. [posts] keeps the leaves whose signer has an identity and drops
    the others: what it returns are, in the order of [leaves], the leaves
    with an eligible signer, each with that signer, the signer's identity
    and the index that [toDigest] gives for the leaf. *)
Theorem posts_eligible_leaves (fuel : nat) (trie : Trie) (from amount : Num)
        (parser : option (Decoded -> result Message.t)) (startDatetime : Num)
        (allowlist : Allowlist) (delegations : Delegations) (href : option string)
        (ps : list PostEntry) :
  posts decode normalizeUrl ecrecover eligible toDigest fuel trie from amount parser
        startDatetime allowlist delegations href = Ok ps ->
  exists nodes,
    leaves decode normalizeUrl fuel trie from amount parser startDatetime href None
    = Ok nodes /\
    map post_node ps
    = List.filter (fun node => truthy (identity_of ecrecover eligible allowlist delegations node))
                  nodes /\
    Forall (fun post =>
              ecrecover (post_node post) = Ok (post_signer post) /\
              identity_of ecrecover eligible allowlist delegations (post_node post)
              = Some (post_identity post) /\
              exists canonical, toDigest (post_node post) = Ok (canonical, post_index post))
           ps.
Proof.
  unfold posts.
  destruct (leaves decode normalizeUrl fuel trie from amount parser startDatetime href None)
    as [nodes|]; [|discriminate]. cbn [Js.bind].
  destruct (posts_map ecrecover eligible toDigest allowlist delegations nodes)
    as [entries|] eqn:Hmap; [|discriminate]. cbn [Js.bind]. intros [= <-].
  exists nodes. split; [reflexivity|].
  exact (posts_map_entries allowlist delegations nodes entries Hmap).
Qed.

End PostsProperties.

Lemma posts_eligible_leaves_witness :
  let ps := [mkPostEntry "1" (Raw 1) "0xA" "0xA"; mkPostEntry "20" (Raw 20) "0xA" "0xA"] in
  exists nodes,
    leaves LeavesSample.decode LeavesSample.normalizeUrl 2 LeavesSample.three
           NNull NNull None NNull None None
    = Ok nodes /\
    map post_node ps
    = List.filter
        (fun node => truthy (identity_of PostsSample.ecrecover PostsSample.eligible tt tt node))
        nodes /\
    Forall (fun post =>
              PostsSample.ecrecover (post_node post) = Ok (post_signer post) /\
              identity_of PostsSample.ecrecover PostsSample.eligible tt tt (post_node post)
              = Some (post_identity post) /\
              exists canonical,
                PostsSample.toDigest (post_node post) = Ok (canonical, post_index post))
           ps.
Proof.
  intros ps.
  apply (posts_eligible_leaves LeavesSample.decode LeavesSample.normalizeUrl
           PostsSample.ecrecover PostsSample.eligible PostsSample.toDigest
           2 LeavesSample.three NNull NNull None NNull tt tt None ps).
  vm_compute. reflexivity.
Defined.
